(** * bank-to-tally: a shallow embedding of the extraction pipeline

    The definitions follow the TypeScript sources function by function:
    - [lib/utils.ts]: parseDate, parseAmount, determineDebitCredit,
      getDuplicateKey, findDuplicates, formatTallyDate, escapeXml,
      cleanDescription, getFileType
    - [lib/tally-xml.ts]: getVoucherType, findMatchingRule,
      generateVoucherXml, generateTallyXml, transactionsToCSV
    - [lib/parsers/csv-parser.ts]: findColumnIndex, parseCSV
    - [lib/parsers/excel-parser.ts]: findColumnKey
    - [components/TransactionTable.tsx]: formatDate
    - [app/api/parse-pdf/route.ts] (the streaming route): splitPdfIntoChunks,
      parseAIResponse, POST with its [start] callback
    - [app/api/parse-image/route.ts] (the single-shot route): parseAIResponse,
      POST

    Conventions of the model:
    - a JavaScript string is the list of its UTF-16 code units ([list N]);
    - a JavaScript number is its exact rational value, or NaN, or one of
      the two infinities; [parseFloat] rounds the numeral it reads to the
      nearest binary64 number ([toBinary64]);
    - code that may throw returns [Exc]; code that also reads and writes
      the variables of the handler runs in the state monad [M];
    - loops whose end is not structural take fuel and return [None] when
      it runs out; the theorems show how much fuel is enough;
    - built-ins of the runtime ([JSON.parse], [Date], [toLowerCase],
      [Number::toString], [uuidv4]) are the fields of the class [Runtime],
      the two providers of the streaming route are the fields of the
      class [Services], and the two of the single-shot route those of the
      class [ImageHandler.Vision], and [Papa.parse] is the field of the
      class [Papa]. *)

From stdpp Require Import prelude gmap strings.
From Stdlib Require Import NArith ZArith QArith Qcanon Qround Qabs.
From Stdlib Require Ascii String.

Local Open Scope nat_scope.
Set Warnings "-register-all,-clear-no-such-hyp".

(* ===================================================================== *)
(** ** Part I. Definitions                                                *)
(* ===================================================================== *)

(** *** Strings *)

Abbreviation jsstring := (list N).

(** A literal: the code units of an ASCII string. *)
Definition js (s : string) : jsstring :=
  (λ a, Ascii.N_of_ascii a) <$> String.list_ascii_of_string s.
Arguments js : simpl never.

Definition isDigit (c : N) : bool := ((48 <=? c) && (c <=? 57))%N.
Definition isComma (c : N) : bool := (c =? 44)%N.
Definition isDash (c : N) : bool := (c =? 45)%N.

(** WhiteSpace and LineTerminator code units: the class [\s] of a regular
    expression and the characters removed by [String.prototype.trim]. *)
Definition isSpace (c : N) : bool :=
  existsb (N.eqb c)
    [9; 10; 11; 12; 13; 32; 160; 5760; 8232; 8233; 8239; 8287; 12288; 65279]%N
  || ((8192 <=? c) && (c <=? 8202))%N.

Fixpoint dropWhile (p : N → bool) (s : jsstring) : jsstring :=
  match s with
  | c :: r => if p c then dropWhile p r else s
  | [] => []
  end.

Fixpoint takeWhile (p : N → bool) (s : jsstring) : jsstring :=
  match s with
  | c :: r => if p c then c :: takeWhile p r else []
  | [] => []
  end.

Definition trimStart (s : jsstring) : jsstring := dropWhile isSpace s.
Definition trimEnd (s : jsstring) : jsstring :=
  reverse (dropWhile isSpace (reverse s)).
Definition trim (s : jsstring) : jsstring := trimEnd (trimStart s).

Fixpoint startsWith (p s : jsstring) : bool :=
  match p, s with
  | [], _ => true
  | a :: p', b :: s' => (a =? b)%N && startsWith p' s'
  | _ :: _, [] => false
  end.

(** [s.includes(p)] *)
Fixpoint includes (p s : jsstring) : bool :=
  startsWith p s ||
  match s with
  | [] => false
  | _ :: s' => includes p s'
  end.

(** [s.padStart(n, c)] for a one-character filler. *)
Definition padStart (targetLength : nat) (fill : N) (s : jsstring) : jsstring :=
  replicate (targetLength - length s) fill ++ s.

(** [s.replace(/c/g, rep)] for a single character [c]. *)
Definition replaceChar (c : N) (rep s : jsstring) : jsstring :=
  s ≫= (λ x, if (x =? c)%N then rep else [x]).

(** [s.replace(/[class]/g, '')] *)
Definition removeChars (p : N → bool) (s : jsstring) : jsstring :=
  filter (λ c, p c = false) s.

(** The value of a run of decimal digits, most significant first. *)
Definition digitsValue (ds : jsstring) : N :=
  foldl (λ acc d, acc * 10 + (d - 48))%N 0%N ds.

(** The decimal digits of a natural number, as [Number::toString] prints an
    integer below 10^21. *)
Fixpoint decimalLoop (fuel : nat) (n : N) (acc : jsstring) : jsstring :=
  match fuel with
  | O => acc
  | S fuel' =>
    let acc := (48 + n mod 10)%N :: acc in
    if (n / 10 =? 0)%N then acc else decimalLoop fuel' (n / 10)%N acc
  end.
Definition decimal (n : N) : jsstring :=
  decimalLoop (S (N.to_nat (N.log2 n))) n [].

(** *** Numbers *)

(** A JavaScript number: its exact value, a rational.  The values that
    the program computes are binary64 numbers, which are among them:
    [toBinary64] below rounds where the program turns text into a
    number.  There is no negative zero in the model; no operation below
    tells the two zeros apart. *)
Inductive Num :=
  | NaN
  | Inf (negative : bool)
  | Fin (q : Qc).

Definition zero : Num := Fin 0%Qc.
Definition ofZ (z : Z) : Num := Fin (Q2Qc (inject_Z z)).

Definition Math_abs (x : Num) : Num :=
  match x with
  | NaN => NaN
  | Inf _ => Inf false
  | Fin q => Fin (if (Qnum q <? 0)%Z then (- q)%Qc else q)
  end.

Definition isNaN (x : Num) : bool :=
  match x with NaN => true | _ => false end.

(** [x > 0] and [x < 0]; the denominator of a rational is positive, so the
    sign is that of the numerator. *)
Definition gt0 (x : Num) : bool :=
  match x with
  | NaN => false
  | Inf negative => negb negative
  | Fin q => (0 <? Qnum q)%Z
  end.
Definition lt0 (x : Num) : bool :=
  match x with
  | NaN => false
  | Inf negative => negative
  | Fin q => (Qnum q <? 0)%Z
  end.

(** m * 10^e as an exact rational. *)
Definition scale10 (m e : Z) : Qc :=
  if (0 <=? e)%Z then Q2Qc (inject_Z (m * 10 ^ e))
  else Q2Qc (Qmake m (Z.to_pos (10 ^ (- e)))).

(** m * 2^e as an exact rational. *)
Definition scale2 (m e : Z) : Qc :=
  if (0 <=? e)%Z then Q2Qc (inject_Z (m * 2 ^ e))
  else Q2Qc (Qmake m (Z.to_pos (2 ^ (- e)))).

(** The integer nearest to n/d, the even one on a tie, for n >= 0 and
    d > 0. *)
Definition roundHalfEven (n d : Z) : Z :=
  let q := (n / d)%Z in
  let r := (n mod d)%Z in
  if (2 * r <? d)%Z then q
  else if (d <? 2 * r)%Z then (q + 1)%Z
  else if Z.even q then q else (q + 1)%Z.

(** floor (log2 (n/d)) for n > 0 and d > 0: the difference of the two
    binary lengths, or one less. *)
Definition floorLog2 (n d : Z) : Z :=
  let k := (Z.log2 n - Z.log2 d)%Z in
  if (if (0 <=? k)%Z then (d * 2 ^ k <=? n)%Z else (d <=? n * 2 ^ (- k))%Z)
  then k else (k - 1)%Z.

(** The Number value for a mathematical value (ECMAScript, Number type):
    the nearest binary64 number, the one with the even significand on a
    tie; the significand has 53 bits and the least unit is 2^-1074;
    from 2^1024 - 2^970 on the result is an infinity, and below half the
    least unit it is zero. *)
Definition toBinary64 (x : Qc) : Num :=
  let n := Z.abs (Qnum x) in
  let d := Z.pos (Qden x) in
  if (n =? 0)%Z then zero else
  let e := Z.max (floorLog2 n d - 52) (-1074) in
  let m := if (0 <=? e)%Z then roundHalfEven n (d * 2 ^ e)
           else roundHalfEven (n * 2 ^ (- e)) d in
  if (971 <? e)%Z || ((e =? 971)%Z && (m =? 2 ^ 53)%Z)
  then Inf (Qnum x <? 0)%Z
  else Fin (scale2 (if (Qnum x <? 0)%Z then (- m)%Z else m) e).

(** An optional sign: whether it is a minus, and the rest. *)
Definition signOf (s : jsstring) : bool * jsstring :=
  match s with
  | c :: r =>
    if (c =? 45)%N then (true, r)
    else if (c =? 43)%N then (false, r)
    else (false, s)
  | [] => (false, s)
  end.

(** The exponent part [[eE][+-]?\d+] at the head of [r], or 0. *)
Definition exponentOf (r : jsstring) : Z :=
  match r with
  | c :: r' =>
    if ((c =? 101) || (c =? 69))%N then
      let '(negative, r'') := signOf r' in
      match takeWhile isDigit r'' with
      | [] => 0%Z
      | ed =>
        let v := Z.of_N (digitsValue ed) in
        if negative then (- v)%Z else v
      end
    else 0%Z
  | [] => 0%Z
  end.

(** [parseFloat]: skips leading white space, then reads the longest
    prefix that is a StrDecimalLiteral and returns the Number value for
    its mathematical value. *)
Definition parseFloat (s : jsstring) : Num :=
  let '(negative, s) := signOf (trimStart s) in
  if startsWith (js "Infinity") s then Inf negative else
  let ip := takeWhile isDigit s in
  let r := dropWhile isDigit s in
  let '(fp, r) :=
    match r with
    | c :: r' =>
      if (c =? 46)%N then (takeWhile isDigit r', dropWhile isDigit r')
      else ([], r)
    | [] => ([], r)
    end in
  match ip ++ fp with
  | [] => NaN
  | ds =>
    let m := Z.of_N (digitsValue ds) in
    toBinary64 (scale10 (if negative then (- m)%Z else m)
                        (exponentOf r - Z.of_nat (length fp)))
  end.

(** [parseInt] on a run of decimal digits (the only use in the source is
    on the [\d{2}] capture of the two-digit-year pattern). *)
Definition parseInt (s : jsstring) : N := digitsValue (takeWhile isDigit s).

(** *** Values and the runtime *)

(** What [JSON.parse] and property reads produce. *)
Inductive JSValue :=
  | JUndefined
  | JNull
  | JBool (b : bool)
  | JNumber (n : Num)
  | JString (s : jsstring)
  | JArray (items : list JSValue)
  | JObject (fields : list (jsstring * JSValue)).

(** Built-ins of the JavaScript runtime and imported packages that the
    sources call but do not define. *)
Class Runtime := {
  (** [String.prototype.toLowerCase] *)
  String_toLowerCase : jsstring → jsstring;
  (** [Number::toString], as used by template literals and [String(x)] *)
  Number_toString : Num → jsstring;
  (** [new Date(s)]: [None] when the time value is NaN, otherwise
      [date.toISOString().split('T')[0]] *)
  Date_toISODate : jsstring → option jsstring;
  (** [JSON.parse]: [None] when it throws a SyntaxError *)
  JSON_parse : jsstring → option JSValue;
  (** the n-th identifier handed out by [uuidv4()] *)
  uuidv4 : nat → jsstring;
}.

(** *** Normalizer (lib/utils.ts) *)

Fixpoint matchClasses (p : list (N → bool)) (s : jsstring) : bool :=
  match p, s with
  | [], [] => true
  | f :: p', c :: s' => f c && matchClasses p' s'
  | _, _ => false
  end.

(** [/^\d{4}-\d{2}-\d{2}$/] *)
Definition isoPattern : list (N → bool) :=
  [isDigit; isDigit; isDigit; isDigit; isDash;
   isDigit; isDigit; isDash; isDigit; isDigit].

(** [\d{1,2}] followed by a non-digit class: the greedy choice is the only
    one that can succeed, because after giving back a digit the next
    character is a digit and not a separator. *)
Definition digits12 (s : jsstring) : option (jsstring * jsstring) :=
  match s with
  | a :: b :: r =>
    if isDigit a && isDigit b then Some ([a; b], r)
    else if isDigit a then Some ([a], b :: r)
    else None
  | [a] => if isDigit a then Some ([a], []) else None
  | [] => None
  end.

(** [[\/\-\.]] and [[\/\-]] *)
Definition isSep3 (c : N) : bool := ((c =? 47) || (c =? 45) || (c =? 46))%N.
Definition isSep2 (c : N) : bool := ((c =? 47) || (c =? 45))%N.

(** [/^(\d{1,2})SEP(\d{1,2})SEP(\d{n})$/]: the three captures. *)
Definition matchDayMonthYear (isSep : N → bool) (n : nat) (s : jsstring)
    : option (jsstring * jsstring * jsstring) :=
  '(day, r) ← digits12 s;
  match r with
  | c1 :: r =>
    if isSep c1 then
      '(month, r) ← digits12 r;
      match r with
      | c2 :: year =>
        if isSep c2 && (length year =? n) && forallb isDigit year
        then Some (day, month, year) else None
      | [] => None
      end
    else None
  | [] => None
  end.

Definition parseDate `{RT : Runtime} (dateStr : jsstring) : jsstring :=
  match dateStr with
  | [] => []
  | _ =>
    let cleaned := trim dateStr in
    if matchClasses isoPattern cleaned then cleaned else
    match matchDayMonthYear isSep3 4 cleaned with
    | Some (day, month, year) =>
      year ++ [45%N] ++ padStart 2 48 month ++ [45%N] ++ padStart 2 48 day
    | None =>
      match matchDayMonthYear isSep2 2 cleaned with
      | Some (day, month, year) =>
        let fullYear :=
          if (50 <? parseInt year)%N then js "19" ++ year else js "20" ++ year in
        fullYear ++ [45%N] ++ padStart 2 48 month ++ [45%N] ++ padStart 2 48 day
      | None =>
        match Date_toISODate cleaned with
        | Some iso => iso
        | None => cleaned
        end
      end
    end
  end.

(** [string | number] *)
Inductive Amount :=
  | AString (s : jsstring)
  | ANumber (n : Num).

(** [[₹$€£\s]] *)
Definition isCurrencyOrSpace (c : N) : bool :=
  ((c =? 8377) || (c =? 36) || (c =? 8364) || (c =? 163))%N || isSpace c.

(** Case-insensitive comparison with an ASCII letter given in lower case. *)
Definition isLetter (lower : N) (c : N) : bool :=
  ((c =? lower) || (c =? lower - 32))%N.

(** Whether the text, read from its end, finishes with "dr" or "cr" in
    any case; the rest (still reversed) when it does. *)
Definition endsDrCr (reversed : jsstring) : option jsstring :=
  match reversed with
  | r :: dc :: rest =>
    if isLetter 114 r && (isLetter 100 dc || isLetter 99 dc)
    then Some rest else None
  | _ => None
  end.

(** [s.replace(/(dr\.?|cr\.?)$/i, '')]: the pattern is anchored at the end,
    so it can only match the last two characters, or the last three when
    the text ends in a full stop. *)
Definition stripDrCr (s : jsstring) : jsstring :=
  let found :=
    match reverse s with
    | c :: before =>
      if (c =? 46)%N then endsDrCr before else endsDrCr (c :: before)
    | [] => None
    end in
  match found with
  | Some rest => reverse rest
  | None => s
  end.

(** The text handed to [parseFloat]. *)
Definition cleanAmount (s : jsstring) : jsstring :=
  let cleaned := trim s in
  let cleaned := removeChars isCurrencyOrSpace cleaned in
  let cleaned := removeChars isComma cleaned in
  stripDrCr cleaned.

Definition parseAmount (amountStr : Amount) : Num :=
  match amountStr with
  | ANumber n => Math_abs n
  | AString [] => zero
  | AString s =>
    let cleaned := cleanAmount s in
    let num := parseFloat cleaned in
    if isNaN num then zero else Math_abs num
  end.

Record DebitCredit := { dc_debit : Num; dc_credit : Num }.

(** [amountStr.toString()] *)
Definition Amount_toString `{RT : Runtime} (a : Amount) : jsstring :=
  match a with
  | AString s => s
  | ANumber n => Number_toString n
  end.

Definition determineDebitCredit `{RT : Runtime} (amountStr : Amount)
    (typeHint : option jsstring) : DebitCredit :=
  let amount := parseAmount amountStr in
  let amountString := String_toLowerCase (Amount_toString amountStr) in
  let hint := String_toLowerCase (default [] typeHint) in
  if includes (js "dr") hint || includes (js "debit") hint
     || includes (js "withdrawal") hint then
    {| dc_debit := amount; dc_credit := zero |}
  else if includes (js "cr") hint || includes (js "credit") hint
     || includes (js "deposit") hint then
    {| dc_debit := zero; dc_credit := amount |}
  else if includes (js "dr") amountString || startsWith (js "-") amountString then
    {| dc_debit := amount; dc_credit := zero |}
  else if includes (js "cr") amountString then
    {| dc_debit := zero; dc_credit := amount |}
  else if match amountStr with ANumber n => lt0 n | AString _ => false end then
    {| dc_debit := amount; dc_credit := zero |}
  else
    {| dc_debit := zero; dc_credit := amount |}.

(** *** Transactions and the deduplicator (lib/schema.ts, lib/utils.ts) *)

Record Transaction := {
  tx_id : jsstring;
  tx_date : jsstring;
  tx_description : jsstring;
  tx_reference : option jsstring;
  tx_debit : Num;
  tx_credit : Num;
  tx_balance : option Num;
  tx_currency : jsstring;
  tx_bankName : JSValue;
}.

(** [x || ''] for an optional string. *)
Definition orEmpty (x : option jsstring) : jsstring := default [] x.

Definition getDuplicateKey `{RT : Runtime} (tx : Transaction) : jsstring :=
  tx_date tx ++ [124%N]
  ++ trim (String_toLowerCase (tx_description tx)) ++ [124%N]
  ++ Number_toString (tx_debit tx) ++ [124%N]
  ++ Number_toString (tx_credit tx) ++ [124%N]
  ++ orEmpty (tx_reference tx).

(** One iteration of the [for (const tx of transactions)] loop over the
    [seen] map and the [duplicateIds] set. *)
Definition findDuplicates_step `{RT : Runtime}
    (st : gmap jsstring (list jsstring) * gset jsstring) (tx : Transaction)
    : gmap jsstring (list jsstring) * gset jsstring :=
  let '(seen, duplicateIds) := st in
  let key := getDuplicateKey tx in
  let existing := default [] (seen !! key) in
  let duplicateIds :=
    if 0 <? length existing
    then foldl (λ acc i, {[i]} ∪ acc) ({[tx_id tx]} ∪ duplicateIds) existing
    else duplicateIds in
  (<[key := existing ++ [tx_id tx]]> seen, duplicateIds).

Definition findDuplicates `{RT : Runtime} (transactions : list Transaction)
    : gset jsstring :=
  (foldl findDuplicates_step (∅, ∅) transactions).2.

(** *** Voucher generator (lib/tally-xml.ts, lib/utils.ts) *)

Inductive VoucherType := Payment | Receipt | Contra.


Record LedgerRule := {
  keywords : list jsstring;
  ledgerName : jsstring;
  voucherType : option VoucherType;
}.


Definition formatTallyDate (dateStr : jsstring) : jsstring :=
  removeChars (isDash) dateStr.

Definition escapeXml (str : jsstring) : jsstring :=
  match str with
  | [] => []
  | _ =>
    replaceChar 39 (js "&apos;")
      (replaceChar 34 (js "&quot;")
        (replaceChar 62 (js "&gt;")
          (replaceChar 60 (js "&lt;")
            (replaceChar 38 (js "&amp;") str))))
  end.

(** [Number.prototype.toFixed(2)]: the integer n for which n/100 is
    closest to the value (the larger one on a tie), printed with two
    fraction digits; values of 10^21 and more are printed by
    [Number::toString]. *)
Definition toFixed2 `{RT : Runtime} (x : Num) : jsstring :=
  match x with
  | NaN => js "NaN"
  | Inf negative => if negative then js "-Infinity" else js "Infinity"
  | Fin q =>
    let a := Qabs q in
    if Qle_bool (inject_Z (10 ^ 21)) a then Number_toString x else
    let n := Qfloor (a * inject_Z 100 + (1 # 2)) in
    let m := padStart 3 48 (decimal (Z.to_N n)) in
    (if (Qnum q <? 0)%Z then js "-" else [])
    ++ take (length m - 2) m ++ js "." ++ drop (length m - 2) m
  end.


Definition findMatchingRule `{RT : Runtime} (tx : Transaction)
    (rules : list LedgerRule) : option LedgerRule :=
  let desc := String_toLowerCase (tx_description tx) in
  find (λ rule,
          existsb (λ keyword, includes (String_toLowerCase keyword) desc)
                  (keywords rule))
       rules.

Definition quote : jsstring := [34%N].
Definition nl : jsstring := [10%N].





(** *** Exceptions *)

(** The outcome of evaluating JavaScript code that may throw; the payload
    of [Throw] is [error.message]. *)
Inductive Exc (A : Type) :=
  | Ok (a : A)
  | Throw (message : jsstring).
Arguments Ok {A} a.
Arguments Throw {A} message.

(** [try { body } catch (e) { handler }] *)
Definition try_catch {A} (body : Exc A) (handler : jsstring → Exc A) : Exc A :=
  match body with
  | Ok a => Ok a
  | Throw message => handler message
  end.

Definition exc_bind {A B} (m : Exc A) (k : A → Exc B) : Exc B :=
  match m with
  | Ok a => k a
  | Throw message => Throw message
  end.

(** [JSON.parse(s)] as an expression that may throw. *)
Definition JSON_parse_exc `{RT : Runtime} (s : jsstring) : Exc JSValue :=
  match JSON_parse s with
  | Some v => Ok v
  | None => Throw (js "SyntaxError")
  end.

(** *** Response recoverer (parse-pdf/route.ts and parse-image/route.ts) *)

(** The text before and after the first occurrence of [p]. *)
Fixpoint splitAt (p s : jsstring) : option (jsstring * jsstring) :=
  if startsWith p s then Some ([], drop (length p) s)
  else match s with
       | [] => None
       | c :: s' => '(a, b) ← splitAt p s'; Some (c :: a, b)
       end.

(** Capture 1 of [text.match(/```(?:json)?\s*([\s\S]*?)```/)].  The match
    starts at the first fence; neither "json" nor white space contains a
    back-tick, so the greedy choices for [(?:json)?] and [\s*] never have
    to be undone, and the lazy capture ends at the next fence. *)
Definition matchFence (text : jsstring) : option jsstring :=
  '(_, r) ← splitAt (js "```") text;
  let r := if startsWith (js "json") r then drop 4 r else r in
  let r := dropWhile isSpace r in
  '(inner, _) ← splitAt (js "```") r;
  Some inner.

(** Match 0 of [s.match(/O[\s\S]*C/)] for two distinct characters O and
    C: from the first O to the last C after it. *)
Definition matchSpan (o c : N) (s : jsstring) : option jsstring :=
  match dropWhile (λ x, negb (x =? o)%N) s with
  | [] => None
  | x :: r =>
    if existsb (N.eqb c) r
    then Some (reverse (dropWhile (λ y, negb (y =? c)%N) (reverse (x :: r))))
    else None
  end.

Record BraceScan := {
  braceCount : Z;
  startIdx : Z;
  endIdx : Z;
}.

(** The brace-counting [for] loop; [i] is the index of the head of [s]. *)
Fixpoint scanBraces (s : jsstring) (i : Z) (st : BraceScan) : BraceScan :=
  match s with
  | [] => st
  | ch :: r =>
    if (ch =? 123)%N then
      scanBraces r (i + 1)
        {| braceCount := braceCount st + 1;
           startIdx := if (startIdx st =? -1)%Z then i else startIdx st;
           endIdx := endIdx st |}
    else if (ch =? 125)%N then
      let count := (braceCount st - 1)%Z in
      if (count =? 0)%Z && negb (startIdx st =? -1)%Z then
        {| braceCount := count; startIdx := startIdx st; endIdx := i + 1 |}
      else
        scanBraces r (i + 1)
          {| braceCount := count; startIdx := startIdx st; endIdx := endIdx st |}
    else scanBraces r (i + 1) st
  end.

(** [s.substring(a, b)] for 0 <= a <= b. *)
Definition substring (a b : Z) (s : jsstring) : jsstring :=
  take (Z.to_nat (b - a)) (drop (Z.to_nat a) s).

Definition emptyResult : JSValue :=
  JObject [(js "transactions", JArray [])].

Definition transactionsOnly (v : JSValue) : JSValue :=
  JObject [(js "transactions", v)].

(** The text handed to the first [JSON.parse]: the interior of a fenced
    block when there is one, narrowed to the first balanced object when
    the brace scan finds one. *)
Definition jsonCandidate (responseText : jsstring) : jsstring :=
  let jsonStr :=
    match matchFence responseText with
    | Some inner => trim inner
    | None => responseText
    end in
  let sc := scanBraces jsonStr 0
              {| braceCount := 0; startIdx := -1; endIdx := -1 |} in
  if negb (startIdx sc =? -1)%Z && negb (endIdx sc =? -1)%Z
  then substring (startIdx sc) (endIdx sc) jsonStr else jsonStr.

Module PdfRoute.

Definition parseAIResponse `{RT : Runtime} (responseText : jsstring) : Exc JSValue :=
  if bool_decide (responseText = []) || (length (trim responseText) =? 0)
  then Ok emptyResult else
  let jsonStr := jsonCandidate responseText in
  try_catch (JSON_parse_exc jsonStr) (λ _,
    match matchSpan 91 93 responseText with
    | Some arrayMatch =>
      try_catch
        (exc_bind (JSON_parse_exc arrayMatch) (λ v, Ok (transactionsOnly v)))
        (λ _, Ok emptyResult)
    | None => Ok emptyResult
    end).

End PdfRoute.

Module ImageRoute.

(** Capture 1 of [text.match(/"transactions"\s*:\s*(\[[\s\S]*?\])/)]: at
    the first position where the key, a colon and an opening bracket
    follow one another and a closing bracket comes later, the text from
    the opening bracket to the first closing bracket. *)
Fixpoint matchTransactionsField (s : jsstring) : option jsstring :=
  let here :=
    if startsWith (quote ++ js "transactions" ++ quote) s then
      match dropWhile isSpace (drop 14 s) with
      | 58%N :: r =>
        match dropWhile isSpace r with
        | 91%N :: r' =>
          if existsb (N.eqb 93) r'
          then Some (91%N :: takeWhile (λ x, negb (x =? 93)%N) r' ++ [93%N])
          else None
        | _ => None
        end
      | _ => None
      end
    else None in
  match here with
  | Some m => Some m
  | None =>
    match s with
    | [] => None
    | _ :: s' => matchTransactionsField s'
    end
  end.

Definition parseAIResponse `{RT : Runtime} (responseText : jsstring) : Exc JSValue :=
  if bool_decide (responseText = []) || (length (trim responseText) =? 0)
  then Throw (js "AI returned empty response") else
  let jsonStr :=
    match matchFence responseText with
    | Some inner => trim inner
    | None => responseText
    end in
  let finish (jsonStr : jsstring) : Exc JSValue :=
    try_catch (JSON_parse_exc jsonStr) (λ _,
      let giveUp : Exc JSValue :=
        Throw (js "Could not parse AI response as JSON") in
      match matchTransactionsField responseText with
      | Some fallbackMatch =>
        try_catch
          (exc_bind (JSON_parse_exc fallbackMatch)
                    (λ v, Ok (transactionsOnly v)))
          (λ _, giveUp)
      | None => giveUp
      end) in
  match matchSpan 123 125 jsonStr with
  | Some objectMatch => finish objectMatch
  | None =>
    match matchSpan 91 93 jsonStr with
    | Some arrayMatch =>
      exc_bind (JSON_parse_exc arrayMatch) (λ v, Ok (transactionsOnly v))
    | None => finish jsonStr
    end
  end.

End ImageRoute.

(** *** Chunker (parse-pdf/route.ts, splitPdfIntoChunks) *)

(** A chunk is the list of page indices copied into the sub-document. *)
Definition Chunk := list nat.

(** The [for (startPage = 0; startPage < totalPages; startPage += step)]
    loop.  [fuel] bounds the number of loop-condition checks; [None] means
    the bound was hit before the loop left. *)
Fixpoint splitLoop (fuel totalPages pagesPerChunk startPage : nat)
    (chunks : list Chunk) : option (list Chunk) :=
  match fuel with
  | O => None
  | S fuel' =>
    if startPage <? totalPages then
      let endPage := startPage + pagesPerChunk in
      if (totalPages <? endPage) && (totalPages <=? startPage) then
        Some chunks                                   (* inner break *)
      else
        let endPage := if totalPages <? endPage then totalPages else endPage in
        (* for (let i = startPage; i < endPage; i++) pageIndices.push(i) *)
        let pageIndices := seq startPage (endPage - startPage) in
        let chunks := chunks ++ [pageIndices] in
        if endPage =? totalPages then Some chunks      (* final break *)
        else splitLoop fuel' totalPages pagesPerChunk
                       (startPage + pagesPerChunk) chunks
    else Some chunks
  end.

Definition splitPdfIntoChunks (totalPages pagesPerChunk : nat)
    : option (list Chunk) :=
  splitLoop (S totalPages) totalPages pagesPerChunk 0 [].

(** ceil(N/k) for k >= 1. *)
Definition ceil_div (n k : nat) : nat := (n + k - 1) / k.

(** *** Extraction orchestrator (parse-pdf/route.ts, POST) *)

Inductive StreamEvent :=
  | EvProgress (message : jsstring) (chunk totalChunks : nat)
  | EvTransactions (data : list Transaction)
  | EvComplete (warnings : list jsstring) (bankName : JSValue)
  | EvError (message : jsstring).

(** What the handler does to the outside world, in order. *)
Inductive Action :=
  | Enqueue (event : StreamEvent)
  | Sleep (ms : N)
  | Close.

(** The result of awaiting an external call. *)
Inductive CallResult :=
  | Returned (text : jsstring)
  | Failed (message : jsstring).

(** The external collaborators; the first argument is the number of
    service calls made before this one, so that repeated calls may answer
    differently. *)
Class Services := {
  processChunkWithGemini : nat → Chunk → nat → nat → CallResult;
  extractPdfText : Chunk → jsstring;
  processWithGroq : nat → jsstring → CallResult;
}.

(** The variables of the [start] callback that outlive one attempt. *)
Record State := {
  warnings : list jsstring;
  bankName : JSValue;
  output : list Action;
  idsIssued : nat;
  calls : nat;
}.

Definition initialState : State :=
  {| warnings := []; bankName := JUndefined; output := [];
     idsIssued := 0; calls := 0 |}.

Definition emit (a : Action) (st : State) : State :=
  {| warnings := warnings st; bankName := bankName st;
     output := output st ++ [a];
     idsIssued := idsIssued st; calls := calls st |}.

Definition setBankName (v : JSValue) (st : State) : State :=
  {| warnings := warnings st; bankName := v; output := output st;
     idsIssued := idsIssued st; calls := calls st |}.

Definition pushWarning (w : jsstring) (st : State) : State :=
  {| warnings := warnings st ++ [w]; bankName := bankName st;
     output := output st; idsIssued := idsIssued st; calls := calls st |}.

(** Code that reads and writes the state and may throw. *)
Definition M (A : Type) : Type := State → Exc A * State.

Definition ret {A} (a : A) : M A := λ st, (Ok a, st).
Definition raise {A} (message : jsstring) : M A := λ st, (Throw message, st).
Definition bind {A B} (m : M A) (k : A → M B) : M B :=
  λ st, match m st with
        | (Ok a, st') => k a st'
        | (Throw message, st') => (Throw message, st')
        end.
Definition lift {A} (e : Exc A) : M A := λ st, (e, st).
Definition modify (f : State → State) : M unit := λ st, (Ok tt, f st).

Declare Scope M_scope.
Delimit Scope M_scope with M.
Notation "x ←ₘ m ; k" := (bind m (λ x, k))
  (at level 20, m at level 100, k at level 200, only parsing) : M_scope.
Notation "m ;;ₘ k" := (bind m (λ _, k))
  (at level 100, k at level 200, right associativity, only parsing) : M_scope.

Definition generateId `{RT : Runtime} : M jsstring :=
  λ st, (Ok (uuidv4 (idsIssued st)),
         {| warnings := warnings st; bankName := bankName st;
            output := output st; idsIssued := S (idsIssued st);
            calls := calls st |}).

Definition await (call : nat → CallResult) : M jsstring :=
  λ st, (match call (calls st) with
         | Returned text => Ok text
         | Failed message => Throw message
         end,
         {| warnings := warnings st; bankName := bankName st;
            output := output st; idsIssued := idsIssued st;
            calls := S (calls st) |}).

(** The last field named [k], as [JSON.parse] keeps the last duplicate. *)
Definition lookupField (k : jsstring) (fields : list (jsstring * JSValue))
    : JSValue :=
  match find (λ f, bool_decide (f.1 = k)) (reverse fields) with
  | Some f => f.2
  | None => JUndefined
  end.

(** [v.k] for the property names read by the handler; none of them is
    defined on a prototype. *)
Definition getProp (v : JSValue) (k : jsstring) : Exc JSValue :=
  match v with
  | JUndefined =>
    Throw (js "Cannot read properties of undefined (reading '" ++ k ++ js "')")
  | JNull =>
    Throw (js "Cannot read properties of null (reading '" ++ k ++ js "')")
  | JObject fields => Ok (lookupField k fields)
  | _ => Ok JUndefined
  end.

Definition truthy (v : JSValue) : bool :=
  match v with
  | JUndefined | JNull => false
  | JBool b => b
  | JNumber NaN => false
  | JNumber (Inf _) => true
  | JNumber (Fin q) => negb (Qnum q =? 0)%Z
  | JString s => negb (bool_decide (s = []))
  | JArray _ | JObject _ => true
  end.

(** [a || b] and [a ?? b] *)
Definition or_else (a b : JSValue) : JSValue := if truthy a then a else b.
Definition nullish (v : JSValue) : bool :=
  match v with JUndefined | JNull => true | _ => false end.
Definition coalesce (a b : JSValue) : JSValue := if nullish a then b else a.

Fixpoint join (sep : jsstring) (parts : list jsstring) : jsstring :=
  match parts with
  | [] => []
  | [x] => x
  | x :: rest => x ++ sep ++ join sep rest
  end.

(** [String(v)] *)
Fixpoint ToString `{RT : Runtime} (v : JSValue) : jsstring :=
  match v with
  | JUndefined => js "undefined"
  | JNull => js "null"
  | JBool b => if b then js "true" else js "false"
  | JNumber n => Number_toString n
  | JString s => s
  | JArray items =>
    join (js ",")
      (map (λ x, match x with
                 | JUndefined | JNull => []
                 | _ => ToString x
                 end) items)
  | JObject _ => js "[object Object]"
  end.

(** The callback of [txArray.map]. *)
Definition toTransaction `{RT : Runtime} (tx : JSValue) : M Transaction := (
  id ←ₘ generateId;
  λ st,
    (exc_bind (getProp tx (js "date")) (λ date,
     exc_bind (getProp tx (js "narration")) (λ narration,
     exc_bind (getProp tx (js "description")) (λ description,
     exc_bind (getProp tx (js "txn_no")) (λ txn_no,
     exc_bind (getProp tx (js "reference")) (λ reference,
     exc_bind (getProp tx (js "ref_no")) (λ ref_no,
     exc_bind (getProp tx (js "debit")) (λ debit,
     exc_bind (getProp tx (js "withdrawal")) (λ withdrawal,
     exc_bind (getProp tx (js "credit")) (λ credit,
     exc_bind (getProp tx (js "deposit")) (λ deposit,
     exc_bind (getProp tx (js "balance")) (λ balance,
     Ok {| tx_id := id;
           tx_date := parseDate (ToString (or_else date (JString [])));
           tx_description :=
             ToString (or_else narration (or_else description (JString [])));
           tx_reference :=
             Some (ToString (or_else txn_no
                              (or_else reference
                                (or_else ref_no (JString [])))));
           tx_debit :=
             parseAmount (AString (ToString
               (coalesce debit (coalesce withdrawal (JNumber zero)))));
           tx_credit :=
             parseAmount (AString (ToString
               (coalesce credit (coalesce deposit (JNumber zero)))));
           tx_balance :=
             if nullish balance then None
             else Some (parseAmount (AString (ToString balance)));
           tx_currency := js "INR";
           tx_bankName := bankName st |}))))))))))),
     st))%M.

Fixpoint mapM {A B} (f : A → M B) (l : list A) : M (list B) :=
  match l with
  | [] => ret []
  | x :: r => (y ←ₘ f x; ys ←ₘ mapM f r; ret (y :: ys))%M
  end.

(** [txArray.map(...)] on the value of [parsed.transactions || []]. *)
Definition mapTransactions `{RT : Runtime} (txArray : JSValue) : M (list Transaction) :=
  match txArray with
  | JArray items => mapM toTransaction items
  | _ => raise (js "txArray.map is not a function")
  end.

Definition natStr (n : nat) : jsstring := decimal (N.of_nat n).

Definition MAX_RETRIES : nat := 2.
Definition GEMINI_PAGES_PER_CHUNK : nat := 2.
Definition GROQ_PAGES_PER_CHUNK : nat := 2.

Definition isGemini (apiProvider : jsstring) : bool :=
  bool_decide (apiProvider = js "gemini").

(** [responseText] of an attempt: the answer of the provider, or the
    empty document when the chunk holds too little text for Groq. *)
Definition obtainResponse `{SV : Services} (apiProvider : jsstring)
    (chunk : Chunk) (i total : nat) : M jsstring :=
  if isGemini apiProvider then
    await (λ n, processChunkWithGemini n chunk (i + 1) total)
  else
    let chunkText := extractPdfText chunk in
    if length (trim chunkText) <? 20
    then ret (js "{" ++ quote ++ js "transactions" ++ quote ++ js ": []}")
    else await (λ n, processWithGroq n chunkText).

(** [if (!bankName && parsed.bankName) bankName = parsed.bankName;] *)
Definition adoptBankName (parsed : JSValue) : M unit :=
  λ st,
    if truthy (bankName st) then (Ok tt, st)
    else match getProp parsed (js "bankName") with
         | Ok b => (Ok tt, if truthy b then setBankName b st else st)
         | Throw message => (Throw message, st)
         end.

(** The body of the [try] block for chunk [i] (0-based) of [total]. *)
Definition attempt `{RT : Runtime} `{SV : Services} (apiProvider : jsstring)
    (chunk : Chunk) (i total : nat) : M unit := (
  responseText ←ₘ obtainResponse apiProvider chunk i total;
  parsed ←ₘ lift (PdfRoute.parseAIResponse responseText);
  adoptBankName parsed ;;ₘ
  transactionsProp ←ₘ lift (getProp parsed (js "transactions"));
  chunkTransactions ←ₘ mapTransactions (or_else transactionsProp (JArray []));
  (if 0 <? length chunkTransactions
   then modify (emit (Enqueue (EvTransactions chunkTransactions)))
   else ret tt) ;;ₘ
  let delay := (if isGemini apiProvider then 2000 else 5000)%N in
  if S i <? total then
    modify (λ st,
      emit (Sleep delay)
        (emit (Enqueue (EvProgress
                 (js "Waiting " ++ decimal (delay / 1000)
                  ++ js "s for rate limit...") (i + 1) total)) st))
  else ret tt)%M.

(** [errorMsg.includes('429') || errorMsg.includes('Quota') ||
    errorMsg.includes('rate_limit')] *)
Definition isRateLimit (errorMsg : jsstring) : bool :=
  includes (js "429") errorMsg || includes (js "Quota") errorMsg
  || includes (js "rate_limit") errorMsg.

(** The [while (!chunkSuccess && retries <= MAX_RETRIES)] loop.  [fuel]
    bounds the number of loop-condition checks. *)
Fixpoint retryLoop `{RT : Runtime} `{SV : Services} (fuel : nat) (apiProvider : jsstring)
    (chunk : Chunk) (i total : nat) (chunkSuccess : bool) (retries : nat)
    (st : State) : option State :=
  match fuel with
  | O => None
  | S fuel' =>
    if negb chunkSuccess && (retries <=? MAX_RETRIES) then
      match attempt apiProvider chunk i total st with
      | (Ok _, st) =>
        retryLoop fuel' apiProvider chunk i total true retries st
      | (Throw errorMsg, st) =>
        let retries := S retries in
        if isRateLimit errorMsg then
          let waitTime := 32000%N in
          let st :=
            emit (Sleep waitTime)
              (emit (Enqueue (EvProgress
                       (js "Rate limited. Waiting " ++ decimal (waitTime / 1000)
                        ++ js "s...") (i + 1) total)) st) in
          retryLoop fuel' apiProvider chunk i total chunkSuccess retries st
        else if MAX_RETRIES <? retries then
          Some (pushWarning
                  (js "Skipped chunk " ++ natStr (i + 1)
                   ++ js " due to errors: " ++ errorMsg) st)
        else retryLoop fuel' apiProvider chunk i total chunkSuccess retries st
      end
    else Some st
  end.

(** The [for (let i = 0; i < chunks.length; i++)] loop, from index [i]
    on; [rest] are the chunks not yet processed. *)
Fixpoint processChunks `{RT : Runtime} `{SV : Services} (fuel : nat)
    (apiProvider : jsstring) (rest : list Chunk) (i total : nat)
    (st : State) : option State :=
  match rest with
  | [] => Some st
  | chunk :: rest' =>
    let st :=
      emit (Enqueue (EvProgress
              (js "Processing chunk " ++ natStr (i + 1) ++ js "/"
               ++ natStr total ++ js " (" ++ apiProvider ++ js ")...")
              (i + 1) total)) st in
    st ← retryLoop fuel apiProvider chunk i total false 0 st;
    processChunks fuel apiProvider rest' (S i) total st
  end.

(** The uploaded file as [pdf-lib] sees it. *)
Inductive Pdf :=
  | Loaded (totalPages : nat)
  | Corrupt (message : jsstring).

(** The [start] callback of the response stream. *)
Definition start `{RT : Runtime} `{SV : Services} (fuel : nat) (apiProvider : jsstring)
    (file : Pdf) : option (list Action) :=
  let st :=
    emit (Enqueue (EvProgress
            (js "Analyzing PDF structure and splitting pages...") 0 0))
         initialState in
  let pagesPerChunk :=
    if isGemini apiProvider then GEMINI_PAGES_PER_CHUNK
    else GROQ_PAGES_PER_CHUNK in
  match file with
  | Corrupt message =>
    Some (output (emit Close (emit (Enqueue (EvError message)) st)))
  | Loaded totalPages =>
    chunks ← splitPdfIntoChunks totalPages pagesPerChunk;
    let st :=
      emit (Enqueue (EvProgress
              (js "Split PDF into " ++ natStr (length chunks)
               ++ js " chunks. Starting processing...") 0 (length chunks)))
           st in
    st ← processChunks fuel apiProvider chunks 0 (length chunks) st;
    Some (output
            (emit Close
               (emit (Enqueue (EvComplete (warnings st) (bankName st))) st)))
  end.

(** The fields of the multipart form that the handler reads ([modelId]
    only reaches the provider, which is a parameter here), and the two
    keys of the environment. *)
Record Request := {
  req_file : option Pdf;
  req_apiProvider : option jsstring;
  req_apiKey : option jsstring;
}.

Record Env := {
  GEMINI_API_KEY : option jsstring;
  GROQ_API_KEY : option jsstring;
}.

Inductive Response :=
  | JsonError (status : nat) (error : jsstring)
  | Stream (actions : list Action).

(** [x || y] for an optional string [x]. *)
Definition stringOr {A} (x : option jsstring) (orElse : A)
    (present : jsstring → A) : A :=
  match x with
  | Some (c :: r) => present (c :: r)
  | _ => orElse
  end.

(** The route handler, once the form has been read. *)
Definition POST `{RT : Runtime} `{SV : Services} (fuel : nat) (env : Env)
    (request : Request) : option Response :=
  match req_file request with
  | None => Some (JsonError 400 (js "No file provided"))
  | Some file =>
    let apiProvider := stringOr (req_apiProvider request) (js "gemini") id in
    let effectiveApiKey :=
      stringOr (req_apiKey request)
        (stringOr (if isGemini apiProvider then GEMINI_API_KEY env
                   else GROQ_API_KEY env) None Some)
        Some in
    match effectiveApiKey with
    | None =>
      Some (JsonError 400
              (js "No "
               ++ (if isGemini apiProvider then js "Gemini" else js "Groq")
               ++ js " API key provided."))
    | Some _ =>
      actions ← start fuel apiProvider file;
      Some (Stream actions)
    end
  end.

(** *** Descriptions and file types (lib/utils.ts) *)

(** [s.replace(/\s+/g, ' ')]: every maximal run of white space becomes one
    space; [inRun] tells whether the character before was white space. *)
Fixpoint collapseSpaces (inRun : bool) (s : jsstring) : jsstring :=
  match s with
  | [] => []
  | c :: r =>
    if isSpace c then (if inRun then [] else [32%N]) ++ collapseSpaces true r
    else c :: collapseSpaces false r
  end.

(** [\w] *)
Definition isWordChar (c : N) : bool :=
  ((97 <=? c) && (c <=? 122))%N || ((65 <=? c) && (c <=? 90))%N
  || isDigit c || (c =? 95)%N.

(** [[\w\s\-\/\.\,\@\#\(\)]] *)
Definition isDescriptionChar (c : N) : bool :=
  isWordChar c || isSpace c
  || existsb (N.eqb c) [45; 47; 46; 44; 64; 35; 40; 41]%N.

Definition cleanDescription (text : jsstring) : jsstring :=
  match text with
  | [] => []
  | _ =>
    trim (removeChars (λ c, negb (isDescriptionChar c))
            (collapseSpaces false text))
  end.

(** [s.split(c)] for a one-character separator: the pieces between the
    occurrences of [c]; there is always at least one piece. *)
Fixpoint split (sep : N) (s : jsstring) : list jsstring :=
  match s with
  | [] => [[]]
  | c :: r =>
    if (c =? sep)%N then [] :: split sep r
    else match split sep r with
         | piece :: pieces => (c :: piece) :: pieces
         | [] => [[c]]
         end
  end.

Inductive FileType := FileCsv | FileExcel | FilePdf | FileImage | FileUnknown.

(** The chain of comparisons of [getFileType] on the extension. *)
Definition fileTypeOfExtension (ext : jsstring) : FileType :=
  if bool_decide (ext = js "csv") then FileCsv
  else if bool_decide (ext ∈ [js "xls"; js "xlsx"]) then FileExcel
  else if bool_decide (ext = js "pdf") then FilePdf
  else if bool_decide
            (ext ∈ [js "jpg"; js "jpeg"; js "png"; js "gif"; js "webp"; js "bmp"])
       then FileImage
  else FileUnknown.

Definition getFileType `{RT : Runtime} (fileName : jsstring) : FileType :=
  (* [.split('.').pop() || ''] *)
  let ext := default [] (last (split 46 (String_toLowerCase fileName))) in
  fileTypeOfExtension ext.

(** *** Displayed dates (components/TransactionTable.tsx) *)

(** [parseInt(s, 10)]: leading white space, an optional sign, then the
    longest run of decimal digits; [None] is NaN. *)
Definition parseInt10 (s : jsstring) : option Z :=
  let '(negative, r) := signOf (trimStart s) in
  match takeWhile isDigit r with
  | [] => None
  | ds =>
    let v := Z.of_N (digitsValue ds) in
    Some (if negative then (- v)%Z else v)
  end.

Definition monthNames : list jsstring :=
  [js "Jan"; js "Feb"; js "Mar"; js "Apr"; js "May"; js "Jun";
   js "Jul"; js "Aug"; js "Sep"; js "Oct"; js "Nov"; js "Dec"].

(** [monthNames[parseInt(month, 10) - 1] || 'Jan'] *)
Definition monthNameOf (month : jsstring) : jsstring :=
  match parseInt10 month with
  | Some m =>
    if (1 <=? m)%Z then default (js "Jan") (monthNames !! Z.to_nat (m - 1))
    else js "Jan"
  | None => js "Jan"
  end.

(** [formatDate] of components/TransactionTable.tsx. *)
Definition formatDate (dateStr format : jsstring) : jsstring :=
  match dateStr with
  | [] => js "-"
  | _ =>
    let fields :=
      if includes (js "-") dateStr then
        let parts := split 45 dateStr in
        if length (default [] (parts !! 0)) =? 4
        then Some (parts !! 2, parts !! 1, parts !! 0)
        else Some (parts !! 0, parts !! 1, parts !! 2)
      else if includes (js "/") dateStr then
        let parts := split 47 dateStr in
        Some (parts !! 0, parts !! 1, parts !! 2)
      else None in
    match fields with
    | None => dateStr
    | Some (day, month, year) =>
      let day := stringOr (padStart 2 48 <$> day) (js "01") id in
      let month := stringOr (padStart 2 48 <$> month) (js "01") id in
      let year := stringOr year (js "2024") id in
      let monthName := monthNameOf month in
      if bool_decide (format = js "dd/mm/yyyy") then
        day ++ js "/" ++ month ++ js "/" ++ year
      else if bool_decide (format = js "yyyy-mm-dd") then
        year ++ js "-" ++ month ++ js "-" ++ day
      else if bool_decide (format = js "mm/dd/yyyy") then
        month ++ js "/" ++ day ++ js "/" ++ year
      else if bool_decide (format = js "dd-mm-yyyy") then
        day ++ js "-" ++ month ++ js "-" ++ year
      else if bool_decide (format = js "dd mmm yyyy") then
        day ++ js " " ++ monthName ++ js " " ++ year
      else day ++ js "/" ++ month ++ js "/" ++ year
    end
  end.

(** *** Exports (lib/tally-xml.ts) *)





Definition transactionsToCSV `{RT : Runtime} (transactions : list Transaction)
    : jsstring :=
  let headers :=
    [js "Date"; js "Description"; js "Reference"; js "Debit"; js "Credit";
     js "Balance"; js "Currency"] in
  (* [x || ''] for a number: the empty text when it is 0 or NaN *)
  let orBlank (x : Num) : jsstring :=
    if truthy (JNumber x) then Number_toString x else [] in
  let rows :=
    (λ tx,
       [tx_date tx;
        quote ++ replaceChar 34 (quote ++ quote) (tx_description tx) ++ quote;
        orEmpty (tx_reference tx);
        orBlank (tx_debit tx);
        orBlank (tx_credit tx);
        match tx_balance tx with Some balance => orBlank balance | None => [] end;
        stringOr (Some (tx_currency tx)) (js "INR") id])
    <$> transactions in
  join nl (join (js ",") headers :: (join (js ",") <$> rows)).

(** *** The single-shot route (parse-image/route.ts, POST) *)

Module ImageHandler.

(** The two vision providers, as functions of the image, its MIME type,
    the key and the model. *)
Class Vision := {
  processWithGemini : jsstring → jsstring → jsstring → jsstring → CallResult;
  processWithGroqVision : jsstring → jsstring → jsstring → jsstring → CallResult;
}.

(** The uploaded file: its content in base64 and its declared type. *)
Record ImageFile := {
  base64Data : jsstring;
  fileType : jsstring;
}.

Record Request := {
  req_file : option ImageFile;
  req_apiProvider : option jsstring;
  req_apiKey : option jsstring;
  req_modelId : option jsstring;
}.

Inductive Response :=
  | JsonError (status : nat) (error : jsstring)
  | JsonResult (transactions : list Transaction) (warnings : list jsstring)
               (bankName : JSValue).

(** The callback of [txArray.map]; [issued] is the number of identifiers
    handed out before. *)
Definition toTransaction `{RT : Runtime} (parsed tx : JSValue) (issued : nat)
    : Exc Transaction :=
  let id := uuidv4 issued in
  exc_bind (getProp tx (js "date")) (λ date,
  exc_bind (getProp tx (js "narration")) (λ narration,
  exc_bind (getProp tx (js "description")) (λ description,
  exc_bind (getProp tx (js "txn_no")) (λ txn_no,
  exc_bind (getProp tx (js "reference")) (λ reference,
  exc_bind (getProp tx (js "ref_no")) (λ ref_no,
  exc_bind (getProp tx (js "debit")) (λ debit,
  exc_bind (getProp tx (js "withdrawal")) (λ withdrawal,
  exc_bind (getProp tx (js "credit")) (λ credit,
  exc_bind (getProp tx (js "deposit")) (λ deposit,
  exc_bind (getProp tx (js "balance")) (λ balance,
  exc_bind (getProp parsed (js "bankName")) (λ bankName,
  Ok {| tx_id := id;
        tx_date := parseDate (ToString (or_else date (JString [])));
        tx_description :=
          ToString (or_else narration (or_else description (JString [])));
        tx_reference :=
          Some (ToString (or_else txn_no
                           (or_else reference
                             (or_else ref_no (JString [])))));
        tx_debit :=
          parseAmount (AString (ToString
            (coalesce debit (coalesce withdrawal (JNumber zero)))));
        tx_credit :=
          parseAmount (AString (ToString
            (coalesce credit (coalesce deposit (JNumber zero)))));
        tx_balance :=
          if nullish balance then None
          else Some (parseAmount (AString (ToString balance)));
        tx_currency := js "INR";
        tx_bankName := bankName |})))))))))))).

Fixpoint mapItems `{RT : Runtime} (parsed : JSValue) (items : list JSValue)
    (issued : nat) : Exc (list Transaction) :=
  match items with
  | [] => Ok []
  | tx :: rest =>
    exc_bind (toTransaction parsed tx issued) (λ t,
    exc_bind (mapItems parsed rest (S issued)) (λ ts, Ok (t :: ts)))
  end.

(** [txArray.map(...)] on the value of [parsed.transactions || []]. *)
Definition mapTransactions `{RT : Runtime} (parsed txArray : JSValue)
    (issued : nat) : Exc (list Transaction) :=
  match txArray with
  | JArray items => mapItems parsed items issued
  | _ => Throw (js "txArray.map is not a function")
  end.

(** The route handler, once the form has been read; [issued] is the
    number of identifiers handed out before the request. *)
Definition POST `{RT : Runtime} `{VS : Vision} (issued : nat) (env : Env)
    (request : Request) : Response :=
  match req_file request with
  | None => JsonError 400 (js "No file provided")
  | Some file =>
    let apiProvider := stringOr (req_apiProvider request) (js "gemini") id in
    let effectiveApiKey :=
      stringOr (req_apiKey request)
        (stringOr (if isGemini apiProvider then GEMINI_API_KEY env
                   else GROQ_API_KEY env) None Some)
        Some in
    let effectiveModelId :=
      stringOr (req_modelId request)
        (if isGemini apiProvider then js "gemini-2.5-flash"
         else js "meta-llama/llama-4-scout-17b-16e-instruct") id in
    match effectiveApiKey with
    | None =>
      JsonError 400
        (js "No "
         ++ (if isGemini apiProvider then js "Gemini" else js "Groq")
         ++ js " API key provided.")
    | Some key =>
      let mimeType := stringOr (Some (fileType file)) (js "image/jpeg") id in
      (* the provider's answer and [usedProvider], or the response of an
         inner [catch] *)
      let answered : Exc (Response + jsstring * jsstring) :=
        if isGemini apiProvider then
          match processWithGemini (base64Data file) mimeType key
                                  effectiveModelId with
          | Returned text =>
            Ok (inr (text, js "Gemini (" ++ effectiveModelId ++ js ")"))
          | Failed errorMsg =>
            if includes (js "429") errorMsg then
              Ok (inl (JsonError 429
                         (js "Gemini rate limit exceeded. Wait and try again.")))
            else Throw errorMsg
          end
        else
          match processWithGroqVision (base64Data file) mimeType key
                                      effectiveModelId with
          | Returned text =>
            Ok (inr (text, js "Groq Vision (" ++ effectiveModelId ++ js ")"))
          | Failed errorMsg =>
            Ok (inl (JsonError 400 (js "Groq Vision failed: " ++ errorMsg)))
          end in
      let body : Exc Response :=
        exc_bind answered (λ a,
          match a with
          | inl response => Ok response
          | inr (responseText, usedProvider) =>
            match ImageRoute.parseAIResponse responseText with
            | Throw _ =>
              Ok (JsonError 500
                    (js "AI returned invalid format. Provider: "
                     ++ usedProvider))
            | Ok parsed =>
              exc_bind (getProp parsed (js "transactions")) (λ transactionsProp,
              exc_bind (mapTransactions parsed
                          (or_else transactionsProp (JArray [])) issued)
                       (λ transactions,
              let warnings :=
                (if length transactions =? 0
                 then [js "No transactions found in the image"] else [])
                ++ [js "Processed with: " ++ usedProvider] in
              exc_bind (getProp parsed (js "bankName")) (λ bankName,
              Ok (JsonResult transactions warnings bankName))))
            end
          end) in
      (* the outer [catch] *)
      match body with
      | Ok response => response
      | Throw errorMessage =>
        JsonError 500 (js "Failed to process image: " ++ errorMessage)
      end
    end
  end.

End ImageHandler.

(** *** Tabular statements (lib/parsers/csv-parser.ts,
    lib/parsers/excel-parser.ts) *)

(** The table of aliases; the two parsers declare the same one. *)
Definition COLUMN_MAPPINGS : list (jsstring * list jsstring) :=
  [(js "date",
    [js "date"; js "txn date"; js "transaction date"; js "value date";
     js "posting date"; js "txn_date"; js "valuedate"]);
   (js "description",
    [js "description"; js "particulars"; js "narration"; js "details";
     js "remarks"; js "transaction details"; js "txn particulars"]);
   (js "reference",
    [js "reference"; js "ref"; js "ref no"; js "chq no"; js "cheque no";
     js "utr"; js "txn no"; js "transaction id"; js "ref_no"; js "chq_no"]);
   (js "debit",
    [js "debit"; js "withdrawal"; js "dr"; js "debit amount";
     js "withdrawals"; js "debit(dr)"; js "dr_amount"]);
   (js "credit",
    [js "credit"; js "deposit"; js "cr"; js "credit amount"; js "deposits";
     js "credit(cr)"; js "cr_amount"]);
   (js "amount", [js "amount"; js "transaction amount"; js "txn amount"]);
   (js "type",
    [js "type"; js "dr/cr"; js "drcr"; js "transaction type"; js "txn type";
     js "cr/dr"]);
   (js "balance",
    [js "balance"; js "closing balance"; js "running balance";
     js "available balance"])].

(** [COLUMN_MAPPINGS[field] || []], for a field that is no property of
    the prototype. *)
Definition aliasesOf (field : jsstring) : list jsstring :=
  match find (λ entry, bool_decide (entry.1 = field)) COLUMN_MAPPINGS with
  | Some entry => entry.2
  | None => []
  end.

(** [l.indexOf(x)]; [None] is -1. *)
Fixpoint indexOf (x : jsstring) (l : list jsstring) : option nat :=
  match l with
  | [] => None
  | y :: r => if bool_decide (y = x) then Some 0 else S <$> indexOf x r
  end.

(** The first loop of [findColumnIndex]: the aliases in their order, each
    looked up among the headers. *)
Fixpoint exactMatch (aliases lowerHeaders : list jsstring) : option nat :=
  match aliases with
  | [] => None
  | alias :: rest =>
    match indexOf alias lowerHeaders with
    | Some index => Some index
    | None => exactMatch rest lowerHeaders
    end
  end.

(** The test of the partial match. *)
Definition partialMatch (aliases : list jsstring) (lowerHeader : jsstring)
    : bool :=
  existsb (λ alias, includes alias lowerHeader || includes lowerHeader alias)
          aliases.

(** The second loop of [findColumnIndex]: the headers in their order, from
    position [i] on. *)
Fixpoint firstPartialMatch (aliases : list jsstring) (i : nat)
    (lowerHeaders : list jsstring) : option nat :=
  match lowerHeaders with
  | [] => None
  | h :: rest =>
    if partialMatch aliases h then Some i
    else firstPartialMatch aliases (S i) rest
  end.

(** [findColumnIndex] of csv-parser.ts; [None] is -1. *)
Definition findColumnIndex `{RT : Runtime} (headers : list jsstring)
    (field : jsstring) : option nat :=
  let aliases := aliasesOf field in
  let lowerHeaders := (λ h, trim (String_toLowerCase h)) <$> headers in
  match exactMatch aliases lowerHeaders with
  | Some index => Some index
  | None => firstPartialMatch aliases 0 lowerHeaders
  end.

(** [findColumnKey] of excel-parser.ts; [None] is null. *)
Fixpoint findColumnKeyIn `{RT : Runtime} (aliases headers : list jsstring)
    : option jsstring :=
  match headers with
  | [] => None
  | header :: rest =>
    let lowerHeader := trim (String_toLowerCase header) in
    if existsb (λ alias,
                  bool_decide (lowerHeader = alias)
                  || includes alias lowerHeader || includes lowerHeader alias)
               aliases
    then Some header
    else findColumnKeyIn aliases rest
  end.

Definition findColumnKey `{RT : Runtime} (headers : list jsstring)
    (field : jsstring) : option jsstring :=
  findColumnKeyIn (aliasesOf field) headers.

(** What [Papa.parse] returns with [header: false] and
    [dynamicTyping: false]: the rows of cells, all strings, and the
    number of errors. *)
Record PapaResult := {
  papa_data : list (list jsstring);
  papa_errors : nat;
}.

Class Papa := {
  Papa_parse : jsstring → PapaResult;
}.

Record ParseResult := {
  result_transactions : list Transaction;
  result_warnings : list jsstring;
}.

(** The test of a row that looks like headers. *)
Definition looksLikeHeaders `{RT : Runtime} (row : list jsstring) : bool :=
  let potentialHeaders := (λ cell, trim (String_toLowerCase cell)) <$> row in
  existsb (λ h, includes (js "date") h || includes (js "description") h
                || includes (js "narration") h || includes (js "debit") h
                || includes (js "credit") h || includes (js "amount") h)
          potentialHeaders.

(** The search for the header row among the rows given, from index [i]
    on: the index and the trimmed cells of the first row that looks like
    headers. *)
Fixpoint detectHeaders `{RT : Runtime} (i : nat) (rows : list (list jsstring))
    : option (nat * list jsstring) :=
  match rows with
  | [] => None
  | row :: rest =>
    if looksLikeHeaders row then Some (i, trim <$> row)
    else detectHeaders (S i) rest
  end.

(** The eight column indices. *)
Record Columns := {
  dateIdx : option nat;
  descIdx : option nat;
  refIdx : option nat;
  debitIdx : option nat;
  creditIdx : option nat;
  amountIdx : option nat;
  typeIdx : option nat;
  balanceIdx : option nat;
}.

Definition columnsOf `{RT : Runtime} (headers : list jsstring) : Columns :=
  {| dateIdx := findColumnIndex headers (js "date");
     descIdx := findColumnIndex headers (js "description");
     refIdx := findColumnIndex headers (js "reference");
     debitIdx := findColumnIndex headers (js "debit");
     creditIdx := findColumnIndex headers (js "credit");
     amountIdx := findColumnIndex headers (js "amount");
     typeIdx := findColumnIndex headers (js "type");
     balanceIdx := findColumnIndex headers (js "balance") |}.

(** [row[idx]]: undefined at -1 and past the end of the row. *)
Definition cell (row : list jsstring) (idx : option nat) : option jsstring :=
  i ← idx; row !! i.

(** [/\d{4}-\d{2}-\d{2}/.test(s)]: the pattern at some position. *)
Fixpoint testIsoDate (s : jsstring) : bool :=
  matchClasses isoPattern (take 10 s)
  || match s with
     | [] => false
     | _ :: r => testIsoDate r
     end.

(** [x === 0] *)
Definition isZero (x : Num) : bool :=
  match x with
  | Fin q => (Qnum q =? 0)%Z
  | _ => false
  end.

(** The body of the loop over the data rows: the transaction pushed for a
    row, or [None] where the loop continues without one; [issued] is the
    number of identifiers handed out before. *)
Definition parseRow `{RT : Runtime} (cols : Columns) (row : list jsstring)
    (issued : nat) : option Transaction :=
  if length row =? 0 then None else
  let dateValue := orEmpty (cell row (dateIdx cols)) in
  if bool_decide (dateValue = [])
     || includes (js "total") (String_toLowerCase dateValue)
     || includes (js "balance") (String_toLowerCase dateValue) then None else
  let date := parseDate dateValue in
  if bool_decide (date = []) || negb (testIsoDate date) then None else
  let description :=
    match descIdx cols with
    | Some _ => cleanDescription (orEmpty (cell row (descIdx cols)))
    | None => []
    end in
  let reference :=
    match refIdx cols with
    | Some _ => trim (orEmpty (cell row (refIdx cols)))
    | None => []
    end in
  let balance :=
    match balanceIdx cols with
    | Some _ =>
      Some (parseAmount (AString (orEmpty (cell row (balanceIdx cols)))))
    | None => None
    end in
  let '(debit, credit) :=
    match debitIdx cols, creditIdx cols with
    | Some _, Some _ =>
      (parseAmount (AString (orEmpty (cell row (debitIdx cols)))),
       parseAmount (AString (orEmpty (cell row (creditIdx cols)))))
    | _, _ =>
      match amountIdx cols with
      | Some _ =>
        let amount := orEmpty (cell row (amountIdx cols)) in
        let type :=
          match typeIdx cols with
          | Some _ => cell row (typeIdx cols)
          | None => Some []
          end in
        let result := determineDebitCredit (AString amount) type in
        (dc_debit result, dc_credit result)
      | None => (zero, zero)
      end
    end in
  if isZero debit && isZero credit then None else
  Some {| tx_id := uuidv4 issued;
          tx_date := date;
          tx_description := description;
          tx_reference := Some reference;
          tx_debit := debit;
          tx_credit := credit;
          tx_balance := balance;
          tx_currency := js "INR";
          tx_bankName := JUndefined |}.

(** The loop over the data rows. *)
Fixpoint parseRows `{RT : Runtime} (cols : Columns)
    (rows : list (list jsstring)) (issued : nat) : list Transaction :=
  match rows with
  | [] => []
  | row :: rest =>
    match parseRow cols row issued with
    | Some tx => tx :: parseRows cols rest (S issued)
    | None => parseRows cols rest issued
    end
  end.

(** [parseCSV] of csv-parser.ts; [issued] is the number of identifiers
    handed out before the call. *)
Definition parseCSV `{RT : Runtime} `{PP : Papa} (issued : nat)
    (content : jsstring) : ParseResult :=
  let result := Papa_parse content in
  let warnings :=
    if 0 <? papa_errors result
    then [js "CSV parsing had " ++ natStr (papa_errors result) ++ js " errors"]
    else [] in
  let rows := papa_data result in
  if length rows <? 2 then
    {| result_transactions := [];
       result_warnings := [js "No data rows found in CSV"] |}
  else
    let '(headerRowIndex, headers) :=
      default (0, []) (detectHeaders 0 (take (5 `min` length rows) rows)) in
    let '(headers, warnings) :=
      if length headers =? 0 then
        (trim <$> default [] (rows !! 0),
         warnings ++ [js "Could not detect headers, using first row"])
      else (headers, warnings) in
    let cols := columnsOf headers in
    let warnings :=
      warnings
      ++ match dateIdx cols with
         | Some _ => []
         | None => [js "Could not find date column"]
         end
      ++ match descIdx cols with
         | Some _ => []
         | None => [js "Could not find description column"]
         end in
    let transactions := parseRows cols (drop (headerRowIndex + 1) rows) issued in
    let warnings :=
      warnings
      ++ (if length transactions =? 0
          then [js "No valid transactions found in CSV"] else []) in
    {| result_transactions := transactions; result_warnings := warnings |}.

(** *** A reference runtime

    Concrete stand-ins for the built-ins, used to run the model on sample
    inputs.  They are exact on the inputs they are used with: ASCII text,
    numbers with a short decimal expansion, and the listed documents. *)

Definition asciiLower (s : jsstring) : jsstring :=
  (λ c, if ((65 <=? c) && (c <=? 90))%N then (c + 32)%N else c) <$> s.

Fixpoint fractionDigits (fuel : nat) (r d : N) : jsstring :=
  match fuel with
  | O => []
  | S fuel' =>
    if (r =? 0)%N then []
    else (48 + (r * 10) / d)%N :: fractionDigits fuel' ((r * 10) mod d)%N d
  end.

Definition shortDecimal (x : Num) : jsstring :=
  match x with
  | NaN => js "NaN"
  | Inf negative => if negative then js "-Infinity" else js "Infinity"
  | Fin q =>
    let n := Z.to_N (Z.abs (Qnum q)) in
    let d := Npos (Qden q) in
    (if (Qnum q <? 0)%Z then js "-" else [])
    ++ decimal (n / d)%N
    ++ (if (n mod d =? 0)%N then [] else js "." ++ fractionDigits 30 (n mod d)%N d)
  end.

Definition sampleDocument : jsstring :=
  js "{" ++ quote ++ js "transactions" ++ quote ++ js ": [], "
  ++ quote ++ js "bankName" ++ quote ++ js ": "
  ++ quote ++ js "HDFC" ++ quote ++ js "}".

Definition sampleDocuments : list (jsstring * JSValue) :=
  [ (js "{" ++ quote ++ js "transactions" ++ quote ++ js ": []}", emptyResult);
    (sampleDocument,
     JObject [(js "transactions", JArray []); (js "bankName", JString (js "HDFC"))]);
    (js "[]", JArray []);
    (js "null", JNull) ].

(** What [Date] makes of a text, in a runtime set to the UTC time zone. *)
Definition sampleDates : list (jsstring * jsstring) :=
  [ (js "5 Jan 2024", js "2024-01-05") ].

Definition tableLookup {A} (table : list (jsstring * A)) (k : jsstring) : option A :=
  snd <$> find (λ e, bool_decide (e.1 = k)) table.

Definition refRuntime : Runtime :=
  {| String_toLowerCase := asciiLower;
     Number_toString := shortDecimal;
     Date_toISODate := tableLookup sampleDates;
     JSON_parse := tableLookup sampleDocuments;
     uuidv4 := λ n, js "id-" ++ natStr n |}.

(** A service that answers every call with a quota error. *)
Definition quotaExceeded : Services :=
  {| processChunkWithGemini := λ _ _ _ _, Failed (js "429 Too Many Requests");
     extractPdfText := λ _, [];
     processWithGroq := λ _ _, Failed (js "429 Too Many Requests") |}.

(** A service that answers the n-th call with the n-th entry of a script
    and fails once the script is exhausted. *)
Definition scripted (script : list CallResult) : Services :=
  {| processChunkWithGemini :=
       λ n _ _ _, default (Failed (js "no answer")) (script !! n);
     extractPdfText := λ _, js "a page of statement text, long enough";
     processWithGroq :=
       λ n _, default (Failed (js "no answer")) (script !! n) |}.

(** Sample data. *)
Definition sampleTx (id description : string) (debit credit : Z) : Transaction :=
  {| tx_id := js id; tx_date := js "2024-06-15";
     tx_description := js description; tx_reference := None;
     tx_debit := ofZ debit; tx_credit := ofZ credit;
     tx_balance := None; tx_currency := js "INR";
     tx_bankName := JUndefined |}.


Definition sampleStatement : list Transaction :=
  [ sampleTx "a" "ATM Withdrawal" 5000 0;
    sampleTx "b" " atm withdrawal " 5000 0;
    sampleTx "c" "Salary" 0 90000 ].

(** Two transactions that differ in description, debit, credit and
    reference, and whose keys are the same text. *)
Definition barInReference : Transaction :=
  {| tx_id := js "p"; tx_date := js "2024-06-15";
     tx_description := js "x"; tx_reference := Some (js "7|8");
     tx_debit := ofZ 1; tx_credit := ofZ 0;
     tx_balance := None; tx_currency := js "INR";
     tx_bankName := JUndefined |}.

Definition barInDescription : Transaction :=
  {| tx_id := js "q"; tx_date := js "2024-06-15";
     tx_description := js "x|1"; tx_reference := Some (js "8");
     tx_debit := ofZ 0; tx_credit := ofZ 7;
     tx_balance := None; tx_currency := js "INR";
     tx_bankName := JUndefined |}.

(** *** Vocabulary of the statements *)

(** The date part of [toISOString] for a year outside 0..9999:
    a sign, six year digits, month and day. *)
Definition expandedYearPattern : list (N → bool) :=
  [(λ c, (c =? 43) || (c =? 45))%N;
   isDigit; isDigit; isDigit; isDigit; isDigit; isDigit; isDash;
   isDigit; isDigit; isDash; isDigit; isDigit].

(** One or two decimal digits. *)
Definition oneOrTwoDigits (s : jsstring) : bool :=
  ((length s =? 1) || (length s =? 2)) && forallb isDigit s.

(** [n] decimal digits. *)
Definition nDigits (n : nat) (s : jsstring) : bool :=
  (length s =? n) && forallb isDigit s.

(** The body of [parseDate] after the emptiness test, as a function of the
    trimmed text. *)
Definition parseCleaned `{RT : Runtime} (cleaned : jsstring) : jsstring :=
  if matchClasses isoPattern cleaned then cleaned else
  match matchDayMonthYear isSep3 4 cleaned with
  | Some (day, month, year) =>
    year ++ [45%N] ++ padStart 2 48 month ++ [45%N] ++ padStart 2 48 day
  | None =>
    match matchDayMonthYear isSep2 2 cleaned with
    | Some (day, month, year) =>
      let fullYear :=
        if (50 <? parseInt year)%N then js "19" ++ year else js "20" ++ year in
      fullYear ++ [45%N] ++ padStart 2 48 month ++ [45%N] ++ padStart 2 48 day
    | None =>
      match Date_toISODate cleaned with
      | Some iso => iso
      | None => cleaned
      end
    end
  end.

(** An optional sign. *)
Definition isSignText (s : jsstring) : bool :=
  match s with
  | [] => true
  | [c] => ((c =? 45) || (c =? 43))%N
  | _ => false
  end.

(** Whether an optional sign is a minus. *)
Definition isMinus (sign : jsstring) : bool :=
  match sign with
  | [c] => (c =? 45)%N
  | _ => false
  end.

(** Nothing, or a decimal point followed by digits. *)
Definition isFractionText (s : jsstring) : bool :=
  match s with
  | [] => true
  | c :: digits => (c =? 46)%N && forallb isDigit digits
  end.

(** Nothing, or Dr / Cr in any case, with or without a full stop. *)
Definition isDrCrSuffix (s : jsstring) : bool :=
  match s with
  | [] => true
  | [dc; r] => (isLetter 100 dc || isLetter 99 dc) && isLetter 114 r
  | [dc; r; stop] =>
    (isLetter 100 dc || isLetter 99 dc) && isLetter 114 r && (stop =? 46)%N
  | _ => false
  end.

(** Whether the text [rest] that follows a numeral with the fraction
    part [frac] changes what [parseFloat] reads: it starts with a digit,
    with a decimal point when the numeral has none, or with an exponent
    other than zero. *)
Definition continuesNumeral (frac rest : jsstring) : bool :=
  match rest with
  | [] => false
  | c :: _ =>
    isDigit c
    || ((c =? 46)%N && bool_decide (frac = []))
    || negb (exponentOf rest =? 0)%Z
  end.



(** A monetary amount as the transaction schema admits it: finite, not
    negative, and below the 10^21 from which [toFixed] prints exponents. *)
Definition isMoney (x : Num) : bool :=
  match x with
  | Fin q => (0 <=? Qnum q)%Z && negb (Qle_bool (inject_Z (10 ^ 21)) (Qabs q))
  | _ => false
  end.

(** The amount in cents, rounded half up, as [toFixed(2)] prints it. *)
Definition roundedCents (x : Num) : Z :=
  match x with
  | Fin q => Qfloor (Qabs q * inject_Z 100 + (1 # 2))
  | _ => 0%Z
  end.



(** The progress event and the pause of the rate-limit branch. *)
Definition rateLimitNotice (i total : nat) : list Action :=
  [Enqueue (EvProgress (js "Rate limited. Waiting 32s...") (i + 1) total);
   Sleep 32000].

(** Characters that survive both removals. *)
Definition plain (c : N) : bool :=
  negb (isCurrencyOrSpace c) && negb (isComma c).

(** The ids of the transactions of [l] whose key is [k], in order. *)
Definition idsWithKey `{RT : Runtime} (k : jsstring) (l : list Transaction)
    : list jsstring :=
  tx_id <$> filter (λ tx, getDuplicateKey tx = k) l.

(** The texts that the recoverer of the image route hands to
    [JSON.parse]: the object found in the fenced or full text, else the
    array found there, else that text itself; and, where the first parse
    is guarded by a [catch], the transactions field found in the
    response. *)
Definition imageCandidates (responseText : jsstring) : list jsstring :=
  let jsonStr :=
    match matchFence responseText with
    | Some inner => trim inner
    | None => responseText
    end in
  let fallback :=
    match ImageRoute.matchTransactionsField responseText with
    | Some fallbackMatch => [fallbackMatch]
    | None => []
    end in
  match matchSpan 123 125 jsonStr with
  | Some objectMatch => objectMatch :: fallback
  | None =>
    match matchSpan 91 93 jsonStr with
    | Some arrayMatch => [arrayMatch]
    | None => jsonStr :: fallback
    end
  end.

(** Two transactions that agree on the five fields joined by
    [getDuplicateKey]: the date, the description in lower case and
    trimmed, the debit and the credit as a template literal prints them,
    and the reference, an absent one counting as empty. *)
Definition sameFields `{RT : Runtime} (a b : Transaction) : Prop :=
  tx_date a = tx_date b
  ∧ trim (String_toLowerCase (tx_description a))
    = trim (String_toLowerCase (tx_description b))
  ∧ Number_toString (tx_debit a) = Number_toString (tx_debit b)
  ∧ Number_toString (tx_credit a) = Number_toString (tx_credit b)
  ∧ orEmpty (tx_reference a) = orEmpty (tx_reference b).

(** No vertical bar in the parts of the key that stand before the
    reference. *)
Definition barFree `{RT : Runtime} (tx : Transaction) : Prop :=
  (124%N ∉ tx_date tx)
  ∧ (124%N ∉ trim (String_toLowerCase (tx_description tx)))
  ∧ (124%N ∉ Number_toString (tx_debit tx))
  ∧ (124%N ∉ Number_toString (tx_credit tx)).

(** What the loop has computed after the transactions of [l]. *)
Definition loopInvariant `{RT : Runtime} (l : list Transaction)
    (st : gmap jsstring (list jsstring) * gset jsstring) : Prop :=
  (∀ k, default [] (st.1 !! k) = idsWithKey k l)
  ∧ (∀ x, x ∈ st.2 ↔
          ∃ tx, tx ∈ l ∧ tx_id tx = x
              ∧ 2 ≤ length (idsWithKey (getDuplicateKey tx) l)).









(** What the five replacements of [escapeXml] make of one character. *)
Definition escapeChar (c : N) : jsstring :=
  if (c =? 38)%N then js "&amp;"
  else if (c =? 60)%N then js "&lt;"
  else if (c =? 62)%N then js "&gt;"
  else if (c =? 34)%N then js "&quot;"
  else if (c =? 39)%N then js "&apos;"
  else [c].

(** The characters that [escapeXml] replaces. *)
Definition isXmlSpecial (c : N) : bool :=
  existsb (N.eqb c) [38; 60; 62; 34; 39]%N.

(** What follows the ampersand in the five entities. *)
Definition entityNames : list jsstring :=
  [js "amp;"; js "lt;"; js "gt;"; js "quot;"; js "apos;"].

(** A rule one of whose keywords occurs in the description, both taken in
    lower case. *)
Definition ruleMatches `{RT : Runtime} (tx : Transaction) (rule : LedgerRule)
    : Prop :=
  ∃ keyword, keyword ∈ keywords rule
    ∧ includes (String_toLowerCase keyword)
               (String_toLowerCase (tx_description tx)) = true.


(** A reader of a quoted CSV field (RFC 4180): after the opening quote, a
    doubled quote stands for a quote and a single one ends the field.
    The result is the content and the text after the closing quote. *)
Fixpoint readQuoted (s : jsstring) : option (jsstring * jsstring) :=
  match s with
  | [] => None
  | c :: r =>
    if (c =? 34)%N then
      match r with
      | c' :: r' =>
        if (c' =? 34)%N
        then '(content, rest) ← readQuoted r'; Some (34%N :: content, rest)
        else Some ([], r)
      | [] => Some ([], [])
      end
    else '(content, rest) ← readQuoted r; Some (c :: content, rest)
  end.

Definition readQuotedField (s : jsstring) : option (jsstring * jsstring) :=
  match s with
  | c :: r => if (c =? 34)%N then readQuoted r else None
  | [] => None
  end.

(** What the transaction schema asks of the fields that the handler
    computes: the currency, and amounts that are numbers and not
    negative. *)
Definition amountInRange (x : Num) : Prop := lt0 x = false ∧ isNaN x = false.

Definition wellFormed (tx : Transaction) : Prop :=
  tx_currency tx = js "INR"
  ∧ amountInRange (tx_debit tx) ∧ amountInRange (tx_credit tx)
  ∧ (∀ balance, tx_balance tx = Some balance → amountInRange balance)
  ∧ ∃ reference, tx_reference tx = Some reference.

(** The progress event and the pause between two chunks. *)
Definition pacingNotice (apiProvider : jsstring) (i total : nat) : list Action :=
  if S i <? total then
    let delay := (if isGemini apiProvider then 2000 else 5000)%N in
    [Enqueue (EvProgress
       (js "Waiting " ++ decimal (delay / 1000) ++ js "s for rate limit...")
       (i + 1) total);
     Sleep delay]
  else [].

(** The transactions of the "transactions" events of a stream, in order. *)
Definition emittedTransactions (out : list Action) : list Transaction :=
  out ≫= (λ a, match a with
                | Enqueue (EvTransactions data) => data
                | _ => []
                end).

Definition isTransactionsEvent (a : Action) : bool :=
  match a with Enqueue (EvTransactions _) => true | _ => false end.

(** The events that end a stream. *)
Definition isTerminal (event : StreamEvent) : bool :=
  match event with EvComplete _ _ | EvError _ => true | _ => false end.

(** What a stream holds before its terminal event. *)
Definition isBodyAction (a : Action) : bool :=
  match a with
  | Enqueue event => negb (isTerminal event)
  | Sleep _ => true
  | Close => false
  end.

(** What may stand in a stream before its terminal event, and what a
    "transactions" event there holds. *)
Definition streamedWell (a : Action) : Prop :=
  match a with
  | Enqueue (EvProgress _ _ _) | Sleep _ => True
  | Enqueue (EvTransactions data) => data ≠ [] ∧ Forall wellFormed data
  | _ => False
  end.

(** The later state has the output of the earlier one and then actions
    that satisfy [P]. *)
Definition extends (P : Action → Prop) (st st' : State) : Prop :=
  ∃ new, output st' = output st ++ new ∧ Forall P new.

(** The identifiers of the transactions sent so far are identifiers
    handed out so far, in the order in which they were handed out. *)
Definition idsInOrder `{RT : Runtime} (st : State) : Prop :=
  ∃ ks, tx_id <$> emittedTransactions (output st) = uuidv4 <$> ks
      ∧ ks `sublist_of` seq 0 (idsIssued st).

(** The warning recorded for a chunk that is given up. *)
Definition skipWarning (i : nat) (errorMsg : jsstring) : jsstring :=
  js "Skipped chunk " ++ natStr (i + 1) ++ js " due to errors: " ++ errorMsg.

(** The number of "transactions" events among some actions. *)
Definition countTransactionsEvents (out : list Action) : nat :=
  length (filter (λ a, isTransactionsEvent a = true) out).

(** The document that stands for a chunk with too little text. *)
Definition emptyDocument : jsstring :=
  js "{" ++ quote ++ js "transactions" ++ quote ++ js ": []}".

(** A header, in lower case and trimmed, that one of the aliases is part
    of or is part of one of the aliases. *)
Definition matchesAlias `{RT : Runtime} (aliases : list jsstring)
    (header : jsstring) : Prop :=
  partialMatch aliases (trim (String_toLowerCase header)) = true.

(** *** Further sample inputs *)

(** A reply with two transactions, and what [JSON.parse] makes of it. *)
Definition sampleReply : jsstring :=
  js "{" ++ quote ++ js "transactions" ++ quote ++ js ": [{"
  ++ quote ++ js "date" ++ quote ++ js ": "
  ++ quote ++ js "15/06/2024" ++ quote ++ js ", "
  ++ quote ++ js "narration" ++ quote ++ js ": "
  ++ quote ++ js "ATM WDL" ++ quote ++ js ", "
  ++ quote ++ js "debit" ++ quote ++ js ": 5000}, {"
  ++ quote ++ js "date" ++ quote ++ js ": "
  ++ quote ++ js "16/06/2024" ++ quote ++ js ", "
  ++ quote ++ js "narration" ++ quote ++ js ": "
  ++ quote ++ js "NEFT CR" ++ quote ++ js ", "
  ++ quote ++ js "credit" ++ quote ++ js ": 250.5}], "
  ++ quote ++ js "bankName" ++ quote ++ js ": "
  ++ quote ++ js "SBI" ++ quote ++ js "}".

Definition sampleReplyValue : JSValue :=
  JObject
    [(js "transactions",
      JArray
        [JObject [(js "date", JString (js "15/06/2024"));
                  (js "narration", JString (js "ATM WDL"));
                  (js "debit", JNumber (ofZ 5000))];
         JObject [(js "date", JString (js "16/06/2024"));
                  (js "narration", JString (js "NEFT CR"));
                  (js "credit", JNumber (Fin (scale10 2505 (-1))))]]);
     (js "bankName", JString (js "SBI"))].

Definition replyRuntime : Runtime :=
  {| String_toLowerCase := asciiLower;
     Number_toString := shortDecimal;
     Date_toISODate := tableLookup sampleDates;
     JSON_parse := tableLookup ((sampleReply, sampleReplyValue) :: sampleDocuments);
     uuidv4 := λ n, js "id-" ++ natStr n |}.

(** A vision service that reads the sample reply off every image with
    Gemini and has no quota left with Groq. *)
Definition sampleVision : ImageHandler.Vision :=
  {| ImageHandler.processWithGemini := λ _ _ _ _, Returned sampleReply;
     ImageHandler.processWithGroqVision :=
       λ _ _ _ _, Failed (js "429 Too Many Requests") |}.

Definition sampleImage : ImageHandler.ImageFile :=
  {| ImageHandler.base64Data := js "aGVsbG8="; ImageHandler.fileType := [] |}.

Definition noKeys : Env := {| GEMINI_API_KEY := None; GROQ_API_KEY := None |}.

Definition sampleImageRequest (apiProvider : string) : ImageHandler.Request :=
  {| ImageHandler.req_file := Some sampleImage;
     ImageHandler.req_apiProvider := Some (js apiProvider);
     ImageHandler.req_apiKey := Some (js "key");
     ImageHandler.req_modelId := Some (js "model") |}.

(* ===================================================================== *)
(** ** Part II. Theorems                                                  *)
(* ===================================================================== *)

Section Chunker.

Lemma splitLoop_spec (N k : nat) :
  1 ≤ k →
  ∀ fuel start acc,
    N - start < fuel →
    ∃ cs, splitLoop fuel N k start acc = Some (acc ++ cs)
        ∧ length cs = ceil_div (N - start) k
        ∧ (∀ i, i < length cs →
             cs !! i = Some (seq (start + i * k) (k `min` (N - (start + i * k)))))
        ∧ concat cs = seq start (N - start).
Proof.
  intros Hk fuel. induction fuel as [|fuel IH]; intros start acc Hf; [lia|].
  cbn [splitLoop].
  destruct (Nat.ltb_spec start N) as [Hlt|Hge]; last first.
  { exists []. rewrite app_nil_r. replace (N - start) with 0 by lia.
    split; [done|]. split.
    { unfold ceil_div. simpl. symmetry. apply Nat.div_small. lia. }
    split; [simpl; lia|done]. }
  destruct (Nat.leb_spec N start) as [?|_]; [lia|]. rewrite andb_false_r.
  destruct (Nat.ltb_spec N (start + k)) as [Hover|Hfit].
  - (* the last, short chunk *)
    rewrite Nat.eqb_refl.
    exists [seq start (N - start)]. split; [done|]. split.
    { unfold ceil_div. simpl.
      replace (N - start + k - 1) with (1 * k + (N - start - 1)) by lia.
      rewrite Nat.div_add_l by lia. rewrite Nat.div_small; lia. }
    split.
    { intros i Hi. simpl in Hi. assert (i = 0) as -> by lia. simpl.
      rewrite Nat.add_0_r. f_equal. f_equal. lia. }
    simpl. by rewrite app_nil_r.
  - destruct (Nat.eqb_spec (start + k) N) as [Heq|Hne].
    + (* the last chunk is full *)
      exists [seq start (start + k - start)]. split; [done|]. split.
      { unfold ceil_div. simpl.
        replace (N - start + k - 1) with (1 * k + (k - 1)) by lia.
        rewrite Nat.div_add_l by lia. rewrite Nat.div_small; lia. }
      split.
      { intros i Hi. simpl in Hi. assert (i = 0) as -> by lia. simpl.
        rewrite Nat.add_0_r. f_equal. f_equal. lia. }
      simpl. rewrite app_nil_r. f_equal. lia.
    + destruct (IH (start + k) (acc ++ [seq start (start + k - start)]))
        as (cs & Hrun & Hlen & Hith & Hcat); [lia|].
      exists (seq start (start + k - start) :: cs). split.
      { rewrite Hrun. by rewrite <- app_assoc. }
      split.
      { simpl. rewrite Hlen. unfold ceil_div.
        replace (N - start + k - 1) with (1 * k + (N - (start + k) + k - 1)) by lia.
        rewrite Nat.div_add_l by lia. lia. }
      split.
      { intros [|i] Hi; simpl in *.
        - rewrite Nat.add_0_r. f_equal. f_equal. lia.
        - rewrite Hith by lia. f_equal. f_equal; [lia|]. f_equal. lia. }
      simpl. rewrite Hcat.
      replace (start + k - start) with k by lia.
      replace (N - start) with (k + (N - (start + k))) by lia.
      by rewrite seq_app.
Qed.

(** The chunker returns: totalPages + 1 checks of the loop condition are
    enough. *)
Lemma splitPdfIntoChunks_returns (N k : nat) :
  1 ≤ k → ∃ chunks, splitPdfIntoChunks N k = Some chunks.
Proof.
  intros Hk. unfold splitPdfIntoChunks.
  destruct (splitLoop_spec N k Hk (S N) 0 []) as (cs & Hrun & _); [lia|].
  eauto.
Qed.

(** C3. For every page count N and chunk size k >= 1 the chunker returns
    ceil(N/k) chunks; chunk i holds exactly the pages
    [i*k, min((i+1)*k, N)), so the chunks, read in order, enumerate
    [0,N) with no overlap and no gap; every chunk but the last has k
    pages, the last one is non-empty and may be shorter; N = 0 gives the
    empty sequence. *)
Theorem chunker_partitions_pages (N k : nat) :
  1 ≤ k →
  ∃ chunks,
    splitPdfIntoChunks N k = Some chunks
    ∧ length chunks = ceil_div N k
    ∧ (∀ i, i < length chunks →
         chunks !! i = Some (seq (i * k) (k `min` (N - i * k))))
    ∧ concat chunks = seq 0 N
    ∧ (∀ i c, chunks !! i = Some c → 1 ≤ length c ≤ k)
    ∧ (∀ i c, chunks !! i = Some c → S i < length chunks → length c = k)
    ∧ (N = 0 → chunks = []).
Proof.
  intros Hk. unfold splitPdfIntoChunks.
  destruct (splitLoop_spec N k Hk (S N) 0 []) as (cs & Hrun & Hlen & Hith & Hcat);
    [lia|].
  rewrite Nat.sub_0_r in *. simpl in Hrun.
  assert (Hbound : ∀ i, i < length cs → i * k < N).
  { intros i Hi. rewrite Hlen in Hi. unfold ceil_div in Hi.
    destruct (Nat.lt_ge_cases (i * k) N) as [|Hge]; [done|]. exfalso.
    assert ((N + k - 1) / k < S i); [|lia].
    apply Nat.Div0.div_lt_upper_bound. nia. }
  exists cs. split; [done|]. split; [done|]. split; [exact Hith|].
  split; [done|]. split; [|split].
  - intros i c Hc. pose proof (lookup_lt_Some _ _ _ Hc) as Hi.
    rewrite Hith in Hc by done. injection Hc as <-. rewrite length_seq.
    specialize (Hbound i Hi). lia.
  - intros i c Hc Hnext. pose proof (lookup_lt_Some _ _ _ Hc) as Hi.
    rewrite Hith in Hc by done. injection Hc as <-. rewrite length_seq.
    specialize (Hbound (S i) Hnext). lia.
  - intros ->. destruct cs; [done|]. simpl in Hlen.
    unfold ceil_div in Hlen. rewrite Nat.div_small in Hlen; lia.
Qed.

End Chunker.

(** *** Normalizer: debit/credit assignment *)

Section DebitCredit.
Context `{RT : Runtime}.

(** C10. For every amount (string or number) and every optional type
    hint, determineDebitCredit puts parseAmount of the input on one side
    and zero on the other: the two sides are never both non-zero. *)
Theorem determineDebitCredit_one_sided (amountStr : Amount)
    (typeHint : option jsstring) :
  let r := determineDebitCredit amountStr typeHint in
  (dc_debit r = parseAmount amountStr ∧ dc_credit r = zero)
  ∨ (dc_debit r = zero ∧ dc_credit r = parseAmount amountStr).
Proof.
  unfold determineDebitCredit.
  repeat match goal with |- context [if ?b then _ else _] => destruct b end;
    simpl; auto.
Qed.

End DebitCredit.

(** *** Normalizer: dates *)

Section Strings.

Lemma isDigit_range c : isDigit c = true ↔ (48 ≤ c ≤ 57)%N.
Proof. unfold isDigit. rewrite andb_true_iff, !N.leb_le. done. Qed.

Lemma isDigit_not_space c : isDigit c = true → isSpace c = false.
Proof.
  rewrite isDigit_range. intros Hc. unfold isSpace. simpl.
  repeat match goal with
  | |- context [(c =? ?k)%N] =>
      destruct (N.eqb_spec c k); [lia|]
  end.
  simpl. destruct (N.leb_spec 8192 c); [lia|done].
Qed.

Lemma dropWhile_all p s : forallb p s = true → dropWhile p s = [].
Proof.
  induction s as [|c s IH]; simpl; [done|].
  destruct (p c); simpl; [done|discriminate].
Qed.

Lemma takeWhile_all p s : forallb p s = true → takeWhile p s = s.
Proof.
  induction s as [|c s IH]; simpl; [done|].
  destruct (p c); simpl; [|discriminate]. intros. by rewrite IH.
Qed.

Lemma takeWhile_dropWhile p s : takeWhile p s ++ dropWhile p s = s.
Proof.
  induction s as [|c s IH]; simpl; [done|].
  destruct (p c); simpl; [by rewrite IH|done].
Qed.

Lemma takeWhile_forallb p s : forallb p (takeWhile p s) = true.
Proof.
  induction s as [|c s IH]; simpl; [done|].
  destruct (p c) eqn:E; simpl; [by rewrite E|done].
Qed.

Lemma dropWhile_head p s c r : dropWhile p s = c :: r → p c = false.
Proof.
  induction s as [|x s IH]; simpl; [done|].
  destruct (p x) eqn:E; [done|]. by intros [= <- <-].
Qed.

Lemma dropWhile_idemp p s : dropWhile p (dropWhile p s) = dropWhile p s.
Proof.
  destruct (dropWhile p s) as [|c r] eqn:E; [done|].
  simpl. by rewrite (dropWhile_head _ _ _ _ E).
Qed.

Lemma trimStart_head c s : isSpace c = false → trimStart (c :: s) = c :: s.
Proof. unfold trimStart. simpl. by intros ->. Qed.

Lemma trimEnd_last s c : isSpace c = false → trimEnd (s ++ [c]) = s ++ [c].
Proof.
  intros Hc. unfold trimEnd. rewrite reverse_snoc. simpl. rewrite Hc.
  by rewrite <- reverse_snoc, reverse_involutive.
Qed.

(** A string that neither starts nor ends with white space is its own trim. *)
Lemma trim_fixed s :
  head s ≫= (λ c, Some (isSpace c)) ≠ Some true →
  last s ≫= (λ c, Some (isSpace c)) ≠ Some true →
  trim s = s.
Proof.
  intros Hh Hl. unfold trim.
  destruct s as [|c s]; [done|]. simpl in Hh.
  rewrite trimStart_head by (by destruct (isSpace c)).
  destruct (decide (c :: s = [])) as [|Hne]; [done|].
  destruct (exists_last Hne) as (s' & d & Hs). rewrite Hs in *.
  rewrite last_snoc in Hl. simpl in Hl.
  apply trimEnd_last. by destruct (isSpace d).
Qed.

Lemma trimEnd_spec s :
  ∃ t, s = trimEnd s ++ t ∧ forallb isSpace t = true
     ∧ last (trimEnd s) ≫= (λ c, Some (isSpace c)) ≠ Some true.
Proof.
  unfold trimEnd.
  exists (reverse (takeWhile isSpace (reverse s))). split; [|split].
  - rewrite <- reverse_app, takeWhile_dropWhile. by rewrite reverse_involutive.
  - pose proof (takeWhile_forallb isSpace (reverse s)) as H.
    rewrite forallb_forall in *. intros x Hx. apply H.
    apply list_elem_of_In. apply list_elem_of_In in Hx.
    by rewrite elem_of_reverse in Hx.
  - destruct (dropWhile isSpace (reverse s)) as [|c r] eqn:E; [done|].
    rewrite reverse_cons, last_snoc. simpl.
    rewrite (dropWhile_head _ _ _ _ E). done.
Qed.

Lemma trim_ends s :
  head (trim s) ≫= (λ c, Some (isSpace c)) ≠ Some true
  ∧ last (trim s) ≫= (λ c, Some (isSpace c)) ≠ Some true.
Proof.
  unfold trim. destruct (trimEnd_spec (trimStart s)) as (t & Hs & _ & Hlast).
  split; [|done].
  destruct (trimEnd (trimStart s)) as [|c r] eqn:E; [done|]. simpl.
  unfold trimStart in Hs. rewrite <- app_comm_cons in Hs.
  rewrite (dropWhile_head _ _ _ _ Hs). done.
Qed.

Lemma trim_idemp s : trim (trim s) = trim s.
Proof. destruct (trim_ends s). by apply trim_fixed. Qed.

End Strings.

Section Dates.
Context `{RT : Runtime}.

Lemma parseDate_unfold d :
  parseDate d = match d with [] => [] | _ => parseCleaned (trim d) end.
Proof. by destruct d. Qed.

Ltac split_bools :=
  repeat match goal with
  | H : _ && _ = true |- _ => apply andb_true_iff in H; destruct H
  | H : (_ =? _)%nat = true |- _ => apply Nat.eqb_eq in H
  | H : (_ =? _)%N = true |- _ => apply N.eqb_eq in H
  | H : true = true |- _ => clear H
  end.

Ltac use_digits :=
  repeat match goal with
  | H : isDigit ?c = _ |- context [isDigit ?c] => rewrite H
  end; simpl; rewrite ?andb_false_r; try done.

Lemma digits12_inv s d r :
  digits12 s = Some (d, r) →
  s = d ++ r ∧ oneOrTwoDigits d = true.
Proof.
  unfold oneOrTwoDigits.
  destruct s as [|a [|b s]]; simpl; [done| |].
  - destruct (isDigit a) eqn:Ea; [|done]. intros [= <- <-]. simpl.
    by rewrite Ea.
  - destruct (isDigit a) eqn:Ea, (isDigit b) eqn:Eb; simpl;
      intros [= <- <-]; simpl; by rewrite ?Ea, ?Eb.
Qed.

Lemma digits12_spec d c rest :
  oneOrTwoDigits d = true → isDigit c = false →
  digits12 (d ++ c :: rest) = Some (d, c :: rest).
Proof.
  unfold oneOrTwoDigits. intros Hd Hc.
  destruct d as [|a [|b [|]]]; simpl in *; try done; split_bools; use_digits.
Qed.

Lemma matchDayMonthYear_inv isSep n s day month year :
  matchDayMonthYear isSep n s = Some (day, month, year) →
  ∃ c1 c2, s = day ++ c1 :: month ++ c2 :: year
         ∧ isSep c1 = true ∧ isSep c2 = true
         ∧ oneOrTwoDigits day = true ∧ oneOrTwoDigits month = true
         ∧ nDigits n year = true.
Proof.
  unfold matchDayMonthYear, nDigits.
  destruct (digits12 s) as [[d r]|] eqn:Ed; simpl; [|done].
  destruct r as [|c1 r]; [done|].
  destruct (isSep c1) eqn:E1; [|done].
  destruct (digits12 r) as [[m r']|] eqn:Em; simpl; [|done].
  destruct r' as [|c2 y]; [done|].
  destruct (isSep c2 && (length y =? n) && forallb isDigit y) eqn:E2; [|done].
  intros [= <- <- <-].
  apply digits12_inv in Ed as [-> Hd]. apply digits12_inv in Em as [-> Hm].
  exists c1, c2. split_bools. subst n. rewrite Nat.eqb_refl. simpl. auto 10.
Qed.

Lemma matchDayMonthYear_spec isSep n day month year c1 c2 :
  oneOrTwoDigits day = true → oneOrTwoDigits month = true →
  isSep c1 = true → isSep c2 = true →
  isDigit c1 = false → isDigit c2 = false →
  forallb isDigit year = true →
  matchDayMonthYear isSep n (day ++ c1 :: month ++ c2 :: year)
  = if length year =? n then Some (day, month, year) else None.
Proof.
  intros Hd Hm H1 H2 Hc1 Hc2 Hy. unfold matchDayMonthYear.
  rewrite digits12_spec by done. simpl. rewrite H1.
  rewrite digits12_spec by done. simpl. rewrite H2, Hy. simpl.
  rewrite andb_true_r. done.
Qed.

Lemma isSep3_not_digit c : isSep3 c = true → isDigit c = false.
Proof.
  unfold isSep3, isDigit. intros H.
  repeat (apply orb_true_iff in H as [H|H]); apply N.eqb_eq in H; by subst.
Qed.

Lemma isSep2_isSep3 c : isSep2 c = true → isSep3 c = true.
Proof. unfold isSep2, isSep3. intros ->. done. Qed.

Lemma isSep2_not_digit c : isSep2 c = true → isDigit c = false.
Proof. intros. by apply isSep3_not_digit, isSep2_isSep3. Qed.

(** A text that starts with one or two digits and a non-digit is not in
    ISO form. *)
Lemma iso_rejects d c rest :
  oneOrTwoDigits d = true → isDigit c = false →
  matchClasses isoPattern (d ++ c :: rest) = false.
Proof.
  unfold oneOrTwoDigits. intros Hd Hc.
  destruct d as [|a [|b [|]]]; simpl in *; try done; split_bools; use_digits.
Qed.

Lemma digits_ends_fixed d c rest y :
  oneOrTwoDigits d = true → isDigit y = true →
  trim (d ++ c :: rest ++ [y]) = d ++ c :: rest ++ [y].
Proof.
  unfold oneOrTwoDigits. intros Hd Hy. apply trim_fixed.
  - destruct d as [|a d]; simpl in *; [done|]. split_bools.
    by rewrite isDigit_not_space.
  - replace (d ++ c :: rest ++ [y]) with ((d ++ c :: rest) ++ [y])
      by by rewrite <- app_assoc.
    rewrite last_snoc. simpl. by rewrite isDigit_not_space.
Qed.

Lemma nDigits_snoc n year :
  nDigits (S n) year = true →
  ∃ y0 y, year = y0 ++ [y] ∧ isDigit y = true.
Proof.
  unfold nDigits. intros H. split_bools.
  destruct (decide (year = [])) as [->|Hne]; [done|].
  destruct (exists_last Hne) as (y0 & y & ->). exists y0, y. split; [done|].
  rewrite forallb_app in H0. simpl in H0. by split_bools.
Qed.

(** The day/month/year forms: what [parseCleaned] returns for them. *)
Lemma parseCleaned_four_digit_year day month year c1 c2 :
  oneOrTwoDigits day = true → oneOrTwoDigits month = true →
  nDigits 4 year = true → isSep3 c1 = true → isSep3 c2 = true →
  let text := day ++ c1 :: month ++ c2 :: year in
  trim text = text
  ∧ parseCleaned text
    = year ++ [45%N] ++ padStart 2 48 month ++ [45%N] ++ padStart 2 48 day.
Proof.
  intros Hd Hm Hy H1 H2 text. subst text.
  destruct (nDigits_snoc _ _ Hy) as (y0 & y & -> & Hlast).
  split.
  { replace (day ++ c1 :: month ++ c2 :: y0 ++ [y])
      with (day ++ c1 :: (month ++ c2 :: y0) ++ [y])
      by (by rewrite <- app_assoc).
    by apply digits_ends_fixed. }
  unfold parseCleaned.
  rewrite iso_rejects by auto using isSep3_not_digit.
  unfold nDigits in Hy. split_bools.
  rewrite matchDayMonthYear_spec by auto using isSep3_not_digit.
  by rewrite H, Nat.eqb_refl.
Qed.

Lemma parseCleaned_two_digit_year day month year c1 c2 :
  oneOrTwoDigits day = true → oneOrTwoDigits month = true →
  nDigits 2 year = true → isSep2 c1 = true → isSep2 c2 = true →
  let text := day ++ c1 :: month ++ c2 :: year in
  trim text = text
  ∧ parseCleaned text
    = (if (50 <? digitsValue year)%N then js "19" else js "20")
      ++ year ++ [45%N] ++ padStart 2 48 month ++ [45%N] ++ padStart 2 48 day.
Proof.
  intros Hd Hm Hy H1 H2 text. subst text.
  destruct (nDigits_snoc _ _ Hy) as (y0 & y & -> & Hlast).
  split.
  { replace (day ++ c1 :: month ++ c2 :: y0 ++ [y])
      with (day ++ c1 :: (month ++ c2 :: y0) ++ [y])
      by (by rewrite <- app_assoc).
    by apply digits_ends_fixed. }
  unfold parseCleaned.
  rewrite iso_rejects by auto using isSep2_not_digit.
  unfold nDigits in Hy. split_bools.
  rewrite matchDayMonthYear_spec
    by auto using isSep3_not_digit, isSep2_isSep3.
  rewrite H. cbn [Nat.eqb].
  rewrite matchDayMonthYear_spec by auto using isSep2_not_digit.
  rewrite H. cbn [Nat.eqb]. unfold parseInt. rewrite takeWhile_all by done.
  destruct (50 <? digitsValue (y0 ++ [y]))%N; by rewrite <- !app_assoc.
Qed.

Lemma parseDate_form day c rest :
  parseDate (day ++ c :: rest) = parseCleaned (trim (day ++ c :: rest)).
Proof. rewrite parseDate_unfold. by destruct day. Qed.

(** A text in ISO form is returned as it is. *)
Lemma iso_fixed s : matchClasses isoPattern s = true → parseDate s = s.
Proof.
  intros H. rewrite parseDate_unfold.
  assert (trim s = s) as Htrim.
  { unfold isoPattern in H.
    do 10 (destruct s as [|? s];
           [simpl in H; by rewrite ?andb_false_r in H|]).
    destruct s; [|simpl in H; by rewrite !andb_false_r in H].
    simpl in H. split_bools.
    apply trim_fixed; simpl; by rewrite isDigit_not_space. }
  rewrite Htrim. destruct s; [done|]. unfold parseCleaned. by rewrite H.
Qed.

(** So is an expanded-year date that the runtime parses back to itself. *)
Lemma expanded_fixed s :
  matchClasses expandedYearPattern s = true →
  Date_toISODate s = Some s → parseDate s = s.
Proof.
  intros H Hdate. rewrite parseDate_unfold.
  unfold expandedYearPattern in H.
  do 13 (destruct s as [|? s];
         [simpl in H; by rewrite ?andb_false_r in H|]).
  destruct s; [|simpl in H; by rewrite !andb_false_r in H].
  simpl in H. split_bools.
  rewrite trim_fixed; [|simpl..].
  - unfold parseCleaned. rewrite Hdate.
    assert (isDigit n = false) as Hn.
    { unfold isDigit. apply orb_true_iff in H as [H|H];
        apply N.eqb_eq in H; by subst. }
    unfold isoPattern, matchDayMonthYear. simpl. rewrite Hn. simpl. done.
  - apply orb_true_iff in H as [H|H]; apply N.eqb_eq in H; by subst.
  - by rewrite isDigit_not_space.
Qed.

Lemma padStart_digits d :
  oneOrTwoDigits d = true → nDigits 2 (padStart 2 48 d) = true.
Proof.
  unfold oneOrTwoDigits, nDigits, padStart. intros H.
  destruct d as [|a [|b [|]]]; simpl in *; try done; split_bools; use_digits.
Qed.

Lemma year_month_day_iso day month year :
  oneOrTwoDigits day = true → oneOrTwoDigits month = true →
  nDigits 4 year = true →
  matchClasses isoPattern
    (year ++ [45%N] ++ padStart 2 48 month ++ [45%N] ++ padStart 2 48 day) = true.
Proof.
  intros Hd Hm Hy.
  apply padStart_digits in Hd, Hm. unfold nDigits in *.
  destruct (padStart 2 48 day) as [|d1 [|d2 [|]]]; try done.
  destruct (padStart 2 48 month) as [|m1 [|m2 [|]]]; try done.
  destruct year as [|y1 [|y2 [|y3 [|y4 [|]]]]]; try done.
  simpl in *. split_bools. use_digits.
Qed.

Lemma century_year prefix year :
  nDigits 2 prefix = true → nDigits 2 year = true →
  nDigits 4 (prefix ++ year) = true.
Proof.
  unfold nDigits. intros. split_bools.
  rewrite length_app, forallb_app.
  repeat match goal with H : _ = _ |- _ => rewrite H end. done.
Qed.

Section Idempotence.

(** What the ECMAScript standard says of [toISOString]: its date part has
    a four-digit year, or an expanded year that [Date] reads back as the
    same UTC day. *)
Hypothesis Date_round_trip : ∀ s iso,
  Date_toISODate s = Some iso →
  matchClasses isoPattern iso = true
  ∨ (matchClasses expandedYearPattern iso = true
     ∧ Date_toISODate iso = Some iso).

Lemma parseCleaned_fixed c :
  trim c = c → parseDate (parseCleaned c) = parseCleaned c.
Proof.
  intros Hc. unfold parseCleaned at 2.
  destruct (matchClasses isoPattern c) eqn:Eiso.
  { unfold parseCleaned. rewrite Eiso. by apply iso_fixed. }
  destruct (matchDayMonthYear isSep3 4 c) as [[[day month] year]|] eqn:E4.
  { unfold parseCleaned. rewrite Eiso, E4.
    apply matchDayMonthYear_inv in E4
      as (c1 & c2 & _ & _ & _ & Hd & Hm & Hy).
    by apply iso_fixed, year_month_day_iso. }
  destruct (matchDayMonthYear isSep2 2 c) as [[[day month] year]|] eqn:E2.
  { unfold parseCleaned. rewrite Eiso, E4, E2.
    apply matchDayMonthYear_inv in E2
      as (c1 & c2 & _ & _ & _ & Hd & Hm & Hy).
    cbv zeta.
    apply iso_fixed, year_month_day_iso; [done..|].
    destruct (50 <? parseInt year)%N; by apply century_year. }
  destruct (Date_toISODate c) as [iso|] eqn:EDate.
  { unfold parseCleaned. rewrite Eiso, E4, E2, EDate.
    destruct (Date_round_trip _ _ EDate) as [Hiso|[Hexp Hback]].
    - by apply iso_fixed.
    - by apply expanded_fixed. }
  unfold parseCleaned. rewrite Eiso, E4, E2, EDate.
  rewrite parseDate_unfold, Hc. destruct c; [done|].
  unfold parseCleaned. by rewrite Eiso, E4, E2, EDate.
Qed.

(** C7. parseDate is idempotent on every input, provided the runtime's
    Date prints what it can read back; and for the same day, month and
    four-digit year the forms D/M/YYYY and D-M-YYYY both normalize to
    YYYY-MM-DD. *)
Theorem parseDate_idempotent :
  (∀ d, parseDate (parseDate d) = parseDate d)
  ∧ (∀ day month year,
       oneOrTwoDigits day = true → oneOrTwoDigits month = true →
       nDigits 4 year = true →
       let iso :=
         year ++ [45%N] ++ padStart 2 48 month ++ [45%N] ++ padStart 2 48 day in
       parseDate (day ++ 47%N :: month ++ 47%N :: year) = iso
       ∧ parseDate (day ++ 45%N :: month ++ 45%N :: year) = iso).
Proof.
  split.
  - intros d. rewrite (parseDate_unfold d). destruct d as [|c d]; [done|].
    apply parseCleaned_fixed, trim_idemp.
  - intros day month year Hd Hm Hy iso. subst iso.
    split; rewrite parseDate_form.
    + destruct (parseCleaned_four_digit_year day month year 47 47)
        as [-> ->]; done.
    + destruct (parseCleaned_four_digit_year day month year 45 45)
        as [-> ->]; done.
Qed.

End Idempotence.

(** C5 (amended). For a date in the two-digit-year day/month form
    (D/M/YY or D-M-YY) a year of 50 or less is placed in the 2000s and a
    year above 50 in the 1900s. *)
Theorem two_digit_year_pivot (day month year : jsstring) (c1 c2 : N) :
  oneOrTwoDigits day = true → oneOrTwoDigits month = true →
  nDigits 2 year = true → isSep2 c1 = true → isSep2 c2 = true →
  parseDate (day ++ c1 :: month ++ c2 :: year)
  = (if (50 <? digitsValue year)%N then js "19" else js "20")
    ++ year ++ [45%N] ++ padStart 2 48 month ++ [45%N] ++ padStart 2 48 day.
Proof.
  intros Hd Hm Hy H1 H2. rewrite parseDate_form.
  destruct (parseCleaned_two_digit_year day month year c1 c2) as [-> ->]; done.
Qed.

End Dates.
(** *** Normalizer: amounts *)

Section Amounts.

Lemma Qred_sign q : (Qnum (Qred q) <? 0)%Z = (Qnum q <? 0)%Z.
Proof.
  pose proof (Qred_correct q) as H. unfold Qeq in H.
  destruct (Z.ltb_spec (Qnum (Qred q)) 0), (Z.ltb_spec (Qnum q) 0);
    try done; nia.
Qed.

Lemma scale10_sign m e : (Qnum (scale10 m e) <? 0)%Z = (m <? 0)%Z.
Proof.
  unfold scale10. destruct (0 <=? e)%Z eqn:E; simpl; rewrite Qred_sign; simpl.
  - apply Z.leb_le in E. pose proof (Z.pow_pos_nonneg 10 e).
    destruct (Z.ltb_spec (m * 10 ^ e) 0), (Z.ltb_spec m 0); try done; nia.
  - done.
Qed.

Lemma scale10_opp m e : (- scale10 (- m) e)%Qc = scale10 m e.
Proof.
  apply Qc_is_canon. unfold scale10.
  destruct (0 <=? e)%Z; simpl; rewrite !Qred_correct;
    unfold Qeq; simpl; lia.
Qed.

Lemma Math_abs_scale10 (negative : bool) m e :
  (0 ≤ m)%Z →
  Math_abs (Fin (scale10 (if negative then (- m)%Z else m) e))
  = Fin (scale10 m e).
Proof.
  intros Hm. unfold Math_abs. rewrite scale10_sign.
  destruct negative.
  - destruct (Z.ltb_spec (- m) 0).
    + by rewrite scale10_opp.
    + by replace m with 0%Z by lia.
  - by destruct (Z.ltb_spec m 0); [lia|].
Qed.

Lemma scale2_sign m e : (Qnum (scale2 m e) <? 0)%Z = (m <? 0)%Z.
Proof.
  unfold scale2. destruct (0 <=? e)%Z eqn:E; simpl; rewrite Qred_sign; simpl.
  - apply Z.leb_le in E. pose proof (Z.pow_pos_nonneg 2 e).
    destruct (Z.ltb_spec (m * 2 ^ e) 0), (Z.ltb_spec m 0); try done; nia.
  - done.
Qed.

Lemma scale2_opp m e : (- scale2 (- m) e)%Qc = scale2 m e.
Proof.
  apply Qc_is_canon. unfold scale2.
  destruct (0 <=? e)%Z; simpl; rewrite !Qred_correct;
    unfold Qeq; simpl; lia.
Qed.

Lemma Math_abs_scale2 (negative : bool) m e :
  (0 ≤ m)%Z →
  Math_abs (Fin (scale2 (if negative then (- m)%Z else m) e))
  = Fin (scale2 m e).
Proof.
  intros Hm. unfold Math_abs. rewrite scale2_sign.
  destruct negative.
  - destruct (Z.ltb_spec (- m) 0).
    + by rewrite scale2_opp.
    + by replace m with 0%Z by lia.
  - by destruct (Z.ltb_spec m 0); [lia|].
Qed.

Lemma roundHalfEven_nonneg n d : (0 ≤ n)%Z → (0 < d)%Z → (0 ≤ roundHalfEven n d)%Z.
Proof.
  intros Hn Hd. unfold roundHalfEven.
  pose proof (Z.div_pos n d Hn Hd).
  repeat match goal with |- context [if ?b then _ else _] => destruct b end; lia.
Qed.

(** The numerator and the denominator of the opposite. *)
Lemma Qc_opp_parts (x : Qc) :
  Qnum (- x)%Qc = (- Qnum x)%Z ∧ Qden (- x)%Qc = Qden x.
Proof.
  assert (Heq : this (- x)%Qc = Qopp (this x)).
  { unfold Qcopp, Q2Qc. cbn [this]. rewrite Qred_opp.
    by rewrite (canon x). }
  rewrite Heq. by destruct (this x).
Qed.

(** Rounding commutes with the absolute value. *)
Lemma Math_abs_toBinary64 (x : Qc) :
  Math_abs (toBinary64 x)
  = toBinary64 (if (Qnum x <? 0)%Z then (- x)%Qc else x).
Proof.
  set (y := if (Qnum x <? 0)%Z then (- x)%Qc else x).
  assert (Hparts : Z.abs (Qnum y) = Z.abs (Qnum x) ∧ Qden y = Qden x
                   ∧ (Qnum y <? 0)%Z = false).
  { unfold y. destruct (Z.ltb_spec (Qnum x) 0) as [Hneg|Hpos].
    - destruct (Qc_opp_parts x) as [-> ->]. split; [lia|]. split; [done|].
      apply Z.ltb_ge. lia.
    - split; [done|]. split; [done|]. by apply Z.ltb_ge. }
  clearbody y.
  destruct Hparts as (Hn & Hd & Hs).
  unfold toBinary64. rewrite Hn, Hd, Hs. cbv zeta.
  destruct (Z.abs (Qnum x) =? 0)%Z; [done|].
  set (e := Z.max (floorLog2 (Z.abs (Qnum x)) (Z.pos (Qden x)) - 52) (-1074)).
  set (m := if (0 <=? e)%Z
            then roundHalfEven (Z.abs (Qnum x)) (Z.pos (Qden x) * 2 ^ e)
            else roundHalfEven (Z.abs (Qnum x) * 2 ^ (- e)) (Z.pos (Qden x))).
  assert (Hm : (0 ≤ m)%Z).
  { unfold m. destruct (Z.leb_spec 0 e) as [He|He].
    - apply roundHalfEven_nonneg; [lia|].
      pose proof (Z.pow_pos_nonneg 2 e). lia.
    - apply roundHalfEven_nonneg; [|lia].
      pose proof (Z.pow_pos_nonneg 2 (- e)). nia. }
  destruct ((971 <? e)%Z || ((e =? 971)%Z && (m =? 2 ^ 53)%Z)); [done|].
  by apply Math_abs_scale2.
Qed.

Lemma Math_abs_toBinary64_scale10 (negative : bool) m e :
  (0 ≤ m)%Z →
  Math_abs (toBinary64 (scale10 (if negative then (- m)%Z else m) e))
  = toBinary64 (scale10 m e).
Proof.
  intros Hm. rewrite Math_abs_toBinary64. rewrite scale10_sign. f_equal.
  destruct negative.
  - destruct (Z.ltb_spec (- m) 0).
    + by rewrite scale10_opp.
    + by replace m with 0%Z by lia.
  - by destruct (Z.ltb_spec m 0); [lia|].
Qed.

(** Rounding never gives NaN. *)
Lemma toBinary64_number x : isNaN (toBinary64 x) = false.
Proof.
  unfold toBinary64. cbv zeta.
  repeat match goal with |- context [if ?b then _ else _] => destruct b end;
    done.
Qed.

Lemma removeChars_app p a b :
  removeChars p (a ++ b) = removeChars p a ++ removeChars p b.
Proof. unfold removeChars. apply filter_app. Qed.

Lemma removeChars_all p s : forallb p s = true → removeChars p s = [].
Proof.
  unfold removeChars. induction s as [|c s IH]; simpl; [done|].
  intros H. apply andb_true_iff in H as [Hc Hs].
  rewrite filter_cons. destruct (decide (p c = false)); [congruence|auto].
Qed.

Lemma removeChars_none p s :
  forallb (λ c, negb (p c)) s = true → removeChars p s = s.
Proof.
  unfold removeChars. induction s as [|c s IH]; simpl; [done|].
  intros H. apply andb_true_iff in H as [Hc Hs].
  rewrite filter_cons. destruct (decide (p c = false)) as [|Hn].
  - by rewrite IH.
  - by destruct (p c).
Qed.

Lemma forallb_impl (p q : N → bool) s :
  (∀ c, p c = true → q c = true) → forallb p s = true → forallb q s = true.
Proof.
  intros Hpq. induction s as [|c s IH]; simpl; [done|].
  intros H. apply andb_true_iff in H as [Hc Hs]. by rewrite Hpq, IH.
Qed.

(** Removing every white-space character makes the preceding trim
    redundant. *)
Lemma removeChars_trim s :
  removeChars isCurrencyOrSpace (trim s) = removeChars isCurrencyOrSpace s.
Proof.
  assert (Hsp : ∀ t, forallb isSpace t = true →
                     removeChars isCurrencyOrSpace t = []).
  { intros t Ht. apply removeChars_all.
    eapply forallb_impl; [|exact Ht].
    intros c Hc. unfold isCurrencyOrSpace. rewrite Hc. by rewrite orb_true_r. }
  unfold trim.
  destruct (trimEnd_spec (trimStart s)) as (t & Hs & Ht & _).
  rewrite <- (takeWhile_dropWhile isSpace s) at 2. fold (trimStart s).
  rewrite removeChars_app, (Hsp (takeWhile isSpace s))
    by apply takeWhile_forallb.
  rewrite Hs at 2. rewrite removeChars_app, (Hsp t) by done.
  by rewrite app_nil_r.
Qed.

Lemma isLetter_spec lower c :
  isLetter lower c = true → c = lower ∨ c = (lower - 32)%N.
Proof.
  unfold isLetter. intros H. apply orb_true_iff in H as [H|H];
    apply N.eqb_eq in H; auto.
Qed.

Lemma takeWhile_app_stop p a b :
  forallb p a = true → head b ≫= (λ c, Some (p c)) ≠ Some true →
  takeWhile p (a ++ b) = a ∧ dropWhile p (a ++ b) = b.
Proof.
  intros Ha Hb. induction a as [|c a IH]; simpl in *.
  - destruct b as [|c b]; simpl in *; [done|]. by destruct (p c).
  - apply andb_true_iff in Ha as [-> Ha]. destruct (IH Ha) as [-> ->]. done.
Qed.

Lemma removals_plain t :
  forallb plain t = true →
  removeChars isComma (removeChars isCurrencyOrSpace t) = t.
Proof.
  intros H. rewrite (removeChars_none isCurrencyOrSpace).
  - apply removeChars_none. eapply forallb_impl; [|exact H].
    unfold plain. intros c Hc. by apply andb_true_iff in Hc as [_ Hc].
  - eapply forallb_impl; [|exact H].
    unfold plain. intros c Hc. by apply andb_true_iff in Hc as [Hc _].
Qed.

Lemma digit_not_currency c : isDigit c = true → isCurrencyOrSpace c = false.
Proof.
  intros H. unfold isCurrencyOrSpace. rewrite (isDigit_not_space c H).
  apply isDigit_range in H.
  repeat match goal with
  | |- context [(c =? ?k)%N] => destruct (N.eqb_spec c k); [lia|]
  end. done.
Qed.

Lemma digit_plain c : isDigit c = true → plain c = true.
Proof.
  intros H. unfold plain. rewrite (digit_not_currency c H).
  apply isDigit_range in H. unfold isComma.
  destruct (N.eqb_spec c 44); [lia|done].
Qed.

Lemma sign_plain sign : isSignText sign = true → forallb plain sign = true.
Proof.
  destruct sign as [|c [|]]; simpl; try done. intros H.
  apply orb_true_iff in H as [H|H]; apply N.eqb_eq in H; by subst.
Qed.

Lemma fraction_plain frac :
  isFractionText frac = true → forallb plain frac = true.
Proof.
  destruct frac as [|c digits]; simpl; [done|]. intros H.
  apply andb_true_iff in H as [Hc Hd]. apply N.eqb_eq in Hc. subst c.
  simpl. eapply forallb_impl; [|exact Hd]. apply digit_plain.
Qed.

Lemma suffix_plain suffix :
  isDrCrSuffix suffix = true → forallb plain suffix = true.
Proof.
  destruct suffix as [|dc [|r [|stop [|]]]]; simpl; try done; intros H;
    repeat (apply andb_true_iff in H as [H ?]);
    repeat match goal with
    | H : _ || _ = true |- _ => apply orb_true_iff in H as [H|H]
    | H : isLetter _ _ = true |- _ => apply isLetter_spec in H as [-> | ->]
    | H : (_ =? _)%N = true |- _ => apply N.eqb_eq in H; subst
    end; done.
Qed.

(** The digits of a text made of digits and commas. *)
Lemma body_digits body :
  forallb (λ c, isDigit c || isComma c) body = true →
  existsb isDigit body = true →
  removeChars isCurrencyOrSpace body = body
  ∧ forallb isDigit (removeChars isComma body) = true
  ∧ ∃ d ds, removeChars isComma body = d :: ds.
Proof.
  intros Hall Hex. split; [|split].
  - apply removeChars_none. eapply forallb_impl; [|exact Hall].
    intros c Hc. apply orb_true_iff in Hc as [Hc|Hc].
    + by rewrite digit_not_currency.
    + unfold isComma in Hc. apply N.eqb_eq in Hc. by subst.
  - clear Hex. unfold removeChars.
    induction body as [|c body IH]; simpl in *; [done|].
    apply andb_true_iff in Hall as [Hc Hall]. rewrite filter_cons.
    destruct (decide (isComma c = false)) as [Hn|Hn]; [|auto].
    simpl. rewrite IH by done.
    rewrite Hn, orb_false_r in Hc. by rewrite Hc.
  - clear Hall. unfold removeChars.
    induction body as [|c body IH]; simpl in *; [done|].
    rewrite filter_cons.
    destruct (decide (isComma c = false)) as [Hn|Hn]; [eauto|].
    apply orb_true_iff in Hex as [Hc|Hex]; [|auto].
    apply isDigit_range in Hc. unfold isComma in Hn.
    destruct (N.eqb_spec c 44); [lia|done].
Qed.

Lemma endsDrCr_digit d rest : isDigit d = true → endsDrCr (d :: rest) = None.
Proof.
  intros Hd. unfold endsDrCr. destruct rest as [|dc rest]; [done|].
  assert (isLetter 114 d = false) as ->; [|done].
  apply isDigit_range in Hd. unfold isLetter.
  destruct (N.eqb_spec d 114), (N.eqb_spec d (114 - 32)); try done; lia.
Qed.

(** Stripping the suffix from a text whose number part ends in a digit,
    or in a digit and a point. *)
Lemma stripDrCr_suffix core d point suffix :
  isDigit d = true → point = [] ∨ point = [46%N] →
  isDrCrSuffix suffix = true →
  stripDrCr ((core ++ d :: point) ++ suffix) = core ++ d :: point.
Proof.
  intros Hd Hpoint Hs. unfold stripDrCr.
  assert (Hd46 : (d =? 46)%N = false).
  { apply isDigit_range in Hd. destruct (N.eqb_spec d 46); [lia|done]. }
  destruct suffix as [|dc [|r [|stop [|]]]]; simpl in Hs; try done.
  - rewrite app_nil_r.
    destruct Hpoint as [-> | ->].
    + rewrite reverse_snoc. rewrite Hd46. by rewrite endsDrCr_digit.
    + replace (core ++ [d; 46%N]) with ((core ++ [d]) ++ [46%N])
        by (by rewrite <- app_assoc).
      rewrite reverse_snoc. simpl. rewrite reverse_snoc.
      by rewrite endsDrCr_digit.
  - apply andb_true_iff in Hs as [Hdc Hr].
    replace ((core ++ d :: point) ++ [dc; r])
      with (((core ++ d :: point) ++ [dc]) ++ [r]) by (by rewrite <- !app_assoc).
    rewrite !reverse_snoc.
    assert ((r =? 46)%N = false) as ->.
    { apply isLetter_spec in Hr as [-> | ->]; done. }
    unfold endsDrCr. rewrite Hr, Hdc. simpl. by rewrite reverse_involutive.
  - apply andb_true_iff in Hs as [Hs Hstop].
    apply andb_true_iff in Hs as [Hdc Hr]. apply N.eqb_eq in Hstop. subst stop.
    replace ((core ++ d :: point) ++ [dc; r; 46%N])
      with ((((core ++ d :: point) ++ [dc]) ++ [r]) ++ [46%N])
      by (by rewrite <- !app_assoc).
    rewrite !reverse_snoc. simpl.
    unfold endsDrCr. rewrite Hr, Hdc. simpl. by rewrite reverse_involutive.
Qed.

Lemma startsWith_Infinity_digit d rest :
  isDigit d = true → startsWith (js "Infinity") (d :: rest) = false.
Proof.
  intros Hd. apply isDigit_range in Hd.
  change (startsWith (js "Infinity") (d :: rest))
    with ((73 =? d)%N && startsWith (js "nfinity") rest).
  destruct (N.eqb_spec 73 d); [lia|done].
Qed.

(** [parseFloat] on a sign, digits, a fraction and text that does not
    continue the numeral. *)
Lemma parseFloat_prefix sign d ds frac rest :
  isSignText sign = true → forallb isDigit (d :: ds) = true →
  isFractionText frac = true → continuesNumeral frac rest = false →
  parseFloat (sign ++ (d :: ds) ++ frac ++ rest)
  = toBinary64
      (scale10
         (let m := Z.of_N (digitsValue ((d :: ds) ++ drop 1 frac)) in
          if isMinus sign then (- m)%Z else m)
         (- Z.of_nat (length (drop 1 frac)))).
Proof.
  intros Hsign Hds Hfrac Hrest.
  assert (Hd : isDigit d = true)
    by (simpl in Hds; by apply andb_true_iff in Hds as [? _]).
  assert (Hd45 : (d =? 45)%N = false ∧ (d =? 43)%N = false).
  { apply isDigit_range in Hd.
    destruct (N.eqb_spec d 45), (N.eqb_spec d 43); try done; lia. }
  destruct Hd45 as [Hd45 Hd43].
  assert (Hsigned :
    signOf (trimStart (sign ++ (d :: ds) ++ frac ++ rest))
    = (isMinus sign, (d :: ds) ++ frac ++ rest)).
  { destruct sign as [|c [|]]; simpl in Hsign; try done.
    - simpl. rewrite trimStart_head by by apply isDigit_not_space.
      simpl. by rewrite Hd45, Hd43.
    - apply orb_true_iff in Hsign as [H|H]; apply N.eqb_eq in H; by subst c. }
  (* what the text after the numeral starts with *)
  assert (Hstop : head rest ≫= (λ c, Some (isDigit c)) ≠ Some true
                  ∧ exponentOf rest = 0%Z
                  ∧ (frac = [] → head rest ≠ Some 46%N)).
  { destruct rest as [|c rest']; [done|].
    cbn [continuesNumeral] in Hrest.
    apply orb_false_iff in Hrest as [Hrest Hexp].
    apply orb_false_iff in Hrest as [Hdigit Hpoint].
    apply negb_false_iff, Z.eqb_eq in Hexp.
    split; [cbn; by rewrite Hdigit|]. split; [done|].
    intros -> [= ->]. done. }
  destruct Hstop as (Hnodigit & Hexp & Hnopoint).
  unfold parseFloat. rewrite Hsigned.
  rewrite <- app_comm_cons, startsWith_Infinity_digit by done.
  rewrite app_comm_cons.
  destruct (takeWhile_app_stop isDigit (d :: ds) (frac ++ rest))
    as [-> ->]; [done| |].
  { destruct frac as [|c fd]; [done|]. cbn in Hfrac |- *.
    apply andb_true_iff in Hfrac as [Hc _]. apply N.eqb_eq in Hc. by subst. }
  destruct frac as [|c fd].
  - cbn [app drop length]. rewrite app_nil_r.
    assert (Hfp : match rest with
                  | c :: r' =>
                    if (c =? 46)%N
                    then (takeWhile isDigit r', dropWhile isDigit r')
                    else ([], rest)
                  | [] => ([], rest)
                  end = ([], rest)).
    { destruct rest as [|c rest']; [done|].
      destruct (N.eqb_spec c 46) as [->|]; [|done].
      by destruct (Hnopoint eq_refl). }
    rewrite Hfp. rewrite app_nil_r. rewrite Hexp. done.
  - cbn [isFractionText] in Hfrac.
    apply andb_true_iff in Hfrac as [Hc Hfd].
    cbn [app]. rewrite Hc.
    destruct (takeWhile_app_stop isDigit fd rest) as [-> ->]; [done..|].
    rewrite Hexp. cbn [drop length]. done.
Qed.

(** [parseFloat] on a sign, digits and a fraction. *)
Lemma parseFloat_decimal sign d ds frac :
  isSignText sign = true → forallb isDigit (d :: ds) = true →
  isFractionText frac = true →
  parseFloat (sign ++ (d :: ds) ++ frac)
  = toBinary64
      (scale10
         (let m := Z.of_N (digitsValue ((d :: ds) ++ drop 1 frac)) in
          if isMinus sign then (- m)%Z else m)
         (- Z.of_nat (length (drop 1 frac)))).
Proof.
  intros Hsign Hds Hfrac.
  rewrite <- (parseFloat_prefix sign d ds frac []) by done.
  by rewrite app_nil_r.
Qed.

(** The cleaned text of an amount written with separators, symbols and a
    Dr/Cr suffix. *)
Lemma cleanAmount_decimal pre sign body frac gap suffix :
  forallb isCurrencyOrSpace pre = true →
  isSignText sign = true →
  forallb (λ c, isDigit c || isComma c) body = true →
  existsb isDigit body = true →
  isFractionText frac = true →
  forallb isCurrencyOrSpace gap = true →
  isDrCrSuffix suffix = true →
  cleanAmount (pre ++ sign ++ body ++ frac ++ gap ++ suffix)
  = sign ++ removeChars isComma body ++ frac.
Proof.
  intros Hpre Hsign Hbody Hex Hfrac Hgap Hsuffix.
  destruct (body_digits body Hbody Hex) as (Hb1 & Hdigits & d & ds & Hb2).
  unfold cleanAmount. cbv zeta. rewrite removeChars_trim.
  rewrite !removeChars_app.
  rewrite (removeChars_all _ pre), (removeChars_all _ gap) by done.
  rewrite Hb1. simpl.
  rewrite !removals_plain
    by auto using sign_plain, fraction_plain, suffix_plain.
  (* the number part ends in a digit, or in a digit and a point *)
  assert (Hend : ∃ core e point,
    sign ++ removeChars isComma body ++ frac = core ++ e :: point
    ∧ isDigit e = true ∧ (point = [] ∨ point = [46%N])).
  { rewrite Hb2 in *.
    destruct frac as [|c fd]; simpl in Hfrac.
    - destruct (exists_last (l:=d :: ds)) as (ds' & e & He); [done|].
      rewrite He in *. exists (sign ++ ds'), e, []. rewrite app_nil_r.
      split; [by rewrite <- app_assoc|]. split; [|by left].
      rewrite forallb_app in Hdigits. simpl in Hdigits.
      apply andb_true_iff in Hdigits as [_ H]. by apply andb_true_iff in H as [H _].
    - apply andb_true_iff in Hfrac as [Hc Hfd]. apply N.eqb_eq in Hc. subst c.
      destruct fd as [|f fd'].
      + destruct (exists_last (l:=d :: ds)) as (ds' & e & He); [done|].
        rewrite He in *. exists (sign ++ ds'), e, [46%N].
        split; [by rewrite <- !app_assoc|]. split; [|by right].
        rewrite forallb_app in Hdigits. simpl in Hdigits.
        apply andb_true_iff in Hdigits as [_ H].
        by apply andb_true_iff in H as [H _].
      + destruct (exists_last (l:=f :: fd')) as (fd'' & e & He); [done|].
        rewrite He in *. exists (sign ++ (d :: ds) ++ 46%N :: fd''), e, [].
        split; [by rewrite <- !app_assoc|]. split; [|by left].
        rewrite forallb_app in Hfd. simpl in Hfd.
        apply andb_true_iff in Hfd as [_ H].
        by apply andb_true_iff in H as [H _]. }
  destruct Hend as (core & e & point & Heq & He & Hpoint).
  replace (sign ++ removeChars isComma body ++ frac ++ suffix)
    with ((sign ++ removeChars isComma body ++ frac) ++ suffix)
    by (by rewrite <- !app_assoc).
  rewrite Heq. by apply stripDrCr_suffix.
Qed.



End Amounts.

(** *** Deduplicator *)

Section Deduplicator.
Context `{RT : Runtime}.

Lemma idsWithKey_snoc k l tx :
  idsWithKey k (l ++ [tx])
  = idsWithKey k l ++ (if decide (getDuplicateKey tx = k) then [tx_id tx] else []).
Proof.
  unfold idsWithKey. rewrite filter_app, fmap_app. f_equal.
  rewrite filter_cons, filter_nil. by destruct (decide _).
Qed.

Lemma elem_of_idsWithKey x k l :
  x ∈ idsWithKey k l ↔ ∃ tx, tx ∈ l ∧ getDuplicateKey tx = k ∧ tx_id tx = x.
Proof.
  unfold idsWithKey. rewrite list_elem_of_fmap. split.
  - intros (tx & -> & Hin). apply list_elem_of_filter in Hin as [Hk Hin]. eauto.
  - intros (tx & Hin & Hk & <-). exists tx. split; [done|].
    by apply list_elem_of_filter.
Qed.

Lemma elem_of_add_all (base : gset jsstring) (ids : list jsstring) x :
  x ∈ foldl (λ acc i, {[i]} ∪ acc) base ids ↔ x ∈ base ∨ x ∈ ids.
Proof.
  revert base. induction ids as [|i ids IH]; intros base; simpl.
  - set_solver.
  - rewrite IH. set_solver.
Qed.

Lemma loopInvariant_step l st tx :
  loopInvariant l st → loopInvariant (l ++ [tx]) (findDuplicates_step st tx).
Proof.
  destruct st as [seen dups]. intros [Hseen Hdups]. simpl in *.
  unfold findDuplicates_step. set (k := getDuplicateKey tx).
  rewrite (Hseen k). split; simpl.
  - intros k'. rewrite idsWithKey_snoc. fold k.
    destruct (decide (k = k')) as [<-|Hne].
    + by rewrite lookup_insert_eq.
    + rewrite lookup_insert_ne by done. by rewrite Hseen, app_nil_r.
  - intros x.
    assert (Hgrow : ∀ tx', length (idsWithKey (getDuplicateKey tx') l)
                           ≤ length (idsWithKey (getDuplicateKey tx') (l ++ [tx]))).
    { intros tx'. rewrite idsWithKey_snoc, length_app. lia. }
    assert (Hk : length (idsWithKey k (l ++ [tx])) = S (length (idsWithKey k l))).
    { rewrite idsWithKey_snoc. fold k. rewrite decide_True by done.
      rewrite length_app. simpl. lia. }
    assert (Hother : ∀ tx', getDuplicateKey tx' ≠ k →
      idsWithKey (getDuplicateKey tx') (l ++ [tx])
      = idsWithKey (getDuplicateKey tx') l).
    { intros tx' Hne. rewrite idsWithKey_snoc. fold k.
      rewrite decide_False by done. by rewrite app_nil_r. }
    assert (Hmember : ∀ tx', tx' ∈ l → getDuplicateKey tx' = k →
                             1 ≤ length (idsWithKey k l)).
    { intros tx' Hin Hkey.
      assert (tx_id tx' ∈ idsWithKey k l) as Hx
        by (apply elem_of_idsWithKey; eauto).
      destruct (idsWithKey k l); [by apply elem_of_nil in Hx|simpl; lia]. }
    destruct (Nat.ltb_spec 0 (length (idsWithKey k l))) as [Hsome|Hnone].
    + rewrite elem_of_add_all, elem_of_union, elem_of_singleton, Hdups.
      split.
      * intros [[->|(tx' & Hin & <- & Hlen)]|Hex].
        -- exists tx. split; [set_solver|]. split; [done|]. fold k. lia.
        -- exists tx'. split; [set_solver|]. split; [done|].
           specialize (Hgrow tx'). lia.
        -- apply elem_of_idsWithKey in Hex as (tx' & Hin & Hkey & <-).
           exists tx'. split; [set_solver|]. split; [done|].
           rewrite Hkey. lia.
      * intros (tx' & Hin & <- & Hlen).
        apply elem_of_app in Hin as [Hin|Hin].
        -- destruct (decide (getDuplicateKey tx' = k)) as [Hkey|Hne].
           ++ right. apply elem_of_idsWithKey. eauto.
           ++ left. right. exists tx'. rewrite Hother in Hlen by done. eauto.
        -- apply list_elem_of_singleton in Hin as ->. by left; left.
    + rewrite Hdups. split.
      * intros (tx' & Hin & <- & Hlen). exists tx'.
        split; [set_solver|]. split; [done|]. specialize (Hgrow tx'). lia.
      * intros (tx' & Hin & <- & Hlen).
        apply elem_of_app in Hin as [Hin|Hin].
        -- destruct (decide (getDuplicateKey tx' = k)) as [Hkey|Hne].
           ++ specialize (Hmember tx' Hin Hkey). lia.
           ++ exists tx'. rewrite Hother in Hlen by done. eauto.
        -- apply list_elem_of_singleton in Hin as ->. fold k in Hlen. lia.
Qed.

Lemma loopInvariant_run l st txs :
  loopInvariant l st →
  loopInvariant (l ++ txs) (foldl findDuplicates_step st txs).
Proof.
  revert l st. induction txs as [|tx txs IH]; intros l st Hinv; simpl.
  - by rewrite app_nil_r.
  - replace (l ++ tx :: txs) with ((l ++ [tx]) ++ txs)
      by (by rewrite <- app_assoc).
    by apply IH, loopInvariant_step.
Qed.

Lemma findDuplicates_spec txs x :
  x ∈ findDuplicates txs ↔
  ∃ tx, tx ∈ txs ∧ tx_id tx = x
      ∧ 2 ≤ length (idsWithKey (getDuplicateKey tx) txs).
Proof.
  unfold findDuplicates.
  destruct (loopInvariant_run [] (∅, ∅) txs) as [_ H]; [|by apply H].
  split; simpl.
  - intros k. by rewrite lookup_empty.
  - intros y. split; [set_solver|]. intros (tx & Hin & _). by apply elem_of_nil in Hin.
Qed.

(** Two members of a list at different positions that satisfy [P] make
    the filtered list at least two long, and conversely. *)
Lemma filter_two (P : Transaction → Prop) `{∀ x, Decision (P x)} l :
  2 ≤ length (filter P l) ↔
  ∃ i j a b, i < j ∧ l !! i = Some a ∧ l !! j = Some b ∧ P a ∧ P b.
Proof.
  induction l as [|x l IH].
  - split; [simpl; lia|]. by intros (i & j & a & b & _ & Hi & _).
  - rewrite filter_cons. destruct (decide (P x)) as [Hx|Hx]; simpl.
    + split.
      * intros Hlen.
        assert (∃ b, b ∈ filter P l) as [b Hb].
        { destruct (filter P l) as [|b r]; [simpl in Hlen; lia|].
          exists b. set_solver. }
        apply list_elem_of_filter in Hb as [Hb Hin].
        apply list_elem_of_lookup in Hin as [j Hj].
        exists 0, (S j), x, b. simpl. split; [lia|]. auto.
      * intros (i & j & a & b & Hij & Hi & Hj & Ha & Hb).
        destruct j as [|j]; [lia|]. simpl in Hj.
        assert (b ∈ filter P l) as Hin.
        { apply list_elem_of_filter. split; [done|].
          apply list_elem_of_lookup. eauto. }
        destruct (filter P l); [by apply elem_of_nil in Hin|simpl; lia].
    + rewrite IH. split.
      * intros (i & j & a & b & Hij & Hi & Hj & Ha & Hb).
        exists (S i), (S j), a, b. simpl. split; [lia|]. auto.
      * intros (i & j & a & b & Hij & Hi & Hj & Ha & Hb).
        destruct j as [|j]; [lia|]. destruct i as [|i].
        { simpl in Hi. injection Hi as ->. done. }
        exists i, j, a, b. simpl in *. split; [lia|]. auto.
Qed.

(** Texts without [x], each followed by [x], are equal when what they
    begin is. *)
Lemma app_bar_inj (x : N) l1 r p q :
  x ∉ l1 → x ∉ p → l1 ++ x :: r = p ++ x :: q → l1 = p ∧ r = q.
Proof.
  revert p. induction l1 as [|a l1 IH]; intros p Hl Hp Heq.
  - destruct p as [|b p]; [by injection Heq as ->|].
    injection Heq as <- _. destruct Hp. apply list_elem_of_here.
  - destruct p as [|b p].
    + injection Heq as -> _. destruct Hl. apply list_elem_of_here.
    + injection Heq as <- Heq.
      apply not_elem_of_cons in Hl as [_ Hl].
      apply not_elem_of_cons in Hp as [_ Hp].
      destruct (IH p Hl Hp Heq) as [-> ->]. done.
Qed.

Lemma sameFields_key a b : sameFields a b → getDuplicateKey a = getDuplicateKey b.
Proof.
  intros (Hdate & Hdesc & Hdebit & Hcredit & Href). unfold getDuplicateKey.
  by rewrite Hdate, Hdesc, Hdebit, Hcredit, Href.
Qed.

(** Without a bar in the parts before the reference, the key tells the
    five fields. *)
Lemma key_sameFields a b :
  barFree a → barFree b →
  getDuplicateKey a = getDuplicateKey b → sameFields a b.
Proof.
  intros (Ha1 & Ha2 & Ha3 & Ha4) (Hb1 & Hb2 & Hb3 & Hb4) Hkey.
  unfold getDuplicateKey in Hkey. cbn [app] in Hkey.
  apply app_bar_inj in Hkey as [Hdate Hkey]; [|done..].
  apply app_bar_inj in Hkey as [Hdesc Hkey]; [|done..].
  apply app_bar_inj in Hkey as [Hdebit Hkey]; [|done..].
  apply app_bar_inj in Hkey as [Hcredit Href]; [|done..].
  done.
Qed.

Lemma flagged_iff_key_shared txs x :
  x ∈ findDuplicates txs ↔
  ∃ i j a b, i ≠ j ∧ txs !! i = Some a ∧ txs !! j = Some b
           ∧ tx_id a = x ∧ getDuplicateKey a = getDuplicateKey b.
Proof.
  rewrite findDuplicates_spec. split.
  - intros (tx & Htx & Hid & Hlen).
    unfold idsWithKey in Hlen. rewrite length_fmap in Hlen.
    apply filter_two in Hlen as (p & q & u & v & Hpq & Hp & Hq & Hu & Hv).
    apply list_elem_of_lookup in Htx as [i Hi].
    destruct (decide (i = p)) as [->|Hne].
    + exists p, q, tx, v. split; [lia|]. by repeat split.
    + exists i, p, tx, u. by repeat split.
  - intros (i & j & a & b & Hij & Hi & Hj & Hid & Hkey).
    exists a. split; [by eapply list_elem_of_lookup_2|]. split; [done|].
    unfold idsWithKey. rewrite length_fmap. apply filter_two.
    destruct (Nat.lt_ge_cases i j).
    + exists i, j, a, b. auto.
    + exists j, i, b, a. split; [lia|]. auto.
Qed.

(** C6 (amended). If two transactions at different positions agree on
    date, lower-cased trimmed description, debit, credit and reference,
    the ids of both are in the set returned by findDuplicates.  An id is
    in the set exactly when a transaction that carries it has the same
    key text, the five fields joined by vertical bars, as a transaction
    at another position.  When no transaction of the list has a bar in
    its date, description or printed amounts, that is exactly when the
    five fields of the two agree. *)
Theorem findDuplicates_marks_groups (txs : list Transaction) :
  (∀ i j a b,
     i ≠ j → txs !! i = Some a → txs !! j = Some b → sameFields a b →
     tx_id a ∈ findDuplicates txs ∧ tx_id b ∈ findDuplicates txs)
  ∧ (∀ x, x ∈ findDuplicates txs ↔
       ∃ i j a b, i ≠ j ∧ txs !! i = Some a ∧ txs !! j = Some b
                ∧ tx_id a = x ∧ getDuplicateKey a = getDuplicateKey b)
  ∧ ((∀ tx, tx ∈ txs → barFree tx) →
     ∀ x, x ∈ findDuplicates txs ↔
       ∃ i j a b, i ≠ j ∧ txs !! i = Some a ∧ txs !! j = Some b
                ∧ tx_id a = x ∧ sameFields a b).
Proof.
  split; [|split].
  - intros i j a b Hij Hi Hj Hsame.
    split; apply flagged_iff_key_shared.
    + exists i, j, a, b. repeat split; try done. by apply sameFields_key.
    + exists j, i, b, a. repeat split; try done.
      symmetry. by apply sameFields_key.
  - apply flagged_iff_key_shared.
  - intros Hfree x. rewrite flagged_iff_key_shared. split.
    + intros (i & j & a & b & Hij & Hi & Hj & Hid & Hkey).
      exists i, j, a, b. repeat split; try done.
      all: apply key_sameFields in Hkey;
        [by destruct Hkey as (? & ? & ? & ? & ?)
        |apply Hfree; by eapply list_elem_of_lookup_2
        |apply Hfree; by eapply list_elem_of_lookup_2].
    + intros (i & j & a & b & Hij & Hi & Hj & Hid & Hsame).
      exists i, j, a, b. repeat split; try done. by apply sameFields_key.
Qed.

End Deduplicator.

(** *** XML escaping *)

Section Escaping.

Lemma replaceChar_app c rep a b :
  replaceChar c rep (a ++ b) = replaceChar c rep a ++ replaceChar c rep b.
Proof. unfold replaceChar. apply bind_app. Qed.

Lemma escapeXml_cons c s : escapeXml (c :: s) = escapeChar c ++ escapeXml s.
Proof.
  assert (Hchain : ∀ t,
    escapeXml t
    = replaceChar 39 (js "&apos;")
        (replaceChar 34 (js "&quot;")
          (replaceChar 62 (js "&gt;")
            (replaceChar 60 (js "&lt;")
              (replaceChar 38 (js "&amp;") t))))) by (by intros []).
  rewrite !Hchain.
  change (c :: s) with ([c] ++ s).
  rewrite !replaceChar_app. f_equal.
  unfold escapeChar.
  destruct (c =? 38)%N eqn:E38.
  { apply N.eqb_eq in E38 as ->. by vm_compute. }
  destruct (c =? 60)%N eqn:E60.
  { apply N.eqb_eq in E60 as ->. by vm_compute. }
  destruct (c =? 62)%N eqn:E62.
  { apply N.eqb_eq in E62 as ->. by vm_compute. }
  destruct (c =? 34)%N eqn:E34.
  { apply N.eqb_eq in E34 as ->. by vm_compute. }
  destruct (c =? 39)%N eqn:E39.
  { apply N.eqb_eq in E39 as ->. by vm_compute. }
  unfold replaceChar. cbn [mbind list_bind app].
  rewrite E38. cbn [mbind list_bind app].
  rewrite E60. cbn [mbind list_bind app].
  rewrite E62. cbn [mbind list_bind app].
  rewrite E34. cbn [mbind list_bind app].
  rewrite E39. done.
Qed.

Lemma escapeXml_bind s : escapeXml s = s ≫= escapeChar.
Proof.
  induction s as [|c s IH]; [done|].
  by rewrite escapeXml_cons, bind_cons, IH.
Qed.

Lemma escapeXml_app a b : escapeXml (a ++ b) = escapeXml a ++ escapeXml b.
Proof. rewrite !escapeXml_bind. apply bind_app. Qed.

Lemma escapeChar_cases c :
  (isXmlSpecial c = true
   ∧ ∃ name, name ∈ entityNames ∧ escapeChar c = 38%N :: name)
  ∨ (isXmlSpecial c = false ∧ escapeChar c = [c]).
Proof.
  unfold escapeChar, isXmlSpecial, entityNames. cbn [existsb].
  destruct (c =? 38)%N; [left; split; [done|]; eexists; split; [|done]; set_solver|].
  destruct (c =? 60)%N; [left; split; [done|]; eexists; split; [|done]; set_solver|].
  destruct (c =? 62)%N; [left; split; [done|]; eexists; split; [|done]; set_solver|].
  destruct (c =? 34)%N; [left; split; [done|]; eexists; split; [|done]; set_solver|].
  destruct (c =? 39)%N; [left; split; [done|]; eexists; split; [|done]; set_solver|].
  by right.
Qed.

Lemma entityNames_spec name :
  name ∈ entityNames → (38%N ∉ name) ∧ 3 ≤ length name
  ∧ ∀ c, c ∈ name → isXmlSpecial c = false.
Proof.
  intros Hin.
  assert (Hall : forallb (λ name,
            negb (existsb (N.eqb 38) name) && (3 <=? length name)
            && forallb (λ c, negb (isXmlSpecial c)) name) entityNames = true)
    by (by vm_compute).
  rewrite forallb_forall in Hall.
  apply list_elem_of_In, Hall in Hin.
  apply andb_true_iff in Hin as [Hin Hchars].
  apply andb_true_iff in Hin as [Hamp Hlen].
  split; [|split].
  - intros H38. apply negb_true_iff in Hamp.
    assert (existsb (N.eqb 38) name = true); [|congruence].
    apply existsb_exists. exists 38%N. split; [by apply list_elem_of_In|].
    apply N.eqb_refl.
  - by apply Nat.leb_le.
  - intros c Hc. rewrite forallb_forall in Hchars.
    apply negb_true_iff, Hchars. by apply list_elem_of_In.
Qed.

Lemma escapeChar_eq c :
  (c = 38%N ∧ escapeChar c = js "&amp;")
  ∨ (c = 60%N ∧ escapeChar c = js "&lt;")
  ∨ (c = 62%N ∧ escapeChar c = js "&gt;")
  ∨ (c = 34%N ∧ escapeChar c = js "&quot;")
  ∨ (c = 39%N ∧ escapeChar c = js "&apos;")
  ∨ (isXmlSpecial c = false ∧ escapeChar c = [c]).
Proof.
  unfold escapeChar, isXmlSpecial. cbn [existsb].
  destruct (c =? 38)%N eqn:E1; [apply N.eqb_eq in E1; tauto|].
  destruct (c =? 60)%N eqn:E2; [apply N.eqb_eq in E2; tauto|].
  destruct (c =? 62)%N eqn:E3; [apply N.eqb_eq in E3; tauto|].
  destruct (c =? 34)%N eqn:E4; [apply N.eqb_eq in E4; tauto|].
  destruct (c =? 39)%N eqn:E5; [apply N.eqb_eq in E5; tauto|].
  tauto.
Qed.

Lemma app_split_notin (x : N) l1 r p q :
  l1 ++ r = p ++ x :: q → x ∉ l1 →
  ∃ p', p = l1 ++ p' ∧ r = p' ++ x :: q.
Proof.
  revert p. induction l1 as [|a l1 IH]; intros p Heq Hnot.
  { by exists p. }
  destruct p as [|b p].
  { simplify_eq/=. set_solver. }
  simplify_eq/=.
  destruct (IH p) as (p' & -> & ->); [done|set_solver|]. by exists p'.
Qed.

Lemma escapeXml_length s : length s ≤ length (escapeXml s).
Proof.
  induction s as [|c s IH]; [done|].
  rewrite escapeXml_cons, length_app. cbn [length].
  destruct (escapeChar_cases c) as [(_ & name & _ & ->)|[_ ->]];
    cbn [length]; lia.
Qed.

Lemma escapeXml_fixed s :
  escapeXml s = s ↔ Forall (λ c, isXmlSpecial c = false) s.
Proof.
  induction s as [|c s IH]; [by split; [constructor|]|].
  rewrite escapeXml_cons, Forall_cons.
  destruct (escapeChar_cases c) as [(Hc & name & Hname & ->)|[Hc ->]].
  - split; [|intros [? _]; congruence].
    intros Heq. apply (f_equal length) in Heq.
    cbn [length app] in Heq. rewrite length_app in Heq.
    pose proof (escapeXml_length s).
    destruct (entityNames_spec name Hname) as (_ & ? & _). lia.
  - cbn [app]. split.
    + intros Heq. split; [done|]. apply IH. by simplify_eq.
    + intros [_ Hs]. f_equal. by apply IH.
Qed.

Lemma escapeChar_prefix_free c d x y :
  escapeChar c ++ x = escapeChar d ++ y → c = d ∧ x = y.
Proof.
  destruct (escapeChar_eq c)
    as [[-> ->]|[[-> ->]|[[-> ->]|[[-> ->]|[[-> ->]|[Hc ->]]]]]];
  destruct (escapeChar_eq d)
    as [[-> ->]|[[-> ->]|[[-> ->]|[[-> ->]|[[-> ->]|[Hd ->]]]]]];
    intros Heq; vm_compute in Heq; try discriminate;
    try (by simplify_eq).
  all: simplify_eq; by (vm_compute in Hd || vm_compute in Hc).
Qed.


(** X1. The text returned by escapeXml contains no <, no >, no double
    quote and no apostrophe, and every & in it begins one of the five
    entities &amp; &lt; &gt; &quot; &apos;. *)
Theorem escapeXml_output_is_safe (str : jsstring) :
  (∀ c, c ∈ escapeXml str → c ≠ 60%N ∧ c ≠ 62%N ∧ c ≠ 34%N ∧ c ≠ 39%N)
  ∧ (∀ before after,
       escapeXml str = before ++ 38%N :: after →
       ∃ name rest, name ∈ entityNames ∧ after = name ++ rest).
Proof.
  split.
  - intros c Hc. rewrite escapeXml_bind in Hc.
    apply list_elem_of_bind in Hc as (y & Hc & _).
    assert (Hsafe : isXmlSpecial c = false ∨ c = 38%N).
    { destruct (escapeChar_cases y) as [(_ & name & Hname & Heq)|[Hy Heq]];
        rewrite Heq in Hc.
      - apply elem_of_cons in Hc as [->|Hc]; [by right|].
        left. by apply (entityNames_spec name).
      - apply list_elem_of_singleton in Hc as ->. by left. }
    destruct Hsafe as [Hsafe| ->]; [|done].
    unfold isXmlSpecial in Hsafe. cbn [existsb] in Hsafe.
    repeat (apply orb_false_iff in Hsafe as [? Hsafe]).
    repeat split; by apply N.eqb_neq.
  - induction str as [|c s IH]; intros before after Heq.
    { by destruct before. }
    rewrite escapeXml_cons in Heq.
    destruct (escapeChar_cases c) as [(_ & name & Hname & Hc)|[Hc Hcc]].
    + rewrite Hc in Heq. destruct before as [|b before].
      * simplify_eq/=. by exists name, (escapeXml s).
      * injection Heq as Hb Heq. subst b.
        destruct (app_split_notin _ _ _ _ _ Heq) as (p' & -> & Hs);
          [by apply entityNames_spec|].
        by apply (IH p').
    + rewrite Hcc in Heq. destruct before as [|b before].
      * injection Heq as Hb Heq. subst c. by vm_compute in Hc.
      * injection Heq as Hb Heq. subst b. by apply (IH before).
Qed.

(** X2. escapeXml is injective: two texts have the same escaped form
    only when they are equal, so no text is lost by escaping. *)
Theorem escapeXml_injective (a b : jsstring) :
  escapeXml a = escapeXml b ↔ a = b.
Proof.
  split; [|by intros ->].
  revert b. induction a as [|c a IH]; intros [|d b] Heq; [done|..].
  - rewrite escapeXml_cons in Heq.
    destruct (escapeChar_cases d) as [(_ & ? & _ & Hd)|[_ Hd]];
      by rewrite Hd in Heq.
  - rewrite escapeXml_cons in Heq.
    destruct (escapeChar_cases c) as [(_ & ? & _ & Hc)|[_ Hc]];
      by rewrite Hc in Heq.
  - rewrite !escapeXml_cons in Heq.
    apply escapeChar_prefix_free in Heq as [-> Heq].
    f_equal. by apply IH.
Qed.

(** X3. escapeXml returns its argument unchanged exactly when the
    argument holds none of the five characters it replaces (&, <, >,
    double quote, apostrophe). It is not idempotent: escaping an escaped
    text changes it again, unless the first pass changed nothing. *)
Theorem escapeXml_fixed_points (str : jsstring) :
  (escapeXml str = str ↔ Forall (λ c, isXmlSpecial c = false) str)
  ∧ (escapeXml (escapeXml str) = escapeXml str ↔ escapeXml str = str).
Proof.
  split; [apply escapeXml_fixed|].
  split; [|intros H; by rewrite !H].
  intros Heq. apply escapeXml_fixed in Heq. apply escapeXml_fixed.
  apply Forall_forall. intros c Hc.
  destruct (escapeChar_cases c) as [(_ & name & _ & Hname)|[? _]]; [|done].
  rewrite Forall_forall in Heq.
  assert (H38 : (38%N : N) ∈ escapeXml str).
  { rewrite escapeXml_bind. apply list_elem_of_bind. exists c.
    rewrite Hname. split; [left|done]. }
  apply Heq in H38. by vm_compute in H38.
Qed.

End Escaping.

(** *** Voucher generator *)

Section Vouchers.
Context `{RT : Runtime}.

Lemma digitsValue_snoc ds d :
  digitsValue (ds ++ [d]) = (digitsValue ds * 10 + (d - 48))%N.
Proof. unfold digitsValue. by rewrite foldl_app. Qed.

Lemma digitsValue_zeros k ds :
  digitsValue (replicate k 48%N ++ ds) = digitsValue ds.
Proof. induction k as [|k IH]; [done|]. exact IH. Qed.

(** The digit loop prints the number it is given when the fuel covers its
    digits. *)
Lemma decimalLoop_value fuel n acc :
  (n < 10 ^ N.of_nat (S fuel))%N →
  ∃ ds, decimalLoop (S fuel) n acc = ds ++ acc
      ∧ digitsValue ds = n
      ∧ ds ≠ [] ∧ forallb isDigit ds = true.
Proof.
  revert n acc. induction fuel as [|fuel IH]; intros n acc Hn.
  - exists [(48 + n mod 10)%N]. cbn [decimalLoop].
    change (10 ^ N.of_nat 1)%N with 10%N in Hn.
    rewrite (N.div_small n 10), (N.mod_small n 10) by done.
    split; [done|]. split; [unfold digitsValue; simpl; lia|]. split; [done|].
    simpl. rewrite andb_true_r. apply isDigit_range. lia.
  - cbn [decimalLoop]. cbn [decimalLoop] in IH.
    pose proof (N.mod_upper_bound n 10 ltac:(done)) as Hmod.
    pose proof (N.div_mod' n 10) as Hdiv.
    revert Hmod Hdiv. generalize (n mod 10)%N (n / 10)%N. intros r q Hmod Hdiv.
    assert (isDigit (48 + r) = true) as Hd by (apply isDigit_range; lia).
    destruct (N.eqb_spec q 0) as [->|Hq].
    + exists [(48 + r)%N]. split; [done|].
      split; [unfold digitsValue; simpl; lia|]. split; [done|].
      simpl. by rewrite Hd.
    + destruct (IH q ((48 + r)%N :: acc)) as (ds & Heq & Hval & Hne & Hds).
      { rewrite Nat2N.inj_succ, N.pow_succ_r' in Hn. nia. }
      exists (ds ++ [(48 + r)%N]). split.
      { rewrite Heq. by rewrite <- app_assoc. }
      split; [rewrite digitsValue_snoc, Hval; lia|].
      split; [by destruct ds|].
      rewrite forallb_app, Hds. simpl. by rewrite Hd.
Qed.

Lemma decimal_fuel n : (n < 10 ^ N.of_nat (S (N.to_nat (N.log2 n))))%N.
Proof.
  rewrite Nat2N.inj_succ, N2Nat.id.
  destruct (N.eq_dec n 0) as [->|Hn]; [done|].
  pose proof (N.log2_spec n ltac:(lia)) as [_ Hlt].
  eapply N.lt_le_trans; [exact Hlt|].
  apply N.pow_le_mono_l. lia.
Qed.

Lemma decimal_value n :
  digitsValue (decimal n) = n
  ∧ decimal n ≠ [] ∧ forallb isDigit (decimal n) = true.
Proof.
  unfold decimal.
  destruct (decimalLoop_value (N.to_nat (N.log2 n)) n [] (decimal_fuel n))
    as (ds & -> & ? & ? & ?).
  by rewrite app_nil_r.
Qed.

(** An amount the schema admits is printed as digits, a point and two
    digits; the digits are those of the amount in hundredths, rounded. *)
Lemma toFixed2_money x :
  isMoney x = true →
  ∃ whole fraction,
    toFixed2 x = whole ++ js "." ++ fraction
    ∧ whole ≠ [] ∧ forallb isDigit whole = true
    ∧ nDigits 2 fraction = true
    ∧ Z.of_N (digitsValue (whole ++ fraction)) = roundedCents x.
Proof.
  intros H. destruct x as [| |q]; try done.
  cbn [isMoney] in H. cbn [toFixed2 roundedCents].
  apply andb_true_iff in H as [Hpos Hsmall].
  apply negb_true_iff in Hsmall. rewrite Hsmall.
  assert ((Qnum q <? 0)%Z = false) as ->.
  { apply Z.leb_le in Hpos. by destruct (Z.ltb_spec (Qnum q) 0); [lia|]. }
  set (cents := Qfloor (Qabs q * inject_Z 100 + (1 # 2))).
  assert (0 ≤ cents)%Z as Hcents.
  { unfold cents. change 0%Z with (Qfloor 0). apply Qfloor_resp_le.
    apply Z.leb_le in Hpos.
    assert (0 <= Qabs q)%Q by apply Qabs_nonneg.
    assert (0 <= Qabs q * inject_Z 100)%Q
      by (apply Qmult_le_0_compat; done).
    apply Qle_trans with (Qabs q * inject_Z 100)%Q; [done|].
    rewrite <- Qplus_0_r at 1. by apply Qplus_le_r. }
  destruct (decimal_value (Z.to_N cents)) as (Hval & Hne & Hds).
  set (m := padStart 3 48 (decimal (Z.to_N cents))).
  assert (Hm : forallb isDigit m = true ∧ 3 ≤ length m
               ∧ digitsValue m = Z.to_N cents).
  { unfold m, padStart. split; [|split].
    - rewrite forallb_app, Hds, andb_true_r.
      apply forallb_forall. intros x Hx. apply list_elem_of_In in Hx.
      by apply elem_of_replicate in Hx as [-> _].
    - rewrite length_app, length_replicate. lia.
    - by rewrite digitsValue_zeros. }
  destruct Hm as (Hm & Hlen & Hmval).
  set (whole := take (length m - 2) m). set (fraction := drop (length m - 2) m).
  assert (Hparts : whole ++ fraction = m) by apply take_drop.
  assert (Hwhole : whole ≠ [] ∧ forallb isDigit whole = true).
  { split.
    - intros Heq. apply (f_equal length) in Heq. unfold whole in Heq.
      rewrite length_take in Heq. simpl in Heq. lia.
    - rewrite <- Hparts, forallb_app in Hm.
      by apply andb_true_iff in Hm as [? _]. }
  assert (Hfraction : nDigits 2 fraction = true).
  { unfold nDigits, fraction. rewrite length_drop.
    replace (length m - (length m - 2)) with 2 by lia. simpl.
    rewrite <- Hparts, forallb_app in Hm.
    by apply andb_true_iff in Hm as [_ ?]. }
  destruct Hwhole as [Hwne Hwds].
  exists whole, fraction.
  split; [done|]. split; [done|]. split; [done|]. split; [done|].
  cbn [roundedCents]. fold cents. rewrite Hparts, Hmval. by apply Z2N.id.
Qed.

(** The printed amount, with or without a minus sign in front, is read
    by [parseFloat] as the binary64 number nearest to the amount rounded
    to hundredths. *)
Lemma parseFloat_toFixed2 x :
  isMoney x = true →
  parseFloat (toFixed2 x) = toBinary64 (scale10 (roundedCents x) (-2))
  ∧ parseFloat (js "-" ++ toFixed2 x)
    = toBinary64 (scale10 (- roundedCents x) (-2)).
Proof.
  intros H.
  destruct (toFixed2_money x H)
    as (whole & fraction & -> & Hwne & Hwds & Hfraction & Hvalue).
  assert (Hfrac : isFractionText (46%N :: fraction) = true).
  { unfold nDigits in Hfraction. simpl.
    by apply andb_true_iff in Hfraction as [_ ->]. }
  assert (Hlenf : length fraction = 2).
  { unfold nDigits in Hfraction.
    apply andb_true_iff in Hfraction as [Hl _]. by apply Nat.eqb_eq in Hl. }
  destruct whole as [|d ds] eqn:Ew; [done|].
  change (js "." ++ fraction) with (46%N :: fraction).
  split.
  - etrans;
      [exact (parseFloat_decimal [] d ds (46%N :: fraction) eq_refl Hwds Hfrac)|].
    change (drop 1 (46%N :: fraction)) with fraction. cbv zeta.
    change (isMinus []) with false. cbv iota.
    by rewrite Hvalue, Hlenf.
  - etrans;
      [exact (parseFloat_decimal (js "-") d ds (46%N :: fraction)
                eq_refl Hwds Hfrac)|].
    change (drop 1 (46%N :: fraction)) with fraction. cbv zeta.
    change (isMinus (js "-")) with true. cbv iota.
    by rewrite Hvalue, Hlenf.
Qed.

End Vouchers.

(** *** Voucher generator: the text of a voucher, read back *)

Section Reading.









End Reading.



Section VoucherText.
Context `{RT : Runtime}.


End VoucherText.

Section VoucherReading.
Context `{RT : Runtime}.

Lemma startsWith_refl s : startsWith s s = true.
Proof. induction s as [|c r IH]; [done|]. cbn. by rewrite N.eqb_refl. Qed.











End VoucherReading.

(** *** Response recoverer *)

Section Recoverer.
Context `{RT : Runtime}.

Lemma blank_test responseText :
  bool_decide (responseText = []) || (length (trim responseText) =? 0) = true
  ↔ trim responseText = [].
Proof.
  split.
  - intros H. apply orb_true_iff in H as [H|H].
    + apply bool_decide_eq_true in H. by subst.
    + apply Nat.eqb_eq in H. by destruct (trim responseText).
  - intros ->. apply orb_true_r.
Qed.

(** C2 (amended). The recoverer of the streaming PDF route returns a value
    for every text and never throws: the empty transaction list when the
    text is blank; otherwise what JSON.parse makes of the recovered
    slice, else the transactions array found in the text, else the empty
    transaction list when both parses fail.  The recoverer of the image
    route throws on a blank text, and on any other text it throws exactly
    when JSON.parse fails on each of the texts it hands to it. *)
Theorem recovery_total_in_pdf_route :
  (∀ responseText, ∃ v,
     PdfRoute.parseAIResponse responseText = Ok v
     ∧ (trim responseText = [] → v = emptyResult)
     ∧ (trim responseText ≠ [] → ∀ parsed,
          JSON_parse (jsonCandidate responseText) = Some parsed → v = parsed)
     ∧ (trim responseText ≠ [] → ∀ arrayMatch items,
          JSON_parse (jsonCandidate responseText) = None →
          matchSpan 91 93 responseText = Some arrayMatch →
          JSON_parse arrayMatch = Some items → v = transactionsOnly items)
     ∧ (JSON_parse (jsonCandidate responseText) = None →
        (∀ arrayMatch, matchSpan 91 93 responseText = Some arrayMatch →
                       JSON_parse arrayMatch = None) →
        v = emptyResult))
  ∧ (∀ responseText, trim responseText = [] →
       ImageRoute.parseAIResponse responseText
       = Throw (js "AI returned empty response"))
  ∧ (∀ responseText, trim responseText ≠ [] →
       (∃ message, ImageRoute.parseAIResponse responseText = Throw message)
       ↔ ∀ s, s ∈ imageCandidates responseText → JSON_parse s = None).
Proof.
  split; [|split].
  - intros responseText. unfold PdfRoute.parseAIResponse.
    destruct (bool_decide _ || _) eqn:Eblank.
    { apply blank_test in Eblank. exists emptyResult. repeat split; done. }
    assert (trim responseText ≠ []) as Hne.
    { intros H. apply blank_test in H. congruence. }
    unfold JSON_parse_exc.
    destruct (JSON_parse (jsonCandidate responseText)) as [parsed|] eqn:E1;
      simpl.
    { exists parsed. repeat split; try done.
      intros _ p [= ->]. done. }
    destruct (matchSpan 91 93 responseText) as [arrayMatch|] eqn:E2; simpl.
    + destruct (JSON_parse arrayMatch) as [items|] eqn:E3; simpl.
      * exists (transactionsOnly items). repeat split; try done.
        -- intros _ a items' _ [= <-] Hitems. congruence.
        -- intros _ Hnone. specialize (Hnone _ eq_refl). congruence.
      * exists emptyResult. repeat split; try done.
        intros _ a items' _ [= <-] Hitems. congruence.
    + exists emptyResult. repeat split; done.
  - intros responseText Hblank. unfold ImageRoute.parseAIResponse.
    apply blank_test in Hblank. by rewrite Hblank.
  - intros responseText Hne.
    unfold ImageRoute.parseAIResponse, imageCandidates.
    destruct (bool_decide _ || _) eqn:Eblank.
    { by apply blank_test in Eblank. }
    cbv zeta. unfold JSON_parse_exc.
    destruct (matchSpan 123 125 _) as [objectMatch|];
      [|destruct (matchSpan 91 93 _) as [arrayMatch|]];
      destruct (ImageRoute.matchTransactionsField responseText) as [fallback|];
      repeat match goal with
             | |- context [JSON_parse ?s] => destruct (JSON_parse s) eqn:?
             end;
      cbn;
      (split;
       [intros [message Hthrow]; try discriminate; intros s Hs;
        repeat (apply elem_of_cons in Hs as [->|Hs]); try done;
        by apply elem_of_nil in Hs
       |intros Hall;
        first
          [by eexists
          |exfalso;
           match goal with
           | H : JSON_parse ?c = Some _ |- _ =>
             rewrite (Hall c) in H by set_solver; discriminate
           end]]).
Qed.

End Recoverer.

(** *** Extraction orchestrator *)

Section Orchestrator.
Context `{RT : Runtime} `{SV : Services}.





















(** The retry loop ends: every iteration either succeeds or uses up one
    of the MAX_RETRIES + 1 attempts. *)
Lemma retryLoop_total fuel apiProvider chunk i total (chunkSuccess : bool)
    retries st :
  (if chunkSuccess then 0 else S MAX_RETRIES - retries) < fuel →
  ∃ st', retryLoop fuel apiProvider chunk i total chunkSuccess retries st
         = Some st'.
Proof.
  revert chunkSuccess retries st.
  induction fuel as [|fuel IH]; intros chunkSuccess retries st Hfuel; [lia|].
  cbn [retryLoop]. destruct chunkSuccess; simpl; [eauto|].
  destruct (Nat.leb_spec retries MAX_RETRIES) as [Hle|Hgt]; [|eauto].
  destruct (attempt apiProvider chunk i total st) as [[[]|errorMsg] st1].
  - apply IH. lia.
  - destruct (isRateLimit errorMsg); [apply IH; lia|].
    destruct (MAX_RETRIES <? S retries); [eauto|apply IH; lia].
Qed.

Lemma processChunks_total fuel apiProvider rest i total st :
  MAX_RETRIES + 2 ≤ fuel →
  ∃ st', processChunks fuel apiProvider rest i total st = Some st'.
Proof.
  intros Hfuel. revert i st.
  induction rest as [|chunk rest IH]; intros i st; cbn [processChunks];
    [eauto|].
  destruct (retryLoop_total fuel apiProvider chunk i total false 0
              (emit (Enqueue (EvProgress
                 (js "Processing chunk " ++ natStr (i + 1) ++ js "/"
                  ++ natStr total ++ js " (" ++ apiProvider ++ js ")...")
                 (i + 1) total)) st)) as [st1 ->]; [unfold MAX_RETRIES in *; lia|].
  cbn [mbind option_bind]. apply IH.
Qed.


(** More fuel does not change the result of a loop that has ended. *)
Lemma retryLoop_fuel fuel extra apiProvider chunk i total chunkSuccess retries
    st st' :
  retryLoop fuel apiProvider chunk i total chunkSuccess retries st = Some st' →
  retryLoop (fuel + extra) apiProvider chunk i total chunkSuccess retries st
  = Some st'.
Proof.
  revert chunkSuccess retries st.
  induction fuel as [|fuel IH]; intros chunkSuccess retries st; [done|].
  cbn [retryLoop Nat.add].
  destruct (negb chunkSuccess && (retries <=? MAX_RETRIES)); [|done].
  destruct (attempt apiProvider chunk i total st) as [[[]|errorMsg] st1].
  - apply IH.
  - destruct (isRateLimit errorMsg); [apply IH|].
    destruct (MAX_RETRIES <? S retries); [done|apply IH].
Qed.

Lemma processChunks_fuel fuel extra apiProvider rest i total st st' :
  processChunks fuel apiProvider rest i total st = Some st' →
  processChunks (fuel + extra) apiProvider rest i total st = Some st'.
Proof.
  revert i st. induction rest as [|chunk rest IH]; intros i st;
    cbn [processChunks]; [done|].
  destruct (retryLoop fuel _ _ _ _ _ _ _) as [st1|] eqn:Hloop;
    cbn [mbind option_bind]; [|done].
  rewrite (retryLoop_fuel _ extra _ _ _ _ _ _ _ _ Hloop).
  cbn [mbind option_bind]. apply IH.
Qed.

Lemma start_fuel fuel extra apiProvider file out :
  start fuel apiProvider file = Some out →
  start (fuel + extra) apiProvider file = Some out.
Proof.
  unfold start. destruct file as [totalPages|message]; [|done].
  destruct (splitPdfIntoChunks _ _) as [chunks|]; cbn [mbind option_bind];
    [|done].
  destruct (processChunks fuel _ _ _ _ _) as [st|] eqn:Hrun;
    cbn [mbind option_bind]; [|done].
  by rewrite (processChunks_fuel _ extra _ _ _ _ _ _ Hrun).
Qed.

(** Rate-limit failures use up the retry budget like any other failure:
    after MAX_RETRIES + 1 of them in a row the loop leaves the chunk, and
    it does so without recording a warning. *)
Lemma rate_limits_exhaust_budget fuel chunk i total st :
  MAX_RETRIES + 2 ≤ fuel →
  (∀ n, calls st ≤ n < calls st + 3 →
        ∃ message, processChunkWithGemini n chunk (i + 1) total = Failed message
                 ∧ isRateLimit message = true) →
  ∃ st', retryLoop fuel (js "gemini") chunk i total false 0 st = Some st'
       ∧ calls st' = calls st + 3
       ∧ warnings st' = warnings st
       ∧ bankName st' = bankName st
       ∧ output st'
         = output st ++ rateLimitNotice i total ++ rateLimitNotice i total
           ++ rateLimitNotice i total.
Proof.
  intros Hfuel Hfail.
  assert (Hstep : ∀ s, calls st ≤ calls s < calls st + 3 →
    ∃ message,
      attempt (js "gemini") chunk i total s
      = (Throw message,
         {| warnings := warnings s; bankName := bankName s;
            output := output s; idsIssued := idsIssued s;
            calls := S (calls s) |})
      ∧ isRateLimit message = true).
  { intros s Hs. destruct (Hfail _ Hs) as (message & Hcall & Hrate).
    exists message. split; [|done].
    unfold attempt, bind at 1, obtainResponse.
    change (isGemini (js "gemini")) with true. cbv iota.
    unfold await. by rewrite Hcall. }
  destruct fuel as [|[|[|[|fuel]]]]; unfold MAX_RETRIES in Hfuel; try lia.
  cbn [retryLoop negb andb]. change (0 <=? MAX_RETRIES) with true. cbv iota.
  destruct (Hstep st) as (m1 & -> & ->); [lia|].
  change (1 <=? MAX_RETRIES) with true. cbv iota.
  match goal with |- context [attempt _ _ _ _ ?s] =>
    destruct (Hstep s) as (m2 & -> & ->); [simpl; lia|] end.
  change (2 <=? MAX_RETRIES) with true. cbv iota.
  match goal with |- context [attempt _ _ _ _ ?s] =>
    destruct (Hstep s) as (m3 & -> & ->); [simpl; lia|] end.
  change (3 <=? MAX_RETRIES) with false. cbv iota.
  eexists. split; [reflexivity|]. cbn [calls warnings bankName output emit].
  split; [lia|]. split; [done|]. split; [done|].
  unfold rateLimitNotice. by rewrite <- !app_assoc.
Qed.

End Orchestrator.

(** C1. A chunk whose extraction call keeps failing with a quota error is
    attempted MAX_RETRIES + 1 = 3 times, each followed by the 32 s
    pause, and is then left behind: the run completes with no
    transactions for it and with no warning.  More fuel changes
    nothing. *)
Theorem rate_limited_chunk_is_dropped (extra : nat) :
  start (RT:=refRuntime) (SV:=quotaExceeded)
        (MAX_RETRIES + 2 + extra) (js "gemini") (Loaded 1)
  = Some ([Enqueue (EvProgress
             (js "Analyzing PDF structure and splitting pages...") 0 0);
           Enqueue (EvProgress
             (js "Split PDF into 1 chunks. Starting processing...") 0 1);
           Enqueue (EvProgress (js "Processing chunk 1/1 (gemini)...") 1 1)]
          ++ rateLimitNotice 0 1 ++ rateLimitNotice 0 1 ++ rateLimitNotice 0 1
          ++ [Enqueue (EvComplete [] JUndefined); Close]).
Proof. apply start_fuel. vm_compute. reflexivity. Qed.

(** *** The theorems at sample inputs *)

Lemma chunker_partitions_pages_five_by_two :
  1 ≤ 2 ∧ splitPdfIntoChunks 5 2 = Some [[0; 1]; [2; 3]; [4]].
Proof.
  split; [lia|].
  destruct (chunker_partitions_pages 5 2 ltac:(lia)) as (chunks & Hrun & _).
  rewrite Hrun. vm_compute in Hrun. by injection Hrun as <-.
Defined.

Lemma two_digit_year_pivot_sample :
  parseDate (RT:=refRuntime) (js "15-6-99") = js "1999-06-15"
  ∧ parseDate (RT:=refRuntime) (js "15/6/49") = js "2049-06-15".
Proof.
  split.
  - exact (two_digit_year_pivot (RT:=refRuntime) (js "15") (js "6") (js "99")
             45 45 eq_refl eq_refl eq_refl eq_refl eq_refl).
  - exact (two_digit_year_pivot (RT:=refRuntime) (js "15") (js "6") (js "49")
             47 47 eq_refl eq_refl eq_refl eq_refl eq_refl).
Defined.

(** C5, as stated, fails at the year 50: the code places it in the 2000s. *)
Lemma two_digit_year_50_is_2050 :
  parseDate (RT:=refRuntime) (js "1/1/50") = js "2050-01-01"
  ∧ parseDate (RT:=refRuntime) (js "1/1/50") ≠ js "1950-01-01".
Proof. split; [by vm_compute|]. vm_compute. discriminate. Qed.

Lemma refRuntime_date_round_trip s iso :
  Date_toISODate (Runtime:=refRuntime) s = Some iso →
  matchClasses isoPattern iso = true
  ∨ (matchClasses expandedYearPattern iso = true
     ∧ Date_toISODate (Runtime:=refRuntime) iso = Some iso).
Proof.
  cbn [Date_toISODate refRuntime]. unfold tableLookup, sampleDates.
  cbn [find]. destruct (bool_decide _); [|done].
  intros [= <-]. by left.
Defined.

Lemma parseDate_idempotent_sample :
  parseDate (RT:=refRuntime) (parseDate (RT:=refRuntime) (js " 5 Jan 2024 "))
  = parseDate (RT:=refRuntime) (js " 5 Jan 2024 ")
  ∧ parseDate (RT:=refRuntime) (js "5/6/2024") = js "2024-06-05"
  ∧ parseDate (RT:=refRuntime) (js "5-6-2024") = js "2024-06-05".
Proof.
  destruct (parseDate_idempotent (RT:=refRuntime) refRuntime_date_round_trip)
    as [Hidem Hforms].
  split; [apply Hidem|].
  exact (Hforms (js "5") (js "6") (js "2024") eq_refl eq_refl eq_refl).
Defined.



Lemma findDuplicates_marks_groups_sample :
  js "a" ∈ findDuplicates (RT:=refRuntime) sampleStatement
  ∧ js "b" ∈ findDuplicates (RT:=refRuntime) sampleStatement
  ∧ js "c" ∉ findDuplicates (RT:=refRuntime) sampleStatement.
Proof.
  destruct (findDuplicates_marks_groups (RT:=refRuntime) sampleStatement)
    as (Hboth & _ & Hfields).
  destruct (Hboth 0 1 _ _ ltac:(lia) eq_refl eq_refl) as [Ha Hb].
  { by repeat split. }
  split; [exact Ha|]. split; [exact Hb|].
  intros Hc. apply Hfields in Hc.
  - destruct Hc as (i & j & a & b & Hij & Hi & Hj & Hid & _ & Hdesc & _).
    destruct i as [|[|[|i]]]; try done; injection Hi as <-; try done.
    destruct j as [|[|[|j]]]; try done; injection Hj as <-; done.
  - intros tx Htx. apply list_elem_of_In in Htx.
    repeat destruct Htx as [<-|Htx]; try done;
      repeat split; rewrite list_elem_of_In; vm_compute; intuition discriminate.
Defined.

(** C6, as stated, fails when a field holds a vertical bar: two
    transactions that differ in description, debit, credit and reference
    have the same key text, and both are in the set. *)
Lemma bar_in_a_field_collides :
  ¬ sameFields (RT:=refRuntime) barInReference barInDescription
  ∧ tx_debit barInReference ≠ tx_debit barInDescription
  ∧ getDuplicateKey (RT:=refRuntime) barInReference
    = js "2024-06-15|x|1|0|7|8"
  ∧ getDuplicateKey (RT:=refRuntime) barInDescription
    = js "2024-06-15|x|1|0|7|8"
  ∧ js "p" ∈ findDuplicates (RT:=refRuntime) [barInReference; barInDescription]
  ∧ js "q" ∈ findDuplicates (RT:=refRuntime) [barInReference; barInDescription].
Proof.
  split; [|split; [|split; [|split]]].
  - intros (_ & Hdesc & _). by vm_compute in Hdesc.
  - intros Heq. by vm_compute in Heq.
  - by vm_compute.
  - by vm_compute.
  - split; apply findDuplicates_spec.
    + exists barInReference. split; [set_solver|]. split; [done|].
      vm_compute. lia.
    + exists barInDescription. split; [set_solver|]. split; [done|].
      vm_compute. lia.
Qed.



Lemma recovery_total_in_pdf_route_sample :
  PdfRoute.parseAIResponse (RT:=refRuntime) [] = Ok emptyResult
  ∧ PdfRoute.parseAIResponse (RT:=refRuntime) (js "Sorry, I cannot read this page.")
    = Ok emptyResult
  ∧ PdfRoute.parseAIResponse (RT:=refRuntime)
      (js "Here is the data: ```json" ++ nl ++ sampleDocument ++ nl ++ js "```")
    = Ok (JObject [(js "transactions", JArray []);
                   (js "bankName", JString (js "HDFC"))])
  ∧ ImageRoute.parseAIResponse (RT:=refRuntime) (js "  ")
    = Throw (js "AI returned empty response")
  ∧ ∃ message,
      ImageRoute.parseAIResponse (RT:=refRuntime)
        (js "Sorry, I cannot read this page.")
      = Throw message.
Proof.
  destruct (recovery_total_in_pdf_route (RT:=refRuntime))
    as (Hpdf & Himage & Hthrows).
  split; [|split; [|split; [|split]]].
  - destruct (Hpdf []) as (v & -> & Hblank & _). by rewrite Hblank.
  - destruct (Hpdf (js "Sorry, I cannot read this page."))
      as (v & -> & _ & _ & _ & Hfail).
    rewrite Hfail; [done|done|]. intros arrayMatch Hmatch. by vm_compute in Hmatch.
  - destruct (Hpdf (js "Here is the data: ```json" ++ nl ++ sampleDocument
                    ++ nl ++ js "```"))
      as (v & -> & _ & Hparsed & _).
    rewrite (Hparsed ltac:(by vm_compute) _ eq_refl). done.
  - exact (Himage (js "  ") eq_refl).
  - apply (Hthrows (js "Sorry, I cannot read this page.")); [by vm_compute|].
    intros s Hs. vm_compute in Hs.
    apply list_elem_of_singleton in Hs. by subst s.
Defined.

(** C2, as stated, fails for the image route: its recoverer throws on an
    empty text. *)
Lemma image_recoverer_throws_on_empty :
  ImageRoute.parseAIResponse (RT:=refRuntime) []
  = Throw (js "AI returned empty response").
Proof. by vm_compute. Qed.


(* ===================================================================== *)
(** ** Part III. Further properties of the code                          *)
(* ===================================================================== *)

(** Settles the comparisons of two literals. *)
Ltac compare_literals :=
  repeat match goal with
         | |- context [bool_decide (js ?a = js ?b)] =>
           let v := eval vm_compute in (bool_decide (js a = js b)) in
           change (bool_decide (js a = js b)) with v
         end;
  cbv iota.

(** *** Amounts *)

Section AmountRange.

Lemma Math_abs_range x :
  lt0 (Math_abs x) = false
  ∧ isNaN (Math_abs x) = isNaN x
  ∧ Math_abs (Math_abs x) = Math_abs x.
Proof.
  destruct x as [|negative|q]; [done..|].
  cbn [Math_abs lt0 isNaN].
  destruct (Qnum q <? 0)%Z eqn:Hq.
  - assert (Hneg : (Qnum (- q)%Qc <? 0)%Z = false).
    { change (Qnum (- q)%Qc) with (Qnum (Qred (- q))).
      rewrite Qred_sign. cbn [Qopp Qnum].
      apply Z.ltb_lt in Hq. apply Z.ltb_ge. lia. }
    by rewrite Hneg.
  - by rewrite Hq.
Qed.

Lemma parseAmount_string s :
  parseAmount (AString s) = zero
  ∨ ∃ x, isNaN x = false ∧ parseAmount (AString s) = Math_abs x.
Proof.
  destruct s as [|c s]; [by left|]. cbn [parseAmount].
  destruct (isNaN (parseFloat (cleanAmount (c :: s)))) eqn:Hnan;
    [by left|right; eauto].
Qed.

Lemma parseAmount_nonneg amountStr : lt0 (parseAmount amountStr) = false.
Proof.
  destruct amountStr as [s|n]; [|apply Math_abs_range].
  destruct (parseAmount_string s) as [->|(x & _ & ->)];
    [done|apply Math_abs_range].
Qed.

Lemma parseAmount_string_number s : isNaN (parseAmount (AString s)) = false.
Proof.
  destruct (parseAmount_string s) as [->|(x & Hx & ->)]; [done|].
  destruct (Math_abs_range x) as (_ & -> & _). done.
Qed.

(** X4. parseAmount never returns a negative number; it returns NaN only
    when it is given the number NaN itself, never for a string; and
    applied to its own result it returns that result. *)
Theorem parseAmount_range (amountStr : Amount) :
  lt0 (parseAmount amountStr) = false
  ∧ (isNaN (parseAmount amountStr) = true ↔ amountStr = ANumber NaN)
  ∧ parseAmount (ANumber (parseAmount amountStr)) = parseAmount amountStr.
Proof.
  split; [apply parseAmount_nonneg|]. split.
  - destruct amountStr as [s|n].
    + rewrite parseAmount_string_number. by split.
    + cbn [parseAmount]. destruct (Math_abs_range n) as (_ & -> & _).
      destruct n; by split.
  - destruct amountStr as [s|n]; [|apply Math_abs_range].
    destruct (parseAmount_string s) as [->|(x & _ & ->)];
      [done|apply Math_abs_range].
Qed.

End AmountRange.

Section AmountRoundTrip.
Context `{RT : Runtime}.

(** The nearest integer is at most one half away. *)
Lemma roundHalfEven_near n d :
  (0 ≤ n)%Z → (0 < d)%Z →
  (Z.abs (2 * roundHalfEven n d * d - 2 * n) ≤ d)%Z.
Proof.
  intros Hn Hd. unfold roundHalfEven.
  pose proof (Z.div_mod n d ltac:(lia)) as Hdiv.
  pose proof (Z.mod_pos_bound n d Hd) as Hmod.
  repeat match goal with
         | |- context [if ?b then _ else _] => destruct b eqn:?
         end;
    rewrite ?Z.ltb_lt, ?Z.ltb_ge in *; nia.
Qed.

(** The parts of a reduced fraction are not larger than those of the
    fraction. *)
Lemma Qred_parts a b :
  (0 ≤ a)%Z →
  (0 ≤ Qnum (Qred (a # b)) ≤ a)%Z
  ∧ (Qnum (Qred (a # b)) * Z.pos b = a * Z.pos (Qden (Qred (a # b))))%Z.
Proof.
  intros Ha. split.
  - unfold Qred.
    pose proof (Z.ggcd_correct_divisors a (Z.pos b)) as Hdiv.
    pose proof (Z.ggcd_gcd a (Z.pos b)) as Hgcd.
    pose proof (Z.gcd_nonneg a (Z.pos b)) as Hpos.
    destruct (Z.ggcd a (Z.pos b)) as [g [aa bb]].
    cbn [fst snd] in *. destruct Hdiv as [Haa Hbb]. cbn [Qnum].
    assert (Hg : (0 ≤ g)%Z) by (rewrite Hgcd; exact Hpos).
    clear Hgcd Hpos.
    assert (Hg1 : (1 ≤ g)%Z).
    { destruct (Z.eq_dec g 0) as [->|]; [|lia].
      rewrite Z.mul_0_l in Hbb. discriminate Hbb. }
    clear Hbb.
    assert (Haa0 : (0 ≤ aa)%Z) by nia.
    split; nia.
  - pose proof (Qred_correct (a # b)) as H. unfold Qeq in H.
    cbn [Qnum Qden] in H. exact H.
Qed.

(** A small amount is rounded to a multiple of a unit of at most 2^-7. *)
Lemma toBinary64_small (x : Qc) :
  (0 < Qnum x < 2 ^ 46)%Z →
  ∃ e,
    (-1074 ≤ e ≤ -7)%Z
    ∧ toBinary64 x
      = Fin (scale2 (roundHalfEven (Qnum x * 2 ^ (- e)) (Z.pos (Qden x))) e).
Proof.
  intros [Hpos Hsmall]. unfold toBinary64. cbv zeta.
  rewrite (Z.abs_eq (Qnum x)) by lia.
  destruct (Z.eqb_spec (Qnum x) 0) as [|_]; [lia|].
  set (f := floorLog2 (Qnum x) (Z.pos (Qden x))).
  assert (Hf : (f ≤ 45)%Z).
  { unfold f, floorLog2. cbv zeta.
    pose proof (proj1 (Z.log2_lt_pow2 (Qnum x) 46 Hpos) Hsmall).
    pose proof (Z.log2_nonneg (Z.pos (Qden x))).
    destruct (if (0 <=? _)%Z then _ else _); lia. }
  set (e := Z.max (f - 52) (-1074)).
  assert (He : (-1074 ≤ e ≤ -7)%Z) by lia.
  exists e. split; [done|].
  destruct (Z.leb_spec 0 e) as [|_]; [lia|].
  destruct (Z.ltb_spec 971 e) as [|_]; [lia|].
  destruct (Z.eqb_spec e 971) as [|_]; [lia|].
  destruct (Z.ltb_spec (Qnum x) 0) as [|_]; [lia|].
  done.
Qed.


(** The binary64 number nearest to an amount of whole hundredths below
    10^11 is a fraction m/P that is less than half a hundredth away. *)
Lemma binary64_cents (cents : Z) :
  (0 ≤ cents < 10 ^ 13)%Z →
  ∃ q m P,
    toBinary64 (scale10 cents (-2)) = Fin q
    ∧ (0 ≤ Qnum q)%Z ∧ (128 ≤ P)%Z ∧ (0 ≤ m)%Z
    ∧ (this q == m # Z.to_pos P)%Q
    ∧ (Z.abs (200 * m - 2 * cents * P) ≤ 100)%Z.
Proof.
  intros [Hc Hlt].
  assert (Hx : scale10 cents (-2) = Q2Qc (cents # 100)) by done.
  destruct (Qred_parts cents 100 Hc) as [[Hn0 Hnc] Hnd].
  set (n := Qnum (Qred (cents # 100))) in *.
  set (d := Z.pos (Qden (Qred (cents # 100)))) in *.
  assert (Hd : (0 < d)%Z) by (unfold d; lia).
  destruct (Z.eq_dec cents 0) as [->|Hne].
  - exists 0%Qc, 0%Z, 128%Z. split; [by vm_compute|].
    split; [done|]. split; [done|]. split; [done|]. split; [done|]. done.
  - assert (Hn : (0 < n)%Z) by nia.
    destruct (toBinary64_small (scale10 cents (-2))) as (e & He & Hv).
    { rewrite Hx. change (Qnum (Q2Qc (cents # 100))) with n.
      split; [done|]. change (2 ^ 46)%Z with 70368744177664%Z.
      change (10 ^ 13)%Z with 10000000000000%Z in Hlt. lia. }
    rewrite Hx in Hv.
    change (Qnum (Q2Qc (cents # 100))) with n in Hv.
    change (Z.pos (Qden (Q2Qc (cents # 100)))) with d in Hv.
    set (P := (2 ^ (- e))%Z) in *.
    assert (HP : (128 ≤ P)%Z).
    { change 128%Z with (2 ^ 7)%Z. unfold P.
      apply Z.pow_le_mono_r; lia. }
    set (m := roundHalfEven (n * P) d) in *.
    assert (Hm : (0 ≤ m)%Z) by (apply roundHalfEven_nonneg; nia).
    pose proof (roundHalfEven_near (n * P) d ltac:(nia) Hd) as Hnear.
    fold m in Hnear.
    exists (scale2 m e), m, P.
    assert (Hs : scale2 m e = Q2Qc (m # Z.to_pos P)).
    { unfold scale2. by destruct (Z.leb_spec 0 e); [lia|]. }
    split; [rewrite Hx; exact Hv|].
    split.
    { rewrite Hs. apply (Qred_parts m (Z.to_pos P) Hm). }
    split; [done|]. split; [done|].
    split.
    { rewrite Hs. apply Qred_correct. }
    assert (Hscaled : (Z.abs (200 * m - 2 * cents * P) * d ≤ 100 * d)%Z).
    { rewrite <- (Z.abs_eq d) at 1 by lia. rewrite <- Z.abs_mul.
      replace ((200 * m - 2 * cents * P) * d)%Z
        with (100 * (2 * m * d - 2 * (n * P)))%Z by nia.
      rewrite Z.abs_mul. change (Z.abs 100) with 100%Z. lia. }
    nia.
Qed.

Lemma binary64_cents_rounded (cents : Z) :
  (0 ≤ cents < 10 ^ 13)%Z →
  isMoney (toBinary64 (scale10 cents (-2))) = true
  ∧ roundedCents (toBinary64 (scale10 cents (-2))) = cents.
Proof.
  intros Hc.
  destruct (binary64_cents cents Hc)
    as (q & m & P & -> & Hq & HP & Hm & Hval & Hnear).
  assert (Habs : (Qabs q == m # Z.to_pos P)%Q).
  { rewrite <- Hval. apply Qabs_pos. unfold Qle. cbn [Qnum Qden]. lia. }
  assert (Hpos : Z.pos (Z.to_pos P) = P) by (apply Z2Pos.id; lia).
  change (10 ^ 13)%Z with 10000000000000%Z in Hc.
  split.
  - cbn [isMoney]. apply andb_true_iff. split; [by apply Z.leb_le|].
    apply negb_true_iff, not_true_is_false. intros Hle.
    apply Qle_bool_iff in Hle. rewrite Habs in Hle.
    unfold Qle in Hle. cbn [Qnum Qden inject_Z] in Hle.
    rewrite Hpos in Hle.
    change (10 ^ 21)%Z with 1000000000000000000000%Z in Hle. nia.
  - cbn [roundedCents].
    assert (Heq : (Qabs q * inject_Z 100 + (1 # 2)
                   == (200 * m + P) # (2 * Z.to_pos P))%Q).
    { rewrite Habs. unfold Qeq, Qmult, Qplus, inject_Z.
      cbn [Qnum Qden]. rewrite !Pos2Z.inj_mul, Hpos. lia. }
    rewrite Heq. unfold Qfloor. rewrite Pos2Z.inj_mul, Hpos.
    symmetry. apply (Z.div_unique _ _ _ (200 * m + P - 2 * cents * P)); lia.
Qed.


(** X5. An amount of whole hundredths, not negative and below 10^11, as
    JavaScript holds it (the binary64 number nearest to it), printed with
    toFixed(2) as generateVoucherXml prints it, with or without the minus
    sign in front, is read by parseAmount as the same number. *)
Theorem printed_amount_reads_back (cents : Z) :
  (0 ≤ cents < 10 ^ 13)%Z →
  let amount := toBinary64 (scale10 cents (-2)) in
  parseAmount (AString (toFixed2 amount)) = amount
  ∧ parseAmount (AString (js "-" ++ toFixed2 amount)) = amount.
Proof.
  intros Hc amount.
  destruct (binary64_cents_rounded cents Hc) as [Hmoney Hr]. fold amount in Hmoney, Hr.
  destruct (parseFloat_toFixed2 amount Hmoney) as [Hplus Hminus].
  rewrite Hr in Hplus, Hminus.
  destruct (toFixed2_money amount Hmoney)
    as (whole & fraction & Hprint & Hne & Hwhole & Hfraction & _).
  assert (Hfrac : isFractionText (js "." ++ fraction) = true).
  { change (js "." ++ fraction) with (46%N :: fraction).
    unfold nDigits in Hfraction. cbn [isFractionText].
    by apply andb_true_iff in Hfraction as [_ ->]. }
  assert (Hbody : forallb (λ c, isDigit c || isComma c) whole = true).
  { eapply forallb_impl; [|exact Hwhole]. by intros c ->. }
  assert (Hex : existsb isDigit whole = true).
  { destruct whole as [|d ds]; [done|]. cbn [existsb forallb] in *.
    by apply andb_true_iff in Hwhole as [-> _]. }
  assert (Hcommas : removeChars isComma whole = whole).
  { apply removeChars_none. eapply forallb_impl; [|exact Hwhole].
    intros c Hd. unfold isComma. apply negb_true_iff, N.eqb_neq.
    apply isDigit_range in Hd. lia. }
  assert (Hclean : ∀ sign, isSignText sign = true →
            cleanAmount (sign ++ toFixed2 amount) = sign ++ toFixed2 amount).
  { intros sign Hsign.
    pose proof (cleanAmount_decimal [] sign whole (js "." ++ fraction) [] []
                  eq_refl Hsign Hbody Hex Hfrac eq_refl eq_refl) as Hcl.
    rewrite !app_nil_r in Hcl. cbn [app] in Hcl.
    by rewrite Hcommas, <- Hprint in Hcl. }
  assert (Hnonempty : ∀ sign, ∃ c s, sign ++ toFixed2 amount = c :: s).
  { intros sign. rewrite Hprint. destruct sign; [|by eauto].
    destruct whole; [done|]. by eauto. }
  split.
  - destruct (Hnonempty []) as (c & s & Hcs). cbn [app] in Hcs.
    rewrite Hcs. cbn [parseAmount]. rewrite <- Hcs.
    pose proof (Hclean [] eq_refl) as Hcl. cbn [app] in Hcl.
    rewrite Hcl, Hplus. rewrite toBinary64_number.
    apply (Math_abs_toBinary64_scale10 false). lia.
  - destruct (Hnonempty (js "-")) as (c & s & Hcs).
    rewrite Hcs. cbn [parseAmount]. rewrite <- Hcs.
    rewrite (Hclean (js "-") eq_refl). rewrite Hminus.
    rewrite toBinary64_number.
    apply (Math_abs_toBinary64_scale10 true). lia.
Qed.

End AmountRoundTrip.

Lemma printed_amount_reads_back_sample :
  (0 ≤ 123456 < 10 ^ 13)%Z
  ∧ toBinary64 (scale10 123456 (-2)) = Fin (scale2 5429652300748554 (-42))
  ∧ toFixed2 (RT:=refRuntime) (toBinary64 (scale10 123456 (-2)))
    = js "1234.56"
  ∧ parseAmount
      (AString (toFixed2 (RT:=refRuntime) (toBinary64 (scale10 123456 (-2)))))
    = toBinary64 (scale10 123456 (-2)).
Proof.
  split; [lia|]. split; [by vm_compute|]. split; [by vm_compute|].
  apply (printed_amount_reads_back (RT:=refRuntime) 123456). lia.
Defined.

(** *** Dates *)

Section MoreDates.
Context `{RT : Runtime}.

Lemma dropWhile_app_all p a s :
  forallb p a = true → dropWhile p (a ++ s) = dropWhile p s.
Proof.
  induction a as [|c a IH]; [done|]. cbn [forallb app dropWhile].
  intros [-> Ha]%andb_true_iff. by apply IH.
Qed.

Lemma dropWhile_app_stop p s t :
  dropWhile p s ≠ [] → dropWhile p (s ++ t) = dropWhile p s ++ t.
Proof.
  induction s as [|c s IH]; [done|]. cbn [app dropWhile].
  destruct (p c); [apply IH|done].
Qed.

Lemma trimEnd_app_all s b : forallb isSpace b = true → trimEnd (s ++ b) = trimEnd s.
Proof.
  intros Hb. unfold trimEnd. rewrite reverse_app. f_equal.
  apply dropWhile_app_all.
  apply forallb_forall. intros x Hx. rewrite forallb_forall in Hb.
  apply Hb. apply list_elem_of_In. apply list_elem_of_In in Hx.
  by rewrite elem_of_reverse in Hx.
Qed.

Lemma trimEnd_all s : forallb isSpace s = true → trimEnd s = [].
Proof.
  intros Hs. rewrite <- (app_nil_l s). by rewrite trimEnd_app_all.
Qed.

Lemma trim_padded a s b :
  forallb isSpace a = true → forallb isSpace b = true →
  trim (a ++ s ++ b) = trim s.
Proof.
  intros Ha Hb. unfold trim, trimStart.
  rewrite dropWhile_app_all by done.
  destruct (dropWhile isSpace s) as [|c r] eqn:Hs.
  - assert (Hall : forallb isSpace s = true).
    { clear -Hs. induction s as [|x s IH]; [done|].
      cbn [dropWhile forallb] in *. destruct (isSpace x); [by apply IH|done]. }
    by rewrite (dropWhile_all _ (s ++ b)) by (by rewrite forallb_app, Hall, Hb).
  - rewrite dropWhile_app_stop by (by rewrite Hs).
    rewrite Hs. by apply trimEnd_app_all.
Qed.

(** X6. White space before and after a date text that is not empty does
    not change the result of parseDate. *)
Theorem parseDate_ignores_outer_space (before dateStr after : jsstring) :
  dateStr ≠ [] →
  forallb isSpace before = true → forallb isSpace after = true →
  parseDate (before ++ dateStr ++ after) = parseDate dateStr.
Proof.
  intros Hne Hb Ha. rewrite !parseDate_unfold, trim_padded by done.
  destruct dateStr as [|c s]; [done|]. by destruct before.
Qed.

Lemma formatTallyDate_digits s :
  forallb isDigit s = true → formatTallyDate s = s.
Proof.
  intros Hs. apply removeChars_none. eapply forallb_impl; [|exact Hs].
  intros c Hc. unfold isDash. apply negb_true_iff, N.eqb_neq.
  apply isDigit_range in Hc. lia.
Qed.

Lemma nDigits_forallb n s : nDigits n s = true → forallb isDigit s = true.
Proof. unfold nDigits. by intros [_ ?]%andb_true_iff. Qed.

Lemma nDigits_length n s : nDigits n s = true → length s = n.
Proof. unfold nDigits. by intros [?%Nat.eqb_eq _]%andb_true_iff. Qed.

Lemma nDigits_app n m a b :
  nDigits n a = true → nDigits m b = true → nDigits (n + m) (a ++ b) = true.
Proof.
  intros Ha Hb. unfold nDigits.
  rewrite length_app, (nDigits_length _ _ Ha), (nDigits_length _ _ Hb).
  rewrite forallb_app, (nDigits_forallb _ _ Ha), (nDigits_forallb _ _ Hb).
  by rewrite Nat.eqb_refl.
Qed.

Lemma formatTallyDate_iso year month day :
  nDigits 4 year = true → nDigits 2 month = true → nDigits 2 day = true →
  formatTallyDate (year ++ [45%N] ++ month ++ [45%N] ++ day)
  = year ++ month ++ day
  ∧ nDigits 8 (year ++ month ++ day) = true.
Proof.
  intros Hy Hm Hd. split.
  - unfold formatTallyDate. rewrite !removeChars_app.
    fold (formatTallyDate year). fold (formatTallyDate month).
    fold (formatTallyDate day).
    rewrite (formatTallyDate_digits year) by (by eapply nDigits_forallb).
    rewrite (formatTallyDate_digits month) by (by eapply nDigits_forallb).
    rewrite (formatTallyDate_digits day) by (by eapply nDigits_forallb).
    done.
  - apply (nDigits_app 4 4); [done|]. by apply (nDigits_app 2 2).
Qed.

(** X7. For a day and a month of one or two digits and a year of four
    digits (separators / - .) or of two digits (separators / -),
    parseDate returns a text of the form dddd-dd-dd made of the full
    year, the month and the day padded with zeros, and formatTallyDate
    turns it into the eight digits of the same three fields. *)
Theorem numeric_dates_fit_schema_and_tally (day month year : jsstring) (c1 c2 : N) :
  oneOrTwoDigits day = true → oneOrTwoDigits month = true →
  (nDigits 4 year = true ∧ isSep3 c1 = true ∧ isSep3 c2 = true)
  ∨ (nDigits 2 year = true ∧ isSep2 c1 = true ∧ isSep2 c2 = true) →
  let date := parseDate (day ++ c1 :: month ++ c2 :: year) in
  matchClasses isoPattern date = true
  ∧ nDigits 8 (formatTallyDate date) = true
  ∧ ∃ fullYear,
      nDigits 4 fullYear = true
      ∧ date = fullYear ++ js "-" ++ padStart 2 48 month
                        ++ js "-" ++ padStart 2 48 day
      ∧ formatTallyDate date
        = fullYear ++ padStart 2 48 month ++ padStart 2 48 day.
Proof.
  intros Hday Hmonth Hyear. cbv zeta.
  assert (Hshape : ∃ fullYear, nDigits 4 fullYear = true
            ∧ parseDate (day ++ c1 :: month ++ c2 :: year)
              = fullYear ++ [45%N] ++ padStart 2 48 month
                         ++ [45%N] ++ padStart 2 48 day).
  { rewrite parseDate_form.
    destruct Hyear as [(Hy & H1 & H2)|(Hy & H1 & H2)].
    - destruct (parseCleaned_four_digit_year day month year c1 c2)
        as [-> ->]; try done. by exists year.
    - destruct (parseCleaned_two_digit_year day month year c1 c2)
        as [-> ->]; try done.
      exists ((if (50 <? digitsValue year)%N then js "19" else js "20") ++ year).
      split; [|by rewrite <- app_assoc].
      apply century_year; [|done]. by destruct (50 <? digitsValue year)%N. }
  destruct Hshape as (fullYear & Hfull & ->).
  destruct (formatTallyDate_iso fullYear (padStart 2 48 month) (padStart 2 48 day))
    as [Htally H8]; [done|by apply padStart_digits..|].
  split; [by apply year_month_day_iso|].
  split; [by rewrite Htally|].
  exists fullYear. by repeat split.
Qed.

End MoreDates.

(** *** Descriptions *)

Section Descriptions.

Lemma cleanDescription_unfold text :
  cleanDescription text
  = trim (removeChars (λ c, negb (isDescriptionChar c))
            (collapseSpaces false text)).
Proof. by destruct text. Qed.

Lemma collapseSpaces_tidy b s :
  ∀ c, c ∈ collapseSpaces b s → isSpace c = true → c = 32%N.
Proof.
  revert b. induction s as [|x s IH]; intros b c Hc Hsp.
  { by apply elem_of_nil in Hc. }
  cbn [collapseSpaces] in Hc. destruct (isSpace x) eqn:Hx.
  - apply elem_of_app in Hc as [Hc|Hc]; [|by eapply IH].
    destruct b; [by apply elem_of_nil in Hc|].
    by apply list_elem_of_singleton in Hc.
  - apply elem_of_cons in Hc as [->|Hc]; [congruence|by eapply IH].
Qed.

Lemma collapseSpaces_elem b s c :
  c ∈ collapseSpaces b s → c = 32%N ∨ c ∈ s.
Proof.
  revert b. induction s as [|x s IH]; intros b Hc.
  { by apply elem_of_nil in Hc. }
  cbn [collapseSpaces] in Hc. destruct (isSpace x).
  - apply elem_of_app in Hc as [Hc|Hc].
    + destruct b; [by apply elem_of_nil in Hc|].
      left. by apply list_elem_of_singleton in Hc.
    + destruct (IH _ Hc); [by left|right; by right].
  - apply elem_of_cons in Hc as [->|Hc]; [right; by left|].
    destruct (IH _ Hc); [by left|right; by right].
Qed.

Lemma collapseSpaces_idemp s :
  collapseSpaces true (collapseSpaces true s) = collapseSpaces true s
  ∧ collapseSpaces false (collapseSpaces true s) = collapseSpaces true s
  ∧ collapseSpaces false (collapseSpaces false s) = collapseSpaces false s.
Proof.
  induction s as [|c s (IH1 & IH2 & IH3)]; [done|].
  cbn [collapseSpaces]. destruct (isSpace c) eqn:Hc.
  - cbn [app]. split; [done|]. split; [done|].
    cbn [collapseSpaces]. change (isSpace 32) with true. cbn [app].
    by rewrite IH1.
  - cbn [collapseSpaces]. rewrite Hc, IH3. done.
Qed.

Lemma collapseSpaces_snoc b s c :
  isSpace c = false →
  ∃ t, collapseSpaces b (s ++ [c]) = t ++ [c].
Proof.
  intros Hc. revert b. induction s as [|x s IH]; intros b.
  { exists []. cbn [app collapseSpaces]. by rewrite Hc. }
  cbn [app collapseSpaces]. destruct (isSpace x).
  - destruct (IH true) as (t & ->). eexists. by rewrite app_assoc.
  - destruct (IH false) as (t & ->). by exists (x :: t).
Qed.

Lemma sublist_chars (P : N → Prop) s :
  (∀ c, c ∈ s → P c) →
  (∀ c, c ∈ trim s → P c)
  ∧ ∀ p c, c ∈ removeChars p s → P c.
Proof.
  intros HP. split.
  - intros c Hc. apply HP.
    destruct (trimEnd_spec (trimStart s)) as (t & Hs & _).
    pose proof (takeWhile_dropWhile isSpace s) as Hs'.
    rewrite <- Hs'. fold (trimStart s). rewrite Hs. fold (trim s).
    set_solver.
  - intros p c Hc. apply HP. unfold removeChars in Hc.
    by apply list_elem_of_filter in Hc as [_ ?].
Qed.

Lemma trimmed_cases s :
  trim s = s → s = [] ∨ ∃ c r, s = c :: r ∧ isSpace c = false
                        ∧ ∃ r' d, s = r' ++ [d] ∧ isSpace d = false.
Proof.
  intros Hs. destruct (trim_ends s) as [Hh Hl]. rewrite Hs in Hh, Hl.
  destruct s as [|c r]; [by left|right].
  exists c, r. split; [done|]. split.
  { cbn in Hh. by destruct (isSpace c). }
  destruct (exists_last (l:=c :: r)) as (r' & d & Heq); [done|].
  exists r', d. split; [done|]. rewrite Heq, last_snoc in Hl.
  cbn in Hl. by destruct (isSpace d).
Qed.

(** After one pass, another pass only collapses runs of spaces. *)
Lemma cleanDescription_again text :
  cleanDescription (cleanDescription text)
  = collapseSpaces false (cleanDescription text).
Proof.
  set (t := cleanDescription text).
  assert (Hchars : ∀ c, c ∈ t → isDescriptionChar c = true).
  { unfold t. rewrite cleanDescription_unfold. apply sublist_chars.
    intros c Hc. unfold removeChars in Hc.
    apply list_elem_of_filter in Hc as [Hc _]. by apply negb_false_iff. }
  assert (Htrim : trim t = t).
  { unfold t. rewrite cleanDescription_unfold. apply trim_idemp. }
  rewrite cleanDescription_unfold.
  assert (Hkeep : removeChars (λ c, negb (isDescriptionChar c))
                    (collapseSpaces false t) = collapseSpaces false t).
  { apply removeChars_none. apply forallb_forall. intros c Hc.
    apply list_elem_of_In in Hc. rewrite negb_involutive.
    apply collapseSpaces_elem in Hc as [->|Hc]; [done|by apply Hchars]. }
  rewrite Hkeep.
  destruct (trimmed_cases t Htrim) as [->|(c & r & Ht & Hc & r' & d & Ht' & Hd)];
    [done|].
  apply trim_fixed.
  - rewrite Ht. cbn [collapseSpaces]. rewrite Hc. cbn. by rewrite Hc.
  - rewrite Ht'. destruct (collapseSpaces_snoc false r' d Hd) as (u & ->).
    rewrite last_snoc. cbn. by rewrite Hd.
Qed.

(** X8. Every character of the result of cleanDescription is a letter, a
    digit, an underscore, one of - / . , @ # ( ) or white space, the
    only white space being the plain space; the result has no white
    space at its ends; the empty text gives the empty text. *)
Theorem cleanDescription_result (text : jsstring) :
  (∀ c, c ∈ cleanDescription text →
        isDescriptionChar c = true ∧ (isSpace c = true → c = 32%N))
  ∧ trim (cleanDescription text) = cleanDescription text
  ∧ (text = [] → cleanDescription text = []).
Proof.
  split; [|split; [|by intros ->]].
  - rewrite cleanDescription_unfold. apply sublist_chars.
    intros c Hc. unfold removeChars in Hc.
    apply list_elem_of_filter in Hc as [Hkeep Hc].
    split; [by apply negb_false_iff|]. by apply collapseSpaces_tidy with false text.
  - rewrite cleanDescription_unfold. apply trim_idemp.
Qed.

(** X9. cleanDescription is not idempotent (a second pass changes the
    result for 'a $ b'), but the second pass always reaches a fixed
    point: a third pass changes nothing. *)
Theorem cleanDescription_settles_after_two :
  (∀ text,
     cleanDescription (cleanDescription (cleanDescription text))
     = cleanDescription (cleanDescription text))
  ∧ cleanDescription (cleanDescription (js "a $ b"))
    ≠ cleanDescription (js "a $ b").
Proof.
  split; [|by vm_compute].
  intros text.
  rewrite (cleanDescription_again (cleanDescription text)).
  rewrite (cleanDescription_again text).
  apply collapseSpaces_idemp.
Qed.

End Descriptions.

(** *** File types *)

Section Splitting.

Lemma split_nonempty sep s : split sep s ≠ [].
Proof.
  destruct s as [|c r]; [done|]. cbn [split].
  destruct (c =? sep)%N; [done|]. by destruct (split sep r).
Qed.

Lemma split_none sep s : sep ∉ s → split sep s = [s].
Proof.
  induction s as [|c r IH]; [done|]. intros Hnot. cbn [split].
  destruct (N.eqb_spec c sep) as [->|_]; [set_solver|].
  rewrite IH by set_solver. done.
Qed.

Lemma split_app sep a r :
  sep ∉ a → split sep (a ++ sep :: r) = a :: split sep r.
Proof.
  induction a as [|c a IH]; intros Hnot.
  { cbn [app split]. by rewrite N.eqb_refl. }
  cbn [app split].
  destruct (N.eqb_spec c sep) as [->|_]; [set_solver|].
  rewrite IH by set_solver. done.
Qed.

Lemma split_last sep s ext :
  sep ∉ ext → last (split sep (s ++ sep :: ext)) = Some ext.
Proof.
  intros Hext.
  assert (Hgen : ∀ s, ∃ pieces, split sep (s ++ sep :: ext) = pieces ++ [ext]
                              ∧ pieces ≠ []).
  { clear s. induction s as [|c s (pieces & IH & Hne)].
    - exists [[]]. cbn [app split]. rewrite N.eqb_refl.
      by rewrite split_none.
    - cbn [app split]. rewrite IH. destruct (c =? sep)%N.
      + by exists ([] :: pieces).
      + destruct pieces as [|p pieces]; [done|]. by exists ((c :: p) :: pieces). }
  destruct (Hgen s) as (pieces & -> & _). apply last_snoc.
Qed.

End Splitting.

Section FileTypes.
Context `{RT : Runtime}.

(** X10. getFileType decides by the text after the last dot of the file
    name in lower case, or by the whole name when it has no dot; what
    stands before the last dot has no influence. *)
Theorem getFileType_reads_last_extension (fileName base ext : jsstring) :
  46%N ∉ ext →
  String_toLowerCase fileName = base ++ js "." ++ ext
  ∨ String_toLowerCase fileName = ext →
  getFileType fileName = fileTypeOfExtension ext.
Proof.
  intros Hext Hname. unfold getFileType.
  destruct Hname as [-> | ->].
  - change (js "." ++ ext) with (46%N :: ext). by rewrite split_last.
  - by rewrite split_none.
Qed.

End FileTypes.

(** *** Displayed dates *)

Section DisplayDates.
Context `{RT : Runtime}.

Lemma iso_parts d :
  matchClasses isoPattern d = true →
  ∃ year month day,
    d = year ++ 45%N :: month ++ 45%N :: day
    ∧ nDigits 4 year = true ∧ nDigits 2 month = true ∧ nDigits 2 day = true.
Proof.
  intros H. unfold isoPattern in H.
  do 10 (destruct d as [|? d]; [simpl in H; by rewrite ?andb_false_r in H|]).
  destruct d; [|simpl in H; by rewrite ?andb_false_r in H].
  cbn [matchClasses] in H.
  repeat (apply andb_true_iff in H as [? H]).
  unfold isDash in *.
  repeat match goal with
         | E : (_ =? 45)%N = true |- _ => apply N.eqb_eq in E; subst
         end.
  exists [n; n0; n1; n2], [n4; n5], [n7; n8].
  split; [done|]. unfold nDigits. cbn [length forallb Nat.eqb andb].
  by repeat match goal with E : isDigit _ = true |- _ => rewrite E; clear E end.
Qed.

Lemma digits_no (sep : N) s :
  forallb isDigit s = true → isDigit sep = false → sep ∉ s.
Proof.
  intros Hs Hsep Hin. rewrite forallb_forall in Hs.
  apply list_elem_of_In, Hs in Hin. congruence.
Qed.

Lemma includes_char c s : c ∈ s → includes [c] s = true.
Proof.
  induction s as [|x s IH]; [by intros ?%elem_of_nil|].
  intros [->|Hin]%elem_of_cons; cbn [includes startsWith].
  - by rewrite N.eqb_refl.
  - rewrite IH by done. apply orb_true_r.
Qed.

Lemma formatDate_iso year month day format :
  nDigits 4 year = true → nDigits 2 month = true → nDigits 2 day = true →
  formatDate (year ++ 45%N :: month ++ 45%N :: day) format
  = if bool_decide (format = js "dd/mm/yyyy") then
      day ++ js "/" ++ month ++ js "/" ++ year
    else if bool_decide (format = js "yyyy-mm-dd") then
      year ++ js "-" ++ month ++ js "-" ++ day
    else if bool_decide (format = js "mm/dd/yyyy") then
      month ++ js "/" ++ day ++ js "/" ++ year
    else if bool_decide (format = js "dd-mm-yyyy") then
      day ++ js "-" ++ month ++ js "-" ++ year
    else if bool_decide (format = js "dd mmm yyyy") then
      day ++ js " " ++ monthNameOf month ++ js " " ++ year
    else day ++ js "/" ++ month ++ js "/" ++ year.
Proof.
  intros Hy Hm Hd.
  assert (Hsplit : split 45 (year ++ 45%N :: month ++ 45%N :: day)
                   = [year; month; day]).
  { rewrite split_app by (apply digits_no; [by eapply nDigits_forallb|done]).
    rewrite split_app by (apply digits_no; [by eapply nDigits_forallb|done]).
    rewrite split_none by (apply digits_no; [by eapply nDigits_forallb|done]).
    done. }
  unfold formatDate.
  destruct (year ++ 45%N :: month ++ 45%N :: day) as [|c0 r0] eqn:Etext.
  { by destruct year. }
  rewrite <- Etext in Hsplit |- *. clear Etext.
  change (js "-") with [45%N].
  rewrite includes_char by set_solver.
  rewrite Hsplit. cbn [lookup list_lookup default id].
  rewrite (nDigits_length _ _ Hy). cbn [Nat.eqb fmap option_fmap option_map].
  assert (Hpad : ∀ s, nDigits 2 s = true →
            stringOr (Some (padStart 2 48 s)) (js "01") id = s).
  { intros s Hs. unfold padStart. rewrite (nDigits_length _ _ Hs).
    cbn [Nat.sub replicate app]. destruct s; [done|]. done. }
  rewrite !Hpad by done.
  assert (Hyear : stringOr (Some year) (js "2024") id = year).
  { destruct year; [done|]. done. }
  rewrite Hyear. done.
Qed.

Lemma nDigits_two_oneOrTwo s : nDigits 2 s = true → oneOrTwoDigits s = true.
Proof.
  unfold nDigits, oneOrTwoDigits.
  intros [->%Nat.eqb_eq ->]%andb_true_iff. done.
Qed.

Lemma padStart_two s : nDigits 2 s = true → padStart 2 48 s = s.
Proof.
  unfold nDigits, padStart. intros [->%Nat.eqb_eq _]%andb_true_iff. done.
Qed.

(** X11. For a stored date of the form dddd-dd-dd, formatDate with
    'yyyy-mm-dd' returns it unchanged, and what it displays with
    'dd/mm/yyyy' and 'dd-mm-yyyy' is read by parseDate as the same date;
    what it displays with 'mm/dd/yyyy' is read by parseDate with day and
    month exchanged. *)
Theorem displayed_date_reads_back (dateStr : jsstring) :
  matchClasses isoPattern dateStr = true →
  formatDate dateStr (js "yyyy-mm-dd") = dateStr
  ∧ parseDate (formatDate dateStr (js "dd/mm/yyyy")) = dateStr
  ∧ parseDate (formatDate dateStr (js "dd-mm-yyyy")) = dateStr
  ∧ ∃ year month day,
      dateStr = year ++ js "-" ++ month ++ js "-" ++ day
      ∧ parseDate (formatDate dateStr (js "mm/dd/yyyy"))
        = year ++ js "-" ++ day ++ js "-" ++ month.
Proof.
  intros Hiso.
  destruct (iso_parts dateStr Hiso) as (year & month & day & -> & Hy & Hm & Hd).
  pose proof (nDigits_two_oneOrTwo _ Hm) as Hm1.
  pose proof (nDigits_two_oneOrTwo _ Hd) as Hd1.
  rewrite !formatDate_iso by done.
  compare_literals.
  assert (Hread : ∀ a b c1 c2,
            nDigits 2 a = true → nDigits 2 b = true →
            isSep3 c1 = true → isSep3 c2 = true →
            parseDate (a ++ c1 :: b ++ c2 :: year)
            = year ++ 45%N :: b ++ 45%N :: a).
  { intros a b c1 c2 Ha Hb H1 H2. rewrite parseDate_form.
    destruct (parseCleaned_four_digit_year a b year c1 c2)
      as [-> ->]; try done; try by apply nDigits_two_oneOrTwo.
    by rewrite !padStart_two. }
  split; [done|]. split; [by apply (Hread day month 47%N 47%N)|].
  split; [by apply (Hread day month 45%N 45%N)|].
  exists year, month, day. split; [done|].
  by apply (Hread month day 47%N 47%N).
Qed.

Lemma parseInt10_digits s :
  s ≠ [] → forallb isDigit s = true →
  parseInt10 s = Some (Z.of_N (digitsValue s)).
Proof.
  intros Hne Hs. destruct s as [|c r]; [done|].
  cbn [forallb] in Hs. apply andb_true_iff in Hs as [Hc Hr].
  unfold parseInt10. rewrite trimStart_head by (by apply isDigit_not_space).
  pose proof (proj1 (isDigit_range c) Hc) as Hrange.
  unfold signOf.
  destruct (N.eqb_spec c 45); [lia|]. destruct (N.eqb_spec c 43); [lia|].
  rewrite takeWhile_all by (cbn [forallb]; by rewrite Hc, Hr). done.
Qed.

(** X12. With the format 'dd mmm yyyy', formatDate shows a stored date
    dddd-dd-dd as its day, the name of its month and its year; a month
    of 00 or above 12 is shown as Jan. *)
Theorem displayed_month_name (year month day : jsstring) :
  nDigits 4 year = true → nDigits 2 month = true → nDigits 2 day = true →
  formatDate (year ++ js "-" ++ month ++ js "-" ++ day) (js "dd mmm yyyy")
  = day ++ js " "
    ++ match N.to_nat (digitsValue month) with
       | 0 => js "Jan"
       | S k => default (js "Jan") (monthNames !! k)
       end
    ++ js " " ++ year.
Proof.
  intros Hy Hm Hd.
  change (year ++ js "-" ++ month ++ js "-" ++ day)
    with (year ++ 45%N :: month ++ 45%N :: day).
  rewrite formatDate_iso by done.
  compare_literals.
  do 2 f_equal. f_equal.
  unfold monthNameOf. rewrite parseInt10_digits.
  - destruct (N.to_nat (digitsValue month)) as [|k] eqn:Hv.
    + destruct (Z.leb_spec 1 (Z.of_N (digitsValue month))); [lia|done].
    + destruct (Z.leb_spec 1 (Z.of_N (digitsValue month))); [|lia].
      by replace (Z.to_nat (Z.of_N (digitsValue month) - 1)) with k by lia.
  - unfold nDigits in Hm. apply andb_true_iff in Hm as [Hl _].
    apply Nat.eqb_eq in Hl. by destruct month.
  - unfold nDigits in Hm. by apply andb_true_iff in Hm as [_ ?].
Qed.

End DisplayDates.

Lemma displayed_date_reads_back_sample :
  formatDate (js "2024-01-15") (js "dd/mm/yyyy") = js "15/01/2024"
  ∧ parseDate (RT:=refRuntime) (formatDate (js "2024-01-15") (js "dd/mm/yyyy"))
    = js "2024-01-15".
Proof.
  split; [by vm_compute|].
  apply (displayed_date_reads_back (RT:=refRuntime) (js "2024-01-15")).
  by vm_compute.
Defined.

Lemma displayed_month_name_sample :
  formatDate (js "2024-13-05") (js "dd mmm yyyy") = js "05 Jan 2024"
  ∧ formatDate (js "2024-11-05") (js "dd mmm yyyy") = js "05 Nov 2024".
Proof.
  split.
  - apply (displayed_month_name (js "2024") (js "13") (js "05")); by vm_compute.
  - apply (displayed_month_name (js "2024") (js "11") (js "05")); by vm_compute.
Defined.

(** *** Duplicates *)

Section MoreDuplicates.
Context `{RT : Runtime}.

Lemma idsWithKey_length_perm k l l' :
  l ≡ₚ l' → length (idsWithKey k l) = length (idsWithKey k l').
Proof.
  intros Hperm. unfold idsWithKey. rewrite !length_fmap.
  apply Permutation_length. by rewrite Hperm.
Qed.

Lemma idsWithKey_app k a b :
  idsWithKey k (a ++ b) = idsWithKey k a ++ idsWithKey k b.
Proof. unfold idsWithKey. by rewrite filter_app, fmap_app. Qed.

(** X13. The set of ids returned by findDuplicates does not depend on
    the order of the transactions. *)
Theorem findDuplicates_ignores_order (txs txs' : list Transaction) :
  txs ≡ₚ txs' → findDuplicates txs = findDuplicates txs'.
Proof.
  intros Hperm. apply set_eq. intros x. rewrite !findDuplicates_spec.
  split; intros (tx & Hin & Hid & Hlen); exists tx.
  - split; [by rewrite <- Hperm|]. split; [done|].
    by rewrite <- (idsWithKey_length_perm _ _ _ Hperm).
  - split; [by rewrite Hperm|]. split; [done|].
    by rewrite (idsWithKey_length_perm _ _ _ Hperm).
Qed.

(** X14. Transactions added before or after a list never take an id out
    of the set returned by findDuplicates, and a list of at most one
    transaction has no duplicates. *)
Theorem findDuplicates_only_grows (before txs after : list Transaction) :
  findDuplicates txs ⊆ findDuplicates (before ++ txs ++ after)
  ∧ (length txs ≤ 1 → findDuplicates txs = ∅).
Proof.
  split.
  - intros x. rewrite !findDuplicates_spec.
    intros (tx & Hin & Hid & Hlen). exists tx.
    split; [set_solver|]. split; [done|].
    rewrite !idsWithKey_app, !length_app. lia.
  - intros Hlen. apply set_eq. intros x. rewrite findDuplicates_spec.
    split; [|set_solver]. intros (tx & _ & _ & Htwo).
    unfold idsWithKey in Htwo. rewrite length_fmap in Htwo.
    pose proof (length_filter (λ t, getDuplicateKey t = getDuplicateKey tx) txs).
    lia.
Qed.

End MoreDuplicates.

(** *** Ledger rules and exports *)

Section Rules.
Context `{RT : Runtime}.

(** X15. findMatchingRule returns the first rule of the list one of
    whose keywords occurs in the description, both taken in lower case,
    and returns null exactly when no rule has such a keyword. *)
Theorem findMatchingRule_takes_first_match (tx : Transaction)
    (rules : list LedgerRule) :
  (∀ rule, findMatchingRule tx rules = Some rule ↔
     ∃ earlier later,
       rules = earlier ++ rule :: later
       ∧ ruleMatches tx rule
       ∧ ∀ other, other ∈ earlier → ¬ ruleMatches tx other)
  ∧ (findMatchingRule tx rules = None ↔
     ∀ rule, rule ∈ rules → ¬ ruleMatches tx rule).
Proof.
  set (test := λ rule : LedgerRule,
         existsb (λ keyword,
                    includes (String_toLowerCase keyword)
                             (String_toLowerCase (tx_description tx)))
                 (keywords rule)).
  assert (Htest : ∀ rule, test rule = true ↔ ruleMatches tx rule).
  { intros rule. unfold test, ruleMatches. rewrite existsb_exists.
    split; intros (k & Hk & ?); exists k; (split; [|done]);
      by apply list_elem_of_In. }
  change (findMatchingRule tx rules) with (find test rules).
  induction rules as [|r rules [IHsome IHnone]].
  { split.
    - intros rule. split; [done|]. intros (earlier & ? & Heq & _).
      by destruct earlier.
    - split; [|done]. intros _ rule Hin. by apply elem_of_nil in Hin. }
  cbn [find]. destruct (test r) eqn:Hr.
  - split.
    + intros rule. split.
      * intros [= <-]. exists [], rules. split; [done|].
        split; [by apply Htest|]. intros other Hin. by apply elem_of_nil in Hin.
      * intros (earlier & later & Heq & Hm & Hnone).
        destruct earlier as [|e earlier]; [by injection Heq as ->|].
        injection Heq as <- ->. exfalso. apply (Hnone r); [left|by apply Htest].
    + split; [done|]. intros Hnone. exfalso.
      apply (Hnone r); [left|by apply Htest].
  - assert (Hnot : ¬ ruleMatches tx r).
    { intros Hm%Htest. congruence. }
    split.
    + intros rule. rewrite IHsome. split.
      * intros (earlier & later & -> & Hm & Hnone).
        exists (r :: earlier), later. split; [done|]. split; [done|].
        intros other [->|Hin]%elem_of_cons; [done|by apply Hnone].
      * intros (earlier & later & Heq & Hm & Hnone).
        destruct earlier as [|e earlier].
        { injection Heq as ->. done. }
        injection Heq as <- ->. exists earlier, later. split; [done|].
        split; [done|]. intros other Hin. apply Hnone. by right.
    + rewrite IHnone. split.
      * intros Hnone rule [->|Hin]%elem_of_cons; [done|by apply Hnone].
      * intros Hnone rule Hin. apply Hnone. by right.
Qed.



Lemma readQuoted_doubled description rest :
  head rest ≠ Some 34%N →
  readQuoted (replaceChar 34 (quote ++ quote) description ++ quote ++ rest)
  = Some (description, rest).
Proof.
  intros Hrest. induction description as [|c d IH].
  { cbn. destruct rest as [|c r]; [done|].
    destruct (N.eqb_spec c 34) as [->|]; [done|done]. }
  unfold replaceChar in *. rewrite bind_cons.
  destruct (N.eqb_spec c 34) as [->|Hc].
  - cbn [app quote readQuoted]. rewrite N.eqb_refl.
    match goal with |- ?x ≫= _ = _ =>
      replace x with (Some (d, rest)) by (symmetry; exact IH) end.
    done.
  - cbn [app readQuoted]. apply N.eqb_neq in Hc. rewrite Hc.
    match goal with |- ?x ≫= _ = _ =>
      replace x with (Some (d, rest)) by (symmetry; exact IH) end.
    done.
Qed.

Lemma join_cons sep x l : ∃ tail, join sep (x :: l) = x ++ tail.
Proof.
  destruct l as [|y l]; [exists []; by rewrite app_nil_r|].
  by exists (sep ++ join sep (y :: l)).
Qed.

Lemma join_middle sep first l x l' :
  ∃ tail, join sep (first :: l ++ x :: l')
          = join sep (first :: l) ++ sep ++ x ++ tail.
Proof.
  revert first. induction l as [|y l IH]; intros first.
  - destruct (join_cons sep x l') as [tail Htail]. exists tail.
    cbn [app]. change (join sep (first :: x :: l'))
      with (first ++ sep ++ join sep (x :: l')).
    by rewrite Htail, <- ?app_assoc.
  - destruct (IH y) as [tail Htail]. exists tail.
    change (join sep (first :: (y :: l) ++ x :: l'))
      with (first ++ sep ++ join sep (y :: l ++ x :: l')).
    change (join sep (first :: y :: l))
      with (first ++ sep ++ join sep (y :: l)).
    by rewrite Htail, <- !app_assoc.
Qed.

(** X17. In the text returned by transactionsToCSV the row of each
    transaction starts on a new line with the date and then the quoted
    description, and a reader that takes a doubled quote for a quote and
    a single quote for the end of the field gets the description back
    exactly, whatever commas, quotes or line breaks it holds. *)
Theorem csv_description_reads_back (before after : list Transaction)
    (tx : Transaction) :
  ∃ rowsBefore rest,
    transactionsToCSV (before ++ tx :: after)
    = rowsBefore ++ nl ++ tx_date tx ++ js ","
      ++ quote ++ replaceChar 34 (quote ++ quote) (tx_description tx) ++ quote
      ++ js "," ++ rest
    ∧ readQuotedField
        (quote ++ replaceChar 34 (quote ++ quote) (tx_description tx) ++ quote
         ++ js "," ++ rest)
      = Some (tx_description tx, js "," ++ rest).
Proof.
  unfold transactionsToCSV. cbv zeta. rewrite fmap_app. cbn [fmap list_fmap].
  rewrite fmap_app. cbn [fmap list_fmap].
  match goal with |- context [join nl (?h :: ?l ++ ?row :: ?l')] =>
    destruct (join_middle nl h l row l') as [tail ->]
  end.
  cbn [join]. rewrite <- !app_assoc.
  eexists _, _. split; [reflexivity|].
  cbn [quote app readQuotedField]. rewrite N.eqb_refl.
  by apply (readQuoted_doubled (tx_description tx)).
Qed.

End Rules.

(** *** Chunker *)

Section ZeroChunk.

(** X18. With a chunk size of 0 and a page left to copy, the loop of
    splitPdfIntoChunks never ends: no number of iterations gives a
    result. *)
Theorem zero_chunk_size_never_ends (fuel totalPages startPage : nat)
    (chunks : list Chunk) :
  startPage < totalPages →
  splitLoop fuel totalPages 0 startPage chunks = None.
Proof.
  intros Hlt. revert chunks.
  induction fuel as [|fuel IH]; intros chunks; [done|].
  cbn [splitLoop]. rewrite Nat.add_0_r.
  destruct (Nat.ltb_spec startPage totalPages); [|lia].
  destruct (Nat.ltb_spec totalPages startPage); [lia|].
  cbn [andb]. destruct (Nat.eqb_spec startPage totalPages); [lia|].
  apply IH.
Qed.

End ZeroChunk.

Lemma zero_chunk_size_never_ends_sample :
  0 < 3 ∧ splitLoop 1000 3 0 0 [] = None ∧ splitPdfIntoChunks 3 0 = None.
Proof.
  split; [lia|]. split.
  - apply zero_chunk_size_never_ends. lia.
  - apply zero_chunk_size_never_ends. lia.
Defined.

(** *** The stream of the PDF route *)

Section Attempts.
Context `{RT : Runtime} `{SV : Services}.

Lemma obtainResponse_frame apiProvider chunk i total st r st' :
  obtainResponse apiProvider chunk i total st = (r, st') →
  output st' = output st ∧ warnings st' = warnings st
  ∧ idsIssued st' = idsIssued st ∧ bankName st' = bankName st
  ∧ calls st ≤ calls st' ≤ S (calls st).
Proof.
  unfold obtainResponse.
  repeat match goal with |- context [if ?c then _ else _] => destruct c end;
    intros [= <- <-]; cbn; repeat split; lia.
Qed.

Lemma adoptBankName_frame parsed st r st' :
  adoptBankName parsed st = (r, st') →
  output st' = output st ∧ warnings st' = warnings st
  ∧ idsIssued st' = idsIssued st ∧ calls st' = calls st.
Proof.
  unfold adoptBankName. destruct (truthy (bankName st)); [by intros [= <- <-]|].
  destruct (getProp parsed (js "bankName")) as [b|]; [|by intros [= <- <-]].
  by destruct (truthy b); intros [= <- <-].
Qed.

Lemma toTransaction_run tx st r st' :
  toTransaction tx st = (r, st') →
  output st' = output st ∧ warnings st' = warnings st
  ∧ calls st' = calls st ∧ bankName st' = bankName st
  ∧ idsIssued st' = S (idsIssued st)
  ∧ ∀ t, r = Ok t → tx_id t = uuidv4 (idsIssued st) ∧ wellFormed t.
Proof.
  unfold toTransaction, bind, generateId. intros Hrun.
  assert (Hst := f_equal snd Hrun). assert (Hr := f_equal fst Hrun).
  cbn [fst snd] in Hst, Hr. clear Hrun. subst st'.
  cbn [output warnings calls bankName idsIssued].
  do 5 (split; [done|]).
  intros t Ht. rewrite Ht in Hr. clear Ht r.
  repeat match type of Hr with
         | context [exc_bind (getProp ?v ?k) _] =>
           destruct (getProp v k); cbn [exc_bind] in Hr; [|done]
         end.
  assert (Heq := f_equal (λ r, match r with Ok x => x | Throw _ => t end) Hr).
  cbv beta iota in Heq. rewrite <- Heq. clear Hr Heq.
  split; [done|]. split; [done|].
  split; [split; [apply parseAmount_nonneg|apply parseAmount_string_number]|].
  split; [split; [apply parseAmount_nonneg|apply parseAmount_string_number]|].
  split; [|by eexists].
  intros balance Hb. cbn [tx_balance] in Hb.
  match type of Hb with (if ?c then _ else _) = _ => destruct c end; [done|].
  assert (Heq := f_equal (λ o, match o with Some x => x | None => balance end) Hb).
  cbv beta iota in Heq. rewrite <- Heq.
  split; [apply parseAmount_nonneg|apply parseAmount_string_number].
Qed.

Lemma mapM_toTransaction_run items st r st' :
  mapM toTransaction items st = (r, st') →
  output st' = output st ∧ warnings st' = warnings st ∧ calls st' = calls st
  ∧ idsIssued st ≤ idsIssued st'
  ∧ ∀ data, r = Ok data →
      idsIssued st' = idsIssued st + length data
      ∧ tx_id <$> data = uuidv4 <$> seq (idsIssued st) (length data)
      ∧ Forall wellFormed data.
Proof.
  revert st r st'. induction items as [|x items IH]; intros st r st'.
  { cbn [mapM ret]. intros [= <- <-].
    split; [done|]. split; [done|]. split; [done|].
    split; [lia|]. intros data [= <-]. cbn. split; [lia|]. by split. }
  cbn [mapM]. unfold bind at 1.
  destruct (toTransaction x st) as [[t|message] st1] eqn:Hx;
    apply toTransaction_run in Hx as (Ho & Hw & Hc & _ & Hi & Ht).
  2:{ intros [= <- <-]. rewrite Ho, Hw, Hc, Hi.
      split; [done|]. split; [done|]. split; [done|]. split; [lia|]. done. }
  destruct (Ht t eq_refl) as [Hid Hgood].
  unfold bind at 1.
  destruct (mapM toTransaction items st1) as [[ts|message] st2] eqn:Hrest;
    apply IH in Hrest as (Ho2 & Hw2 & Hc2 & Hle & Hdata);
    cbn [ret]; intros [= <- <-]; rewrite Ho2, Hw2, Hc2, Ho, Hw, Hc.
  2:{ split; [done|]. split; [done|]. split; [done|]. split; [lia|]. done. }
  split; [done|]. split; [done|]. split; [done|]. split; [lia|].
  intros data [= <-]. destruct (Hdata ts eq_refl) as (Hn & Hids & Hall).
  cbn [length seq fmap list_fmap]. split; [lia|]. split.
  - rewrite Hid. f_equal. rewrite Hi in Hids. exact Hids.
  - by constructor.
Qed.

Lemma mapTransactions_run txArray st r st' :
  mapTransactions txArray st = (r, st') →
  output st' = output st ∧ warnings st' = warnings st ∧ calls st' = calls st
  ∧ idsIssued st ≤ idsIssued st'
  ∧ ∀ data, r = Ok data →
      idsIssued st' = idsIssued st + length data
      ∧ tx_id <$> data = uuidv4 <$> seq (idsIssued st) (length data)
      ∧ Forall wellFormed data.
Proof.
  unfold mapTransactions.
  destruct txArray; try (intros [= <- <-]; by repeat split).
  apply mapM_toTransaction_run.
Qed.

(** What one attempt does to the state: it throws and has sent nothing,
    or it ends well and has sent the transactions it found, if any, and
    the pacing notice; either way it records no warning and makes at most
    one call. *)
Lemma attempt_cases apiProvider chunk i total st :
  ∃ r st',
    attempt apiProvider chunk i total st = (r, st')
    ∧ warnings st' = warnings st
    ∧ calls st ≤ calls st' ≤ S (calls st)
    ∧ idsIssued st ≤ idsIssued st'
    ∧ match r with
      | Throw _ => output st' = output st
      | Ok _ =>
        ∃ data,
          output st'
          = output st
            ++ (if 0 <? length data then [Enqueue (EvTransactions data)] else [])
            ++ pacingNotice apiProvider i total
          ∧ idsIssued st' = idsIssued st + length data
          ∧ tx_id <$> data = uuidv4 <$> seq (idsIssued st) (length data)
          ∧ Forall wellFormed data
      end.
Proof.
  unfold attempt. unfold bind at 1.
  destruct (obtainResponse apiProvider chunk i total st)
    as [[text|message] st1] eqn:H1;
    apply obtainResponse_frame in H1 as (Ho1 & Hw1 & Hi1 & _ & Hc1).
  2:{ eexists _, _. split; [done|]. rewrite Hw1, Hi1. repeat split; done || lia. }
  unfold bind at 1, lift at 1.
  destruct (PdfRoute.parseAIResponse text) as [parsed|message].
  2:{ eexists _, _. split; [done|]. rewrite Hw1, Hi1. repeat split; done || lia. }
  unfold bind at 1.
  destruct (adoptBankName parsed st1) as [[[]|message] st2] eqn:H2;
    apply adoptBankName_frame in H2 as (Ho2 & Hw2 & Hi2 & Hc2).
  2:{ eexists _, _. split; [done|]. rewrite Hw2, Hw1, Hi2, Hi1, Hc2, Ho2.
      repeat split; done || lia. }
  unfold bind at 1, lift at 1.
  destruct (getProp parsed (js "transactions")) as [transactionsProp|message].
  2:{ eexists _, _. split; [done|]. rewrite Hw2, Hw1, Hi2, Hi1, Hc2, Ho2.
      repeat split; done || lia. }
  unfold bind at 1.
  destruct (mapTransactions (or_else transactionsProp (JArray [])) st2)
    as [[data|message] st3] eqn:H3;
    apply mapTransactions_run in H3 as (Ho3 & Hw3 & Hc3 & Hi3 & Hdata).
  2:{ eexists _, _. split; [done|]. rewrite Hw3, Hw2, Hw1, Hc3, Hc2, Ho3, Ho2.
      repeat split; done || lia. }
  destruct (Hdata data eq_refl) as (Hn & Hids & Hall).
  rewrite Hi2, Hi1 in Hn, Hids.
  unfold bind, modify, ret, pacingNotice. cbv zeta.
  destruct (0 <? length data) eqn:Hlen; destruct (S i <? total);
    (eexists _, _; split; [reflexivity|]);
    cbn [warnings calls idsIssued output emit];
    rewrite ?Hw3, ?Hw2, ?Hw1, ?Hc3, ?Hc2, ?Ho3, ?Ho2, ?Ho1;
    (split; [done|]); (split; [lia|]); (split; [lia|]);
    exists data; rewrite Hlen, <- ?app_assoc; cbn [app]; rewrite ?app_nil_r;
    by repeat split.
Qed.

End Attempts.

Section Runs.
Context `{RT : Runtime} `{SV : Services}.
Variable R : State → State → Prop.
Hypothesis R_refl : ∀ st, R st st.
Hypothesis R_trans : ∀ a b c, R a b → R b c → R a c.
Hypothesis R_attempt :
  ∀ apiProvider chunk i total st,
    R st (attempt apiProvider chunk i total st).2.
Hypothesis R_progress :
  ∀ st message chunk total,
    R st (emit (Enqueue (EvProgress message chunk total)) st).
Hypothesis R_sleep : ∀ st ms, R st (emit (Sleep ms) st).
Hypothesis R_warning : ∀ st w, R st (pushWarning w st).

(** A relation between states that every step of the handler respects
    holds between the states before and after the loops. *)
Lemma retryLoop_related fuel apiProvider chunk i total chunkSuccess retries
    st st' :
  retryLoop fuel apiProvider chunk i total chunkSuccess retries st = Some st' →
  R st st'.
Proof.
  revert chunkSuccess retries st.
  induction fuel as [|fuel IH]; intros chunkSuccess retries st; [done|].
  cbn [retryLoop].
  destruct (negb chunkSuccess && (retries <=? MAX_RETRIES));
    [|by intros [= <-]].
  pose proof (R_attempt apiProvider chunk i total st) as Hstep.
  destruct (attempt apiProvider chunk i total st) as [[[]|errorMsg] st1];
    cbn [snd] in Hstep.
  - intros Hrest. eapply R_trans; [exact Hstep|]. by eapply IH.
  - destruct (isRateLimit errorMsg).
    + intros Hrest. eapply R_trans; [exact Hstep|].
      eapply R_trans; [|by eapply IH].
      eapply R_trans; [apply R_progress|apply R_sleep].
    + destruct (MAX_RETRIES <? S retries).
      * intros [= <-]. eapply R_trans; [exact Hstep|apply R_warning].
      * intros Hrest. eapply R_trans; [exact Hstep|]. by eapply IH.
Qed.

Lemma processChunks_related fuel apiProvider rest i total st st' :
  processChunks fuel apiProvider rest i total st = Some st' → R st st'.
Proof.
  revert i st. induction rest as [|chunk rest IH]; intros i st;
    cbn [processChunks].
  - by intros [= <-].
  - destruct (retryLoop _ _ _ _ _ _ _ _) as [st1|] eqn:Hloop;
      cbn [mbind option_bind]; [|done].
    intros Hrest. eapply R_trans; [apply R_progress|].
    eapply R_trans; [by eapply retryLoop_related|]. by eapply IH.
Qed.

End Runs.

Section Streams.
Context `{RT : Runtime} `{SV : Services}.

Lemma extends_refl P st : extends P st st.
Proof. exists []. by rewrite app_nil_r. Qed.

Lemma extends_trans P a b c : extends P a b → extends P b c → extends P a c.
Proof.
  intros (n1 & H1 & F1) (n2 & H2 & F2). exists (n1 ++ n2).
  rewrite H2, H1, app_assoc. split; [done|]. by apply Forall_app.
Qed.

Lemma pacingNotice_streamedWell apiProvider i total :
  Forall streamedWell (pacingNotice apiProvider i total).
Proof.
  unfold pacingNotice. destruct (S i <? total); [|constructor].
  repeat constructor.
Qed.

Lemma extends_attempt apiProvider chunk i total st :
  extends streamedWell st (attempt apiProvider chunk i total st).2.
Proof.
  destruct (attempt_cases apiProvider chunk i total st)
    as (r & st' & -> & _ & _ & _ & Hr).
  cbn [snd]. destruct r as [[]|message].
  - destruct Hr as (data & Hout & _ & _ & Hall).
    eexists. split; [exact Hout|]. apply Forall_app.
    split; [|apply pacingNotice_streamedWell].
    destruct (0 <? length data) eqn:Hlen; [|constructor].
    repeat constructor; [|done]. intros ->. done.
  - exists []. by rewrite app_nil_r.
Qed.

Lemma extends_emit (P : Action → Prop) a st : P a → extends P st (emit a st).
Proof. intros Ha. exists [a]. split; [done|]. by repeat constructor. Qed.

Lemma extends_warning P w st : extends P st (pushWarning w st).
Proof. exists []. by rewrite app_nil_r. Qed.

Lemma processChunks_streamedWell fuel apiProvider rest i total st st' :
  processChunks fuel apiProvider rest i total st = Some st' →
  extends streamedWell st st'.
Proof.
  intros Hrun.
  eapply (processChunks_related (extends streamedWell)); [..|exact Hrun];
    intros;
    first [ apply extends_refl
          | eapply extends_trans; eassumption
          | apply extends_attempt
          | by apply extends_emit
          | apply extends_warning ].
Qed.

(** The shape of every stream that [start] produces. *)
Lemma start_shape fuel apiProvider file actions :
  start fuel apiProvider file = Some actions →
  ∃ body terminal,
    actions = body ++ [Enqueue terminal; Close]
    ∧ Forall streamedWell body
    ∧ match file with
      | Corrupt message => terminal = EvError message
      | Loaded _ => ∃ warnings bankName, terminal = EvComplete warnings bankName
      end.
Proof.
  unfold start. destruct file as [totalPages|message].
  - destruct (splitPdfIntoChunks _ _) as [chunks|];
      cbn [mbind option_bind]; [|done].
    destruct (processChunks _ _ _ _ _ _) as [st'|] eqn:Hrun;
      cbn [mbind option_bind]; [|done].
    intros [= <-].
    apply processChunks_streamedWell in Hrun as (new & Hout & Hnew).
    cbn [output emit] in Hout |- *. rewrite Hout.
    eexists _, _. rewrite <- (app_assoc _ [_] [_]). split; [reflexivity|].
    split; [|by eauto].
    apply Forall_app. split; [|done]. cbn [initialState output app].
    by repeat constructor.
  - intros [= <-]. cbn [output emit initialState app].
    eexists [_], _. split; [reflexivity|]. split; [|done].
    by repeat constructor.
Qed.

Lemma start_total fuel apiProvider file :
  MAX_RETRIES + 2 ≤ fuel → ∃ actions, start fuel apiProvider file = Some actions.
Proof.
  intros Hfuel. unfold start. destruct file as [totalPages|message]; [|eauto].
  assert (Hk : ∃ k, (if isGemini apiProvider then GEMINI_PAGES_PER_CHUNK
                     else GROQ_PAGES_PER_CHUNK) = k ∧ 1 ≤ k).
  { exists 2. destruct (isGemini apiProvider); (split; [done|lia]). }
  destruct Hk as (k & -> & Hk).
  destruct (splitPdfIntoChunks_returns totalPages k Hk) as [chunks ->].
  cbn [mbind option_bind].
  match goal with |- context [processChunks ?f ?p ?c ?i ?t ?s] =>
    destruct (processChunks_total f p c i t s Hfuel) as [st' ->] end.
  cbn [mbind option_bind]. eauto.
Qed.

(** X19. The start callback of the PDF route always ends, and what it
    sends is progress events, transactions events and pauses, then
    exactly one terminal event (complete for a PDF that loads, error
    with the message for one that does not), then the close of the
    stream. *)
Theorem stream_ends_with_one_terminal_event (fuel : nat)
    (apiProvider : jsstring) (file : Pdf) :
  MAX_RETRIES + 2 ≤ fuel →
  ∃ body terminal,
    start fuel apiProvider file = Some (body ++ [Enqueue terminal; Close])
    ∧ forallb isBodyAction body = true
    ∧ match file with
      | Corrupt message => terminal = EvError message
      | Loaded _ => ∃ warnings bankName, terminal = EvComplete warnings bankName
      end.
Proof.
  intros Hfuel.
  destruct (start_total fuel apiProvider file Hfuel) as [actions Hrun].
  destruct (start_shape _ _ _ _ Hrun) as (body & terminal & -> & Hbody & Hend).
  exists body, terminal. split; [done|]. split; [|done].
  apply forallb_forall. intros a Ha.
  apply list_elem_of_In in Ha. rewrite Forall_forall in Hbody.
  specialize (Hbody a Ha). by destruct a as [[]| |].
Qed.

(** X20. Every transactions event of the stream holds at least one
    transaction, and each transaction in it has the currency INR, a
    reference, and a debit, a credit and, when present, a balance that
    are numbers and not negative. *)
Theorem streamed_transactions_are_well_formed (fuel : nat)
    (apiProvider : jsstring) (file : Pdf) (actions : list Action)
    (data : list Transaction) :
  start fuel apiProvider file = Some actions →
  Enqueue (EvTransactions data) ∈ actions →
  data ≠ [] ∧ ∀ tx, tx ∈ data → wellFormed tx.
Proof.
  intros Hrun Hin.
  destruct (start_shape _ _ _ _ Hrun) as (body & terminal & -> & Hbody & Hend).
  apply elem_of_app in Hin as [Hin|Hin].
  - rewrite Forall_forall in Hbody. destruct (Hbody _ Hin) as [Hne Hall].
    split; [done|]. by apply Forall_forall.
  - exfalso. apply elem_of_cons in Hin as [Heq|Hin].
    + injection Heq as <-. destruct file; [by destruct Hend as (? & ? & ?)|done].
    + by apply list_elem_of_singleton in Hin.
Qed.

End Streams.

Section Identifiers.
Context `{RT : Runtime} `{SV : Services}.

Lemma emittedTransactions_app a b :
  emittedTransactions (a ++ b) = emittedTransactions a ++ emittedTransactions b.
Proof. apply bind_app. Qed.

Lemma emittedTransactions_pacing apiProvider i total :
  emittedTransactions (pacingNotice apiProvider i total) = [].
Proof. unfold pacingNotice. by destruct (S i <? total). Qed.

Lemma idsInOrder_more st st' :
  output st' = output st → idsIssued st ≤ idsIssued st' →
  idsInOrder st → idsInOrder st'.
Proof.
  intros Hout Hids (ks & Hks & Hsub). exists ks. rewrite Hout.
  split; [done|].
  replace (idsIssued st') with (idsIssued st + (idsIssued st' - idsIssued st))
    by lia.
  rewrite seq_app. by apply sublist_inserts_r.
Qed.

Lemma idsInOrder_emit a st :
  isTransactionsEvent a = false → idsInOrder st → idsInOrder (emit a st).
Proof.
  intros Ha (ks & Hks & Hsub). exists ks. cbn [emit output idsIssued].
  split; [|done]. rewrite emittedTransactions_app.
  replace (emittedTransactions [a]) with (@nil Transaction)
    by (by destruct a as [[]| |]).
  by rewrite app_nil_r.
Qed.

Lemma idsInOrder_attempt apiProvider chunk i total st :
  idsInOrder st → idsInOrder (attempt apiProvider chunk i total st).2.
Proof.
  destruct (attempt_cases apiProvider chunk i total st)
    as (r & st' & -> & _ & _ & Hids & Hr).
  cbn [snd]. destruct r as [[]|message]; [|by apply idsInOrder_more].
  destruct Hr as (data & Hout & Hnew & Hdata & _).
  intros (ks & Hks & Hsub).
  exists (ks ++ seq (idsIssued st) (length data)).
  rewrite Hout, !emittedTransactions_app, emittedTransactions_pacing, app_nil_r.
  assert (Hev : emittedTransactions
            (if 0 <? length data then [Enqueue (EvTransactions data)] else [])
          = data).
  { destruct data; [done|]. cbn. by rewrite app_nil_r. }
  rewrite Hev, !fmap_app, Hks, Hdata. split; [done|].
  rewrite Hnew, seq_app. by apply sublist_app.
Qed.

Lemma processChunks_idsInOrder fuel apiProvider rest i total st st' :
  processChunks fuel apiProvider rest i total st = Some st' →
  idsInOrder st → idsInOrder st'.
Proof.
  intros Hrun.
  eapply (processChunks_related (λ a b, idsInOrder a → idsInOrder b));
    [..|exact Hrun]; intros;
    first [ assumption
          | by apply idsInOrder_attempt
          | by apply idsInOrder_emit
          | by eauto ].
Qed.

(** X21. If uuidv4 never gives the same value twice, all the
    transactions sent over one stream have different ids. *)
Theorem streamed_ids_are_distinct (fuel : nat) (apiProvider : jsstring)
    (file : Pdf) (actions : list Action) :
  (∀ m n, uuidv4 m = uuidv4 n → m = n) →
  start fuel apiProvider file = Some actions →
  NoDup (tx_id <$> emittedTransactions actions).
Proof.
  intros Hinj. unfold start. destruct file as [totalPages|message].
  - destruct (splitPdfIntoChunks _ _) as [chunks|];
      cbn [mbind option_bind]; [|done].
    destruct (processChunks _ _ _ _ _ _) as [st'|] eqn:Hrun;
      cbn [mbind option_bind]; [|done].
    intros [= <-].
    apply processChunks_idsInOrder in Hrun.
    + apply (idsInOrder_emit (Enqueue (EvComplete (warnings st') (bankName st'))))
        in Hrun; [|done].
      apply (idsInOrder_emit Close) in Hrun; [|done].
      destruct Hrun as (ks & Hks & Hsub). cbn [output emit] in Hks.
      rewrite Hks.
      apply NoDup_fmap_2; [by intros m n ?; apply Hinj|].
      eapply sublist_NoDup; [apply NoDup_seq|exact Hsub].
    + do 2 (apply idsInOrder_emit; [done|]).
      exists []. split; [done|]. apply sublist_nil_l.
  - intros [= <-]. cbn. constructor.
Qed.

End Identifiers.

Section Budget.
Context `{RT : Runtime} `{SV : Services}.

Lemma countTransactionsEvents_app a b :
  countTransactionsEvents (a ++ b)
  = countTransactionsEvents a + countTransactionsEvents b.
Proof. unfold countTransactionsEvents. by rewrite filter_app, length_app. Qed.

Lemma countTransactionsEvents_pacing apiProvider i total :
  countTransactionsEvents (pacingNotice apiProvider i total) = 0.
Proof. unfold pacingNotice. by destruct (S i <? total). Qed.

Lemma retryLoop_done fuel apiProvider chunk i total retries st st' :
  retryLoop fuel apiProvider chunk i total true retries st = Some st' →
  st' = st.
Proof. destruct fuel; [done|]. cbn. by intros [= <-]. Qed.

(** What the retry loop may cost and leave behind for one chunk. *)
Lemma retryLoop_budget fuel apiProvider chunk i total retries st st' :
  retryLoop fuel apiProvider chunk i total false retries st = Some st' →
  calls st ≤ calls st' ≤ calls st + (S MAX_RETRIES - retries)
  ∧ ∃ new ws,
      output st' = output st ++ new ∧ warnings st' = warnings st ++ ws
      ∧ countTransactionsEvents new + length ws ≤ 1
      ∧ Forall (λ w, ∃ errorMsg, w = skipWarning i errorMsg) ws.
Proof.
  revert retries st st'.
  induction fuel as [|fuel IH]; intros retries st st'; [done|].
  cbn [retryLoop negb andb].
  destruct (Nat.leb_spec retries MAX_RETRIES) as [Hle|Hgt]; last first.
  { intros [= <-]. split; [lia|]. exists [], [].
    rewrite !app_nil_r. split; [done|]. split; [done|].
    split; [cbn; lia|done]. }
  destruct (attempt_cases apiProvider chunk i total st)
    as (r & st1 & -> & Hw & Hc & _ & Hr).
  destruct r as [[]|errorMsg].
  - intros ->%retryLoop_done. split; [lia|].
    destruct Hr as (data & Hout & _).
    eexists _, []. split; [exact Hout|]. rewrite app_nil_r.
    split; [done|]. split; [|done].
    rewrite countTransactionsEvents_app, countTransactionsEvents_pacing.
    destruct (0 <? length data);
      [change (countTransactionsEvents [Enqueue (EvTransactions data)]) with 1
      |change (countTransactionsEvents []) with 0]; cbn [length]; lia.
  - destruct (isRateLimit errorMsg).
    + intros Hrest. apply IH in Hrest as (Hc' & new & ws & Ho' & Hw' & Hn & Hws).
      cbn [emit calls output warnings] in Hc', Ho', Hw'.
      split; [lia|]. eexists _, ws. rewrite Ho', Hr, <- !app_assoc.
      split; [reflexivity|]. rewrite Hw', Hw. split; [done|].
      split; [|done]. by rewrite !countTransactionsEvents_app.
    + destruct (Nat.ltb_spec MAX_RETRIES (S retries)) as [Hover|Hmore].
      * intros [= <-]. cbn [pushWarning calls output warnings].
        split; [lia|]. exists [], [skipWarning i errorMsg].
        rewrite app_nil_r, Hr, Hw. repeat split; [done|].
        constructor; [by eexists|done].
      * intros Hrest.
        apply IH in Hrest as (Hc' & new & ws & Ho' & Hw' & Hn & Hws).
        split; [lia|]. exists new, ws. rewrite Ho', Hr, Hw', Hw. done.
Qed.

(** X22. Processing n chunks always ends, calls a provider at most 3n
    times (MAX_RETRIES + 1 attempts for each chunk), and leaves for each
    chunk at most one transactions event or one warning. *)
Theorem document_cost_is_bounded (fuel : nat) (apiProvider : jsstring)
    (rest : list Chunk) (i total : nat) (st : State) :
  MAX_RETRIES + 2 ≤ fuel →
  ∃ st' new ws,
    processChunks fuel apiProvider rest i total st = Some st'
    ∧ calls st ≤ calls st' ≤ calls st + (MAX_RETRIES + 1) * length rest
    ∧ output st' = output st ++ new
    ∧ warnings st' = warnings st ++ ws
    ∧ countTransactionsEvents new + length ws ≤ length rest.
Proof.
  intros Hfuel. revert i st.
  induction rest as [|chunk rest IH]; intros i st.
  { exists st, [], []. rewrite !app_nil_r. cbn. repeat split; lia. }
  cbn [processChunks].
  match goal with |- context [retryLoop ?f ?p ?c ?j ?t false 0 ?s] =>
    destruct (retryLoop_total f p c j t false 0 s) as [st1 Hloop];
      [unfold MAX_RETRIES in *; lia|]
  end.
  rewrite Hloop. cbn [mbind option_bind].
  apply retryLoop_budget in Hloop as (Hc & new1 & ws1 & Ho1 & Hw1 & Hn1 & _).
  cbn [emit calls output warnings] in Hc, Ho1, Hw1.
  destruct (IH (S i) st1) as (st' & new & ws & -> & Hc' & Ho' & Hw' & Hn').
  exists st', ([Enqueue (EvProgress
                 (js "Processing chunk " ++ natStr (i + 1) ++ js "/"
                  ++ natStr total ++ js " (" ++ apiProvider ++ js ")...")
                 (i + 1) total)] ++ new1 ++ new), (ws1 ++ ws).
  split; [done|]. split; [cbn [length]; unfold MAX_RETRIES in *; lia|].
  split; [by rewrite Ho', Ho1, <- !app_assoc|].
  split; [by rewrite Hw', Hw1, <- !app_assoc|].
  rewrite !countTransactionsEvents_app, length_app. cbn [length].
  change (countTransactionsEvents [Enqueue (EvProgress _ _ _)]) with 0. lia.
Qed.


(** X23. When three calls to Gemini in a row fail for a chunk with
    messages that are not rate-limit messages, the chunk is given up:
    exactly three calls are made, nothing is sent for it, the bank name
    stays, and the warning 'Skipped chunk <number> due to errors:
    <message of the last failure>' is recorded. *)
Theorem failing_chunk_is_skipped_with_warning (fuel : nat) (chunk : Chunk)
    (i total : nat) (st : State) :
  MAX_RETRIES + 2 ≤ fuel →
  (∀ n, calls st ≤ n < calls st + 3 →
        ∃ message, processChunkWithGemini n chunk (i + 1) total = Failed message
                 ∧ isRateLimit message = false) →
  ∃ st' last,
    retryLoop fuel (js "gemini") chunk i total false 0 st = Some st'
    ∧ processChunkWithGemini (calls st + 2) chunk (i + 1) total = Failed last
    ∧ warnings st' = warnings st ++ [skipWarning i last]
    ∧ output st' = output st
    ∧ calls st' = calls st + 3
    ∧ bankName st' = bankName st.
Proof.
  intros Hfuel Hfail.
  assert (Hstep : ∀ s, calls st ≤ calls s < calls st + 3 →
    ∃ message,
      processChunkWithGemini (calls s) chunk (i + 1) total = Failed message
      ∧ attempt (js "gemini") chunk i total s
        = (Throw message,
           {| warnings := warnings s; bankName := bankName s;
              output := output s; idsIssued := idsIssued s;
              calls := S (calls s) |})
      ∧ isRateLimit message = false).
  { intros s Hs. destruct (Hfail _ Hs) as (message & Hcall & Hrate).
    exists message. split; [done|]. split; [|done].
    unfold attempt, bind at 1, obtainResponse.
    change (isGemini (js "gemini")) with true. cbv iota.
    unfold await. by rewrite Hcall. }
  destruct fuel as [|[|[|[|fuel]]]]; unfold MAX_RETRIES in Hfuel; try lia.
  cbn [retryLoop negb andb]. change (0 <=? MAX_RETRIES) with true. cbv iota.
  destruct (Hstep st) as (m1 & _ & -> & ->); [lia|].
  change (MAX_RETRIES <? 1) with false. cbv iota.
  change (1 <=? MAX_RETRIES) with true. cbv iota.
  match goal with |- context [attempt _ _ _ _ ?s] =>
    destruct (Hstep s) as (m2 & _ & -> & ->); [simpl; lia|] end.
  change (MAX_RETRIES <? 2) with false. cbv iota.
  change (2 <=? MAX_RETRIES) with true. cbv iota.
  match goal with |- context [attempt _ _ _ _ ?s] =>
    destruct (Hstep s) as (m3 & Hlast & -> & ->); [simpl; lia|] end.
  change (MAX_RETRIES <? 3) with true. cbv iota.
  cbn [calls] in Hlast.
  eexists _, m3. split; [reflexivity|].
  cbn [calls warnings bankName output pushWarning].
  split; [by replace (calls st + 2) with (S (S (calls st))) by lia|].
  split; [done|]. split; [done|]. split; [lia|done].
Qed.

(** X24. On the Groq path a chunk whose extracted text has fewer than 20
    characters after trimming is never sent to the provider; when
    JSON.parse reads the literal empty document, the attempt succeeds,
    sends only the pacing notice and changes neither the warnings nor
    the bank name. *)
Theorem short_page_costs_no_call (apiProvider : jsstring) (chunk : Chunk)
    (i total : nat) (st : State) :
  isGemini apiProvider = false →
  length (trim (extractPdfText chunk)) < 20 →
  calls (attempt apiProvider chunk i total st).2 = calls st
  ∧ (JSON_parse emptyDocument = Some emptyResult →
     ∃ st',
       attempt apiProvider chunk i total st = (Ok tt, st')
       ∧ output st' = output st ++ pacingNotice apiProvider i total
       ∧ warnings st' = warnings st ∧ bankName st' = bankName st
       ∧ idsIssued st' = idsIssued st ∧ calls st' = calls st).
Proof.
  intros Hprovider Hshort.
  assert (Hobtain : obtainResponse apiProvider chunk i total st
                    = (Ok emptyDocument, st)).
  { unfold obtainResponse. rewrite Hprovider.
    by destruct (Nat.ltb_spec (length (trim (extractPdfText chunk))) 20); [|lia]. }
  split.
  - unfold attempt, bind at 1. rewrite Hobtain.
    unfold bind at 1, lift at 1.
    destruct (PdfRoute.parseAIResponse emptyDocument) as [parsed|message];
      [|done].
    unfold bind at 1.
    destruct (adoptBankName parsed st) as [[[]|message] st2] eqn:H2;
      apply adoptBankName_frame in H2 as (_ & _ & _ & Hc2); [|done].
    unfold bind at 1, lift at 1.
    destruct (getProp parsed (js "transactions")) as [v|message]; [|done].
    unfold bind at 1.
    destruct (mapTransactions (or_else v (JArray [])) st2)
      as [[data|message] st3] eqn:H3;
      apply mapTransactions_run in H3 as (_ & _ & Hc3 & _);
      [|cbn [snd]; by rewrite Hc3, Hc2].
    unfold bind, modify, ret. cbv zeta.
    destruct (0 <? length data); destruct (S i <? total);
      cbn [snd calls emit]; by rewrite Hc3, Hc2.
  - intros Hparse.
    assert (Hdoc : PdfRoute.parseAIResponse emptyDocument = Ok emptyResult).
    { unfold PdfRoute.parseAIResponse.
      change (bool_decide (emptyDocument = [])
              || (length (trim emptyDocument) =? 0)) with false. cbv iota.
      assert (jsonCandidate emptyDocument = emptyDocument) as -> by (by vm_compute).
      unfold JSON_parse_exc. by rewrite Hparse. }
    unfold attempt, bind at 1. rewrite Hobtain.
    unfold bind at 1, lift at 1. rewrite Hdoc.
    unfold bind at 1, adoptBankName.
    change (getProp emptyResult (js "bankName")) with (Ok JUndefined).
    change (getProp emptyResult (js "transactions")) with (Ok (JArray [])).
    unfold pacingNotice.
    destruct (truthy (bankName st)); destruct (S i <? total);
      cbn; eexists; (split; [reflexivity|]); cbn;
      rewrite ?app_nil_r, <- ?app_assoc; done.
Qed.

End Budget.

(** *** The image route *)

Section ImageRequests.
Context `{RT : Runtime} `{VS : ImageHandler.Vision}.

Lemma image_toTransaction_run parsed tx issued t :
  ImageHandler.toTransaction parsed tx issued = Ok t →
  tx_id t = uuidv4 issued ∧ wellFormed t
  ∧ getProp parsed (js "bankName") = Ok (tx_bankName t).
Proof.
  unfold ImageHandler.toTransaction. cbv zeta. intros Hr.
  repeat match type of Hr with
         | context [exc_bind (getProp ?v ?k) _] =>
           destruct (getProp v k) eqn:?; cbn [exc_bind] in Hr; [|done]
         end.
  assert (Heq := f_equal (λ r, match r with Ok x => x | Throw _ => t end) Hr).
  cbv beta iota in Heq. rewrite <- Heq. clear Hr Heq.
  split; [done|]. split; [|done].
  split; [done|].
  split; [split; [apply parseAmount_nonneg|apply parseAmount_string_number]|].
  split; [split; [apply parseAmount_nonneg|apply parseAmount_string_number]|].
  split; [|by eexists].
  intros balance Hb. cbn [tx_balance] in Hb.
  match type of Hb with (if ?c then _ else _) = _ => destruct c end; [done|].
  assert (Heq := f_equal (λ o, match o with Some x => x | None => balance end) Hb).
  cbv beta iota in Heq. rewrite <- Heq.
  split; [apply parseAmount_nonneg|apply parseAmount_string_number].
Qed.

Lemma image_mapItems_run parsed items issued data :
  ImageHandler.mapItems parsed items issued = Ok data →
  tx_id <$> data = uuidv4 <$> seq issued (length data)
  ∧ Forall wellFormed data
  ∧ ∀ tx, tx ∈ data → getProp parsed (js "bankName") = Ok (tx_bankName tx).
Proof.
  revert issued data. induction items as [|x items IH]; intros issued data.
  { intros [= <-]. split; [done|]. split; [done|].
    intros tx Hin. by apply elem_of_nil in Hin. }
  cbn [ImageHandler.mapItems].
  destruct (ImageHandler.toTransaction parsed x issued) as [t|] eqn:Ht;
    cbn [exc_bind]; [|done].
  destruct (ImageHandler.mapItems parsed items (S issued)) as [ts|] eqn:Hts;
    cbn [exc_bind]; [|done].
  intros [= <-].
  apply image_toTransaction_run in Ht as (Hid & Hgood & Hbank).
  apply IH in Hts as (Hids & Hall & Hbanks).
  cbn [length seq fmap list_fmap]. split; [by rewrite Hid, Hids|].
  split; [by constructor|].
  intros tx [->|Hin]%elem_of_cons; [done|by apply Hbanks].
Qed.

(** X25. When the image route answers with a result, every transaction
    in it is well formed and carries the bank name of the result, the
    ids are the ones handed out one after the other during the request,
    and the warnings end with 'Processed with: <provider>', with 'No
    transactions found in the image' before it exactly when there is no
    transaction. *)
Theorem image_result_is_well_formed (issued : nat) (env : Env)
    (request : ImageHandler.Request) (transactions : list Transaction)
    (warnings : list jsstring) (bankName : JSValue) :
  ImageHandler.POST issued env request
  = ImageHandler.JsonResult transactions warnings bankName →
  (∀ tx, tx ∈ transactions → wellFormed tx ∧ tx_bankName tx = bankName)
  ∧ tx_id <$> transactions = uuidv4 <$> seq issued (length transactions)
  ∧ ∃ usedProvider,
      warnings
      = (if length transactions =? 0
         then [js "No transactions found in the image"] else [])
        ++ [js "Processed with: " ++ usedProvider].
Proof.
  unfold ImageHandler.POST.
  destruct (ImageHandler.req_file request) as [file|]; [|done].
  cbv zeta.
  match goal with |- context [match ?k with Some _ => _ | None => _ end] =>
    destruct k as [key|] end; [|done].
  assert (Hfinish : ∀ text usedProvider,
    match
      match ImageRoute.parseAIResponse text with
      | Throw _ =>
        Ok (ImageHandler.JsonError 500
              (js "AI returned invalid format. Provider: " ++ usedProvider))
      | Ok parsed =>
        exc_bind (getProp parsed (js "transactions")) (λ transactionsProp,
        exc_bind (ImageHandler.mapTransactions parsed
                    (or_else transactionsProp (JArray [])) issued)
                 (λ transactions,
        let warnings :=
          (if length transactions =? 0
           then [js "No transactions found in the image"] else [])
          ++ [js "Processed with: " ++ usedProvider] in
        exc_bind (getProp parsed (js "bankName")) (λ bankName,
        Ok (ImageHandler.JsonResult transactions warnings bankName))))
      end
    with
    | Ok response => response
    | Throw errorMessage =>
      ImageHandler.JsonError 500 (js "Failed to process image: " ++ errorMessage)
    end = ImageHandler.JsonResult transactions warnings bankName →
    (∀ tx, tx ∈ transactions → wellFormed tx ∧ tx_bankName tx = bankName)
    ∧ tx_id <$> transactions = uuidv4 <$> seq issued (length transactions)
    ∧ ∃ usedProvider,
        warnings
        = (if length transactions =? 0
           then [js "No transactions found in the image"] else [])
          ++ [js "Processed with: " ++ usedProvider]).
  { intros text usedProvider.
    destruct (ImageRoute.parseAIResponse text) as [parsed|]; [|done].
    destruct (getProp parsed (js "transactions")) as [v|]; cbn [exc_bind];
      [|done].
    destruct (ImageHandler.mapTransactions parsed _ issued) as [data|] eqn:Hmap;
      cbn [exc_bind]; [|done].
    destruct (getProp parsed (js "bankName")) as [b|] eqn:Hb; cbn [exc_bind];
      [|done].
    intros [= <- <- <-].
    unfold ImageHandler.mapTransactions in Hmap.
    destruct (or_else v (JArray [])); try done.
    apply image_mapItems_run in Hmap as (Hids & Hall & Hbanks).
    split; [|split; [done|by eexists]].
    intros tx Hin. split; [by eapply Forall_forall|].
    specialize (Hbanks tx Hin). congruence. }
  destruct (isGemini _).
  - destruct (ImageHandler.processWithGemini _ _ _ _) as [text|errorMsg].
    + cbn [exc_bind]. apply Hfinish.
    + by destruct (includes (js "429") errorMsg).
  - destruct (ImageHandler.processWithGroqVision _ _ _ _) as [text|errorMsg];
      [|done].
    cbn [exc_bind]. apply Hfinish.
Qed.

Lemma stringOr_present {A} s (orElse : A) present :
  s ≠ [] → stringOr (Some s) orElse present = present s.
Proof. by destruct s. Qed.

(** X26. With a provider, a key and a model given: a failure of Gemini
    is answered with status 429 when its message contains 429 and with
    status 500 'Failed to process image: <message>' otherwise; a failure
    of Groq is always answered with status 400 'Groq Vision failed:
    <message>'; an answer of white space only, from either provider, is
    answered with status 500 'AI returned invalid format'. *)
Theorem image_route_answers_failures (issued : nat) (env : Env)
    (file : ImageHandler.ImageFile) (apiProvider key modelId : jsstring) :
  apiProvider ≠ [] → key ≠ [] → modelId ≠ [] →
  let request :=
    {| ImageHandler.req_file := Some file;
       ImageHandler.req_apiProvider := Some apiProvider;
       ImageHandler.req_apiKey := Some key;
       ImageHandler.req_modelId := Some modelId |} in
  let mimeType :=
    stringOr (Some (ImageHandler.fileType file)) (js "image/jpeg") id in
  (isGemini apiProvider = true →
   (∀ errorMsg,
      ImageHandler.processWithGemini (ImageHandler.base64Data file) mimeType
        key modelId = Failed errorMsg →
      ImageHandler.POST issued env request
      = if includes (js "429") errorMsg
        then ImageHandler.JsonError 429
               (js "Gemini rate limit exceeded. Wait and try again.")
        else ImageHandler.JsonError 500
               (js "Failed to process image: " ++ errorMsg))
   ∧ (∀ text,
        ImageHandler.processWithGemini (ImageHandler.base64Data file) mimeType
          key modelId = Returned text →
        trim text = [] →
        ImageHandler.POST issued env request
        = ImageHandler.JsonError 500
            (js "AI returned invalid format. Provider: Gemini ("
             ++ modelId ++ js ")")))
  ∧ (isGemini apiProvider = false →
     (∀ errorMsg,
        ImageHandler.processWithGroqVision (ImageHandler.base64Data file)
          mimeType key modelId = Failed errorMsg →
        ImageHandler.POST issued env request
        = ImageHandler.JsonError 400 (js "Groq Vision failed: " ++ errorMsg))
     ∧ (∀ text,
          ImageHandler.processWithGroqVision (ImageHandler.base64Data file)
            mimeType key modelId = Returned text →
          trim text = [] →
          ImageHandler.POST issued env request
          = ImageHandler.JsonError 500
              (js "AI returned invalid format. Provider: Groq Vision ("
               ++ modelId ++ js ")"))).
Proof.
  intros Hprovider Hkey Hmodel request mimeType.
  assert (Hblank : ∀ text, trim text = [] →
            ImageRoute.parseAIResponse text
            = Throw (js "AI returned empty response")).
  { intros text Htext. unfold ImageRoute.parseAIResponse.
    by rewrite (proj2 (blank_test text) Htext). }
  subst mimeType. unfold ImageHandler.POST, request.
  cbn [ImageHandler.req_file ImageHandler.req_apiProvider
       ImageHandler.req_apiKey ImageHandler.req_modelId].
  rewrite !(stringOr_present apiProvider) by done.
  rewrite !(stringOr_present key) by done.
  rewrite !(stringOr_present modelId) by done.
  cbv zeta. unfold id.
  split; intros Hg; rewrite Hg; split.
  - intros errorMsg ->. by destruct (includes (js "429") errorMsg).
  - intros text -> Htext. cbn [exc_bind]. by rewrite (Hblank text Htext).
  - by intros errorMsg ->.
  - intros text -> Htext. cbn [exc_bind]. by rewrite (Hblank text Htext).
Qed.

End ImageRequests.

(** *** Tabular statements *)

Section ColumnLookup.
Context `{RT : Runtime}.

Lemma indexOf_Some x l i : indexOf x l = Some i → l !! i = Some x.
Proof.
  revert i. induction l as [|y r IH]; intros i; cbn [indexOf]; [done|].
  case_bool_decide as Hy.
  - intros [= <-]. by rewrite Hy.
  - destruct (indexOf x r) as [j|]; [|done].
    intros [= <-]. by apply IH.
Qed.

Lemma indexOf_None x l : indexOf x l = None ↔ x ∉ l.
Proof.
  induction l as [|y r IH]; cbn [indexOf].
  - split; [intros _; apply not_elem_of_nil|done].
  - case_bool_decide as Hy.
    + split; [done|]. intros Hx. destruct Hx. rewrite Hy. apply list_elem_of_here.
    + rewrite not_elem_of_cons, <- IH.
      destruct (indexOf x r); cbn.
      * split; [done|]. by intros [_ ?].
      * split; [|done]. intros _. split; [congruence|done].
Qed.

Lemma exactMatch_Some aliases l i :
  exactMatch aliases l = Some i →
  ∃ alias, alias ∈ aliases ∧ l !! i = Some alias.
Proof.
  induction aliases as [|alias rest IH]; cbn [exactMatch]; [done|].
  destruct (indexOf alias l) as [j|] eqn:Hj.
  - intros [= <-]. exists alias. split; [apply list_elem_of_here|].
    by apply indexOf_Some.
  - intros (a & Ha & Hl)%IH. exists a. split; [by apply list_elem_of_further|done].
Qed.

Lemma exactMatch_None aliases l :
  exactMatch aliases l = None ↔ ∀ alias, alias ∈ aliases → alias ∉ l.
Proof.
  induction aliases as [|alias rest IH]; cbn [exactMatch].
  - split; [|done]. intros _ alias Ha. by apply elem_of_nil in Ha.
  - destruct (indexOf alias l) as [j|] eqn:Hj.
    + split; [done|]. intros Hall.
      apply indexOf_Some, list_elem_of_lookup_2 in Hj.
      destruct (Hall alias); [apply list_elem_of_here|done].
    + rewrite IH. apply indexOf_None in Hj. split.
      * intros Hall a [->|Ha]%elem_of_cons; [done|by apply Hall].
      * intros Hall a Ha. apply Hall. by apply list_elem_of_further.
Qed.

Lemma firstPartialMatch_Some aliases k l i :
  firstPartialMatch aliases k l = Some i →
  ∃ j h, i = k + j ∧ l !! j = Some h ∧ partialMatch aliases h = true
       ∧ ∀ j' h', j' < j → l !! j' = Some h' → partialMatch aliases h' = false.
Proof.
  revert k. induction l as [|h rest IH]; intros k; cbn [firstPartialMatch];
    [done|].
  destruct (partialMatch aliases h) eqn:Hh.
  - intros [= <-]. exists 0, h. split; [lia|]. split; [done|].
    split; [done|]. intros; lia.
  - intros (j & h' & -> & Hl & Hm & Hfirst)%IH.
    exists (S j), h'. split; [lia|]. split; [done|]. split; [done|].
    intros [|j'] h'' Hlt; cbn.
    + by intros [= <-].
    + apply Hfirst. lia.
Qed.

Lemma firstPartialMatch_None aliases k l :
  firstPartialMatch aliases k l = None
  ↔ ∀ h, h ∈ l → partialMatch aliases h = false.
Proof.
  revert k. induction l as [|h rest IH]; intros k; cbn [firstPartialMatch].
  - split; [|done]. intros _ h Hh. by apply elem_of_nil in Hh.
  - destruct (partialMatch aliases h) eqn:Hh.
    + split; [done|]. intros Hall.
      rewrite Hall in Hh by apply list_elem_of_here. done.
    + rewrite IH. split.
      * intros Hall a [->|Ha]%elem_of_cons; [done|by apply Hall].
      * intros Hall a Ha. apply Hall. by apply list_elem_of_further.
Qed.

Lemma includes_refl s : includes s s = true.
Proof. destruct s; cbn; [done|]. by rewrite N.eqb_refl, startsWith_refl. Qed.

Lemma includes_nil s : includes [] s = true.
Proof. by destruct s. Qed.

Lemma partialMatch_exact aliases h : h ∈ aliases → partialMatch aliases h = true.
Proof.
  intros Hh. unfold partialMatch. apply existsb_exists.
  exists h. split; [by apply list_elem_of_In|]. by rewrite includes_refl.
Qed.

Lemma partialMatch_blank aliases : aliases ≠ [] → partialMatch aliases [] = true.
Proof.
  destruct aliases as [|alias rest]; [done|]. intros _.
  unfold partialMatch. cbn [existsb]. rewrite (includes_nil alias).
  by rewrite orb_true_r.
Qed.

Lemma exactMatch_header aliases headers i :
  exactMatch aliases ((λ h, trim (String_toLowerCase h)) <$> headers) = Some i →
  ∃ h, headers !! i = Some h ∧ trim (String_toLowerCase h) ∈ aliases.
Proof.
  intros (alias & Ha & Hl)%exactMatch_Some.
  rewrite list_lookup_fmap in Hl.
  destruct (headers !! i) as [h|]; [|done].
  injection Hl as <-. by exists h.
Qed.

Lemma findColumnIndex_None headers field :
  findColumnIndex headers field = None
  ↔ ∀ h, h ∈ headers → ¬ matchesAlias (aliasesOf field) h.
Proof.
  unfold findColumnIndex.
  destruct (exactMatch _ _) as [i|] eqn:He.
  - split; [done|]. intros Hall.
    destruct (exactMatch_header _ _ _ He) as (h & Hh & Hin).
    destruct (Hall h).
    + by eapply list_elem_of_lookup_2.
    + by apply partialMatch_exact.
  - rewrite firstPartialMatch_None. split.
    + intros Hall h Hh. unfold matchesAlias.
      rewrite (Hall (trim (String_toLowerCase h))); [done|].
      apply list_elem_of_fmap. by exists h.
    + intros Hall h' (h & -> & Hh)%list_elem_of_fmap.
      apply not_true_is_false. by apply Hall.
Qed.

(** X27. findColumnIndex returns the index of a header that, in lower
    case and trimmed, is part of an alias of the field or has an alias
    as a part; a header that equals an alias wins over partial matches,
    otherwise the first partial match is taken; it returns -1 exactly
    when no header matches, so a header row with a blank cell never
    gives -1 for a field with aliases. *)
Theorem findColumnIndex_prefers_exact (headers : list jsstring)
    (field : jsstring) :
  let aliases := aliasesOf field in
  let lower := λ h, trim (String_toLowerCase h) in
  (∀ i, findColumnIndex headers field = Some i →
        ∃ h, headers !! i = Some h ∧ matchesAlias aliases h)
  ∧ ((∃ h, h ∈ headers ∧ lower h ∈ aliases) →
     ∃ i h, findColumnIndex headers field = Some i
          ∧ headers !! i = Some h ∧ lower h ∈ aliases)
  ∧ ((∀ h, h ∈ headers → lower h ∉ aliases) →
     ∀ i, findColumnIndex headers field = Some i →
          ∀ j h, j < i → headers !! j = Some h → ¬ matchesAlias aliases h)
  ∧ (findColumnIndex headers field = None
     ↔ ∀ h, h ∈ headers → ¬ matchesAlias aliases h)
  ∧ (∀ h, h ∈ headers → lower h = [] → aliases ≠ [] →
          findColumnIndex headers field ≠ None).
Proof.
  intros aliases lower.
  split; [|split; [|split; [|split]]].
  - intros i. unfold findColumnIndex. fold aliases. fold lower.
    destruct (exactMatch aliases (lower <$> headers)) as [k|] eqn:He.
    + intros [= <-]. destruct (exactMatch_header _ _ _ He) as (h & Hh & Hin).
      exists h. split; [done|]. by apply partialMatch_exact.
    + intros (j & h' & -> & Hl & Hm & _)%firstPartialMatch_Some.
      rewrite list_lookup_fmap in Hl.
      destruct (headers !! j) as [h|] eqn:Hj; [|done].
      injection Hl as <-. by exists h.
  - intros (h & Hh & Hin). unfold findColumnIndex. fold aliases. fold lower.
    destruct (exactMatch aliases (lower <$> headers)) as [k|] eqn:He.
    + destruct (exactMatch_header _ _ _ He) as (h' & Hh' & Hin'). by exists k, h'.
    + destruct (proj1 (exactMatch_None _ _) He (lower h) Hin).
      apply list_elem_of_fmap. by exists h.
  - intros Hno i. unfold findColumnIndex. fold aliases. fold lower.
    destruct (exactMatch aliases (lower <$> headers)) as [k|] eqn:He.
    + destruct (exactMatch_header _ _ _ He) as (h' & Hh' & Hin').
      destruct (Hno h'); [by eapply list_elem_of_lookup_2|done].
    + intros (j' & h' & -> & Hl & Hm & Hfirst)%firstPartialMatch_Some.
      intros j h Hj Hh Hmatch. unfold matchesAlias in Hmatch.
      assert (Hf := Hfirst j (lower h) ltac:(lia)).
      rewrite list_lookup_fmap, Hh in Hf. specialize (Hf eq_refl).
      subst aliases lower. cbv beta in Hf. congruence.
  - apply findColumnIndex_None.
  - intros h Hh Hblank Haliases Hfind.
    apply (proj1 (findColumnIndex_None _ _) Hfind h Hh). unfold matchesAlias.
    fold (lower h). rewrite Hblank. by apply partialMatch_blank.
Qed.

Lemma findColumnKeyIn_test aliases lowerHeader :
  existsb (λ alias,
             bool_decide (lowerHeader = alias)
             || includes alias lowerHeader || includes lowerHeader alias)
          aliases
  = partialMatch aliases lowerHeader.
Proof.
  unfold partialMatch. induction aliases as [|alias rest IH]; [done|].
  cbn [existsb]. rewrite IH. f_equal.
  case_bool_decide as Heq; [|done].
  subst. by rewrite includes_refl.
Qed.

Lemma findColumnKeyIn_Some aliases headers header :
  findColumnKeyIn aliases headers = Some header
  ↔ ∃ before after,
      headers = before ++ header :: after
      ∧ matchesAlias aliases header
      ∧ ∀ h, h ∈ before → ¬ matchesAlias aliases h.
Proof.
  unfold matchesAlias.
  induction headers as [|h rest IH]; cbn [findColumnKeyIn].
  - split; [done|]. intros (before & after & Heq & _). by destruct before.
  - rewrite findColumnKeyIn_test.
    destruct (partialMatch aliases (trim (String_toLowerCase h))) eqn:Hh.
    + split.
      * intros [= <-]. exists [], rest. split; [done|]. split; [done|].
        intros h' Hin. by apply elem_of_nil in Hin.
      * intros ([|b before] & after & Heq & Hm & Hfirst).
        -- by injection Heq as ->.
        -- injection Heq as <- _. destruct (Hfirst h); [apply list_elem_of_here|done].
    + rewrite IH. split.
      * intros (before & after & -> & Hm & Hfirst).
        exists (h :: before), after. split; [done|]. split; [done|].
        intros h' [->|Hin]%elem_of_cons; [by rewrite Hh|by apply Hfirst].
      * intros ([|b before] & after & Heq & Hm & Hfirst).
        -- injection Heq as <- _. by rewrite Hh in Hm.
        -- injection Heq as <- ->. exists before, after.
           split; [done|]. split; [done|].
           intros h' Hin. apply Hfirst. by apply list_elem_of_further.
Qed.

Lemma findColumnKeyIn_None aliases headers :
  findColumnKeyIn aliases headers = None
  ↔ ∀ h, h ∈ headers → ¬ matchesAlias aliases h.
Proof.
  unfold matchesAlias.
  induction headers as [|h rest IH]; cbn [findColumnKeyIn].
  - split; [|done]. intros _ h Hh. by apply elem_of_nil in Hh.
  - rewrite findColumnKeyIn_test.
    destruct (partialMatch aliases (trim (String_toLowerCase h))) eqn:Hh.
    + split; [done|]. intros Hall.
      destruct (Hall h); [apply list_elem_of_here|done].
    + rewrite IH. split.
      * intros Hall a [->|Ha]%elem_of_cons; [by rewrite Hh|by apply Hall].
      * intros Hall a Ha. apply Hall. by apply list_elem_of_further.
Qed.

Lemma findColumnKeyIn_partial aliases headers k :
  findColumnKeyIn aliases headers
  = i ← firstPartialMatch aliases k
         ((λ h, trim (String_toLowerCase h)) <$> headers);
    headers !! (i - k).
Proof.
  revert k. induction headers as [|h rest IH]; intros k; [done|].
  cbn [findColumnKeyIn fmap list_fmap firstPartialMatch].
  rewrite findColumnKeyIn_test.
  destruct (partialMatch aliases (trim (String_toLowerCase h))) eqn:Hh.
  - cbn. by rewrite Nat.sub_diag.
  - rewrite (IH (S k)).
    destruct (firstPartialMatch aliases (S k) _) as [i|] eqn:Hi; [|done].
    cbn. apply firstPartialMatch_Some in Hi as (j & _ & -> & _).
    replace (S k + j - k) with (S j) by lia.
    replace (S k + j - S k) with j by lia. done.
Qed.

(** X28. findColumnKey of the Excel parser returns the first header that
    matches an alias exactly or in part; it finds a column exactly when
    findColumnIndex of the CSV parser does, and the same column when no
    header equals an alias exactly. *)
Theorem findColumnKey_takes_first_match (headers : list jsstring)
    (field : jsstring) :
  let aliases := aliasesOf field in
  let lower := λ h, trim (String_toLowerCase h) in
  (∀ header,
     findColumnKey headers field = Some header
     ↔ ∃ before after,
         headers = before ++ header :: after
         ∧ matchesAlias aliases header
         ∧ ∀ h, h ∈ before → ¬ matchesAlias aliases h)
  ∧ (findColumnKey headers field = None
     ↔ findColumnIndex headers field = None)
  ∧ ((∀ h, h ∈ headers → lower h ∉ aliases) →
     findColumnKey headers field
     = i ← findColumnIndex headers field; headers !! i).
Proof.
  intros aliases lower. unfold findColumnKey. fold aliases.
  split; [|split].
  - intros header. apply findColumnKeyIn_Some.
  - rewrite findColumnKeyIn_None.
    symmetry. apply findColumnIndex_None.
  - intros Hno. unfold findColumnIndex. fold aliases. fold lower.
    destruct (exactMatch aliases (lower <$> headers)) as [k|] eqn:He.
    + apply exactMatch_Some in He as (alias & Ha & Hl).
      rewrite list_lookup_fmap in Hl.
      destruct (headers !! k) as [h|] eqn:Hk; [|done].
      injection Hl as <-.
      destruct (Hno h); [by eapply list_elem_of_lookup_2|done].
    + rewrite (findColumnKeyIn_partial aliases headers 0).
      fold lower. destruct (firstPartialMatch aliases 0 _); [|done].
      cbn. by rewrite Nat.sub_0_r.
Qed.

End ColumnLookup.

Section Tables.
Context `{RT : Runtime} `{PP : Papa}.

Lemma string_amountInRange s : amountInRange (parseAmount (AString s)).
Proof. split; [apply parseAmount_nonneg|apply parseAmount_string_number]. Qed.

Lemma zero_amountInRange : amountInRange zero.
Proof. by split. Qed.

Lemma determineDebitCredit_range s typeHint :
  amountInRange (dc_debit (determineDebitCredit (AString s) typeHint))
  ∧ amountInRange (dc_credit (determineDebitCredit (AString s) typeHint)).
Proof.
  unfold determineDebitCredit.
  repeat match goal with
         | |- context [if ?b then _ else _] => destruct b
         end;
    cbn [dc_debit dc_credit];
    split; first [apply string_amountInRange|apply zero_amountInRange].
Qed.

Lemma positive_of_nonzero x : amountInRange x → isZero x = false → gt0 x = true.
Proof.
  intros [Hlt Hnan]. destruct x as [|negative|q]; cbn in *; [done|..].
  - by rewrite Hlt.
  - intros Hz. apply Z.ltb_lt. apply Z.ltb_ge in Hlt. apply Z.eqb_neq in Hz. lia.
Qed.

(** What the loop body pushes. *)
Lemma parseRow_Some cols row issued tx :
  parseRow cols row issued = Some tx →
  tx_id tx = uuidv4 issued
  ∧ wellFormed tx
  ∧ testIsoDate (tx_date tx) = true
  ∧ gt0 (tx_debit tx) || gt0 (tx_credit tx) = true
  ∧ tx_bankName tx = JUndefined.
Proof.
  unfold parseRow.
  destruct (length row =? 0); [done|].
  destruct (_ || _ || _); [done|].
  destruct (bool_decide _ || negb (testIsoDate _)) eqn:Hdate; [done|].
  apply orb_false_iff in Hdate as [_ Hiso]. apply negb_false_iff in Hiso.
  match goal with
  | |- context [let '(debit, credit) := ?amounts in _] =>
    assert (Hrange : amountInRange amounts.1 ∧ amountInRange amounts.2);
      [|destruct amounts as [debit credit]]
  end.
  { destruct (debitIdx cols), (creditIdx cols), (amountIdx cols); cbn [fst snd];
      first [apply determineDebitCredit_range
            |split; first [apply string_amountInRange|apply zero_amountInRange]]. }
  cbn [fst snd] in Hrange. destruct Hrange as [Hdebit Hcredit].
  destruct (isZero debit && isZero credit) eqn:Hzero; [done|].
  intros Heq. apply (f_equal (from_option id tx)) in Heq.
  cbn [from_option id] in Heq. subst tx.
  cbn [tx_id tx_date tx_debit tx_credit tx_bankName].
  split; [done|]. split; [|split; [done|split; [|done]]].
  - unfold wellFormed.
    cbn [tx_currency tx_debit tx_credit tx_balance tx_reference].
    split; [done|]. split; [done|]. split; [done|]. split; [|by eexists].
    destruct (balanceIdx cols); [|done].
    intros balance Hbalance.
    apply (f_equal (from_option id balance)) in Hbalance.
    cbn [from_option id] in Hbalance. subst balance.
    apply string_amountInRange.
  - apply andb_false_iff in Hzero as [Hz|Hz].
    + by rewrite (positive_of_nonzero _ Hdebit Hz).
    + rewrite (positive_of_nonzero _ Hcredit Hz). apply orb_true_r.
Qed.

Lemma parseRows_spec cols rows issued :
  let transactions := parseRows cols rows issued in
  (∀ tx, tx ∈ transactions →
     wellFormed tx ∧ testIsoDate (tx_date tx) = true
     ∧ gt0 (tx_debit tx) || gt0 (tx_credit tx) = true
     ∧ tx_bankName tx = JUndefined)
  ∧ tx_id <$> transactions = uuidv4 <$> seq issued (length transactions)
  ∧ length transactions ≤ length rows.
Proof.
  revert issued. induction rows as [|row rest IH]; intros issued; cbn zeta.
  - cbn. split; [|done]. intros tx Htx. by apply elem_of_nil in Htx.
  - cbn [parseRows].
    destruct (parseRow cols row issued) as [t|] eqn:Hrow.
    + apply parseRow_Some in Hrow as (Hid & Hrest).
      destruct (IH (S issued)) as (Hall & Hids & Hlen).
      split; [|split].
      * intros tx [->|Htx]%elem_of_cons; [done|by apply Hall].
      * cbn. by rewrite Hid, Hids.
      * cbn. lia.
    + destruct (IH issued) as (Hall & Hids & Hlen).
      split; [done|]. split; [done|]. cbn. lia.
Qed.

Lemma parseRows_no_date cols rows issued :
  dateIdx cols = None → parseRows cols rows issued = [].
Proof.
  intros Hdate. induction rows as [|row rest IH]; [done|].
  cbn [parseRows].
  assert (Hrow : parseRow cols row issued = None).
  { unfold parseRow. destruct (length row =? 0); [done|].
    rewrite Hdate. done. }
  by rewrite Hrow.
Qed.

(** X29. Every transaction returned by parseCSV is well formed (currency
    INR, a reference, amounts that are numbers and not negative), has a
    date in which dddd-dd-dd occurs, a debit or a credit above zero and
    no bank name; the ids are the ones handed out one after the other
    during the call, and there are fewer transactions than rows. *)
Theorem parseCSV_transactions_are_well_formed (issued : nat)
    (content : jsstring) :
  let result := parseCSV issued content in
  (∀ tx, tx ∈ result_transactions result →
     wellFormed tx ∧ testIsoDate (tx_date tx) = true
     ∧ gt0 (tx_debit tx) || gt0 (tx_credit tx) = true
     ∧ tx_bankName tx = JUndefined)
  ∧ tx_id <$> result_transactions result
    = uuidv4 <$> seq issued (length (result_transactions result))
  ∧ length (result_transactions result)
    ≤ length (papa_data (Papa_parse content)) - 1.
Proof.
  cbn zeta. unfold parseCSV.
  destruct (length (papa_data (Papa_parse content)) <? 2) eqn:Hlen.
  { cbn. split; [|split; [done|lia]].
    intros tx Htx. by apply elem_of_nil in Htx. }
  apply Nat.ltb_ge in Hlen.
  destruct (default (0, []) (detectHeaders 0 _)) as [headerRowIndex headers].
  destruct (length headers =? 0);
    cbn [result_transactions];
    match goal with
    | |- context [parseRows ?cols ?rows issued] =>
      destruct (parseRows_spec cols rows issued) as (Hall & Hids & Hrows)
    end;
    (split; [done|]; split; [done|]);
    rewrite length_drop in Hrows; lia.
Qed.

Lemma parseCSV_unfold issued content :
  2 ≤ length (papa_data (Papa_parse content)) →
  ∃ headerRowIndex headers early,
    let cols := columnsOf headers in
    let transactions :=
      parseRows cols (drop (headerRowIndex + 1) (papa_data (Papa_parse content)))
                issued in
    parseCSV issued content
    = {| result_transactions := transactions;
         result_warnings :=
           (early
            ++ match dateIdx cols with
               | Some _ => []
               | None => [js "Could not find date column"]
               end
            ++ match descIdx cols with
               | Some _ => []
               | None => [js "Could not find description column"]
               end)
           ++ (if length transactions =? 0
               then [js "No valid transactions found in CSV"] else []) |}
    ∧ ∀ w, w ∈ early →
        w = js "CSV parsing had "
              ++ natStr (papa_errors (Papa_parse content)) ++ js " errors"
        ∨ w = js "Could not detect headers, using first row".
Proof.
  intros Hlen. apply Nat.ltb_ge in Hlen. unfold parseCSV. rewrite Hlen.
  destruct (default (0, []) (detectHeaders 0 _)) as [headerRowIndex headers].
  destruct (length headers =? 0).
  - eexists headerRowIndex, _, _. cbn zeta. split; [reflexivity|].
    intros w [Hw|Hw%list_elem_of_singleton]%elem_of_app; [|by right].
    destruct (0 <? _); [|by apply elem_of_nil in Hw].
    apply list_elem_of_singleton in Hw. by left.
  - eexists headerRowIndex, _, _. cbn zeta. split; [reflexivity|].
    intros w Hw.
    destruct (0 <? _); [|by apply elem_of_nil in Hw].
    apply list_elem_of_singleton in Hw. by left.
Qed.

(** Two warnings that differ within their first twenty characters. *)
Ltac different H :=
  apply (f_equal (take 20)) in H; vm_compute in H; discriminate H.

(** X30. parseCSV returns no transaction exactly when its warnings hold
    'No data rows found in CSV' or 'No valid transactions found in CSV',
    and whenever it warns 'Could not find date column' it returns no
    transaction. *)
Theorem parseCSV_warns_when_empty (issued : nat) (content : jsstring) :
  let result := parseCSV issued content in
  (result_transactions result = []
   ↔ js "No data rows found in CSV" ∈ result_warnings result
     ∨ js "No valid transactions found in CSV" ∈ result_warnings result)
  ∧ (js "Could not find date column" ∈ result_warnings result →
     result_transactions result = []).
Proof.
  cbn zeta.
  destruct (decide (2 ≤ length (papa_data (Papa_parse content)))) as [Hlen|Hlen].
  - destruct (parseCSV_unfold issued content Hlen)
      as (headerRowIndex & headers & early & -> & Hearly).
    cbn [result_transactions result_warnings].
    set (cols := columnsOf headers) in *.
    set (transactions := parseRows cols _ issued) in *.
    assert (Hempty : (length transactions =? 0) = true ↔ transactions = []).
    { rewrite Nat.eqb_eq. by destruct transactions. }
    split; [split|].
    + intros Htx. right. apply elem_of_app. right.
      rewrite (proj2 Hempty Htx). apply list_elem_of_here.
    + intros Hin. apply Hempty.
      destruct (length transactions =? 0); [done|].
      exfalso. rewrite app_nil_r in Hin.
      destruct Hin as [Hin|Hin];
        apply elem_of_app in Hin as [Hin|Hin];
        try (apply Hearly in Hin as [Hin|Hin]; different Hin);
        apply elem_of_app in Hin as [Hin|Hin];
        [destruct (dateIdx cols)|destruct (descIdx cols)
        |destruct (dateIdx cols)|destruct (descIdx cols)];
        first [by apply elem_of_nil in Hin
              |apply list_elem_of_singleton in Hin; different Hin].
    + intros Hin.
      destruct (dateIdx cols) eqn:Hdate;
        [|by apply parseRows_no_date].
      exfalso. cbn [app] in Hin.
      apply elem_of_app in Hin as [Hin|Hin].
      * apply elem_of_app in Hin as [Hin|Hin].
        -- apply Hearly in Hin as [Hin|Hin]; different Hin.
        -- destruct (descIdx cols); [by apply elem_of_nil in Hin|].
           apply list_elem_of_singleton in Hin. different Hin.
      * destruct (length transactions =? 0); [|by apply elem_of_nil in Hin].
        apply list_elem_of_singleton in Hin. different Hin.
  - unfold parseCSV.
    destruct (length (papa_data (Papa_parse content)) <? 2) eqn:Hshort;
      [|apply Nat.ltb_ge in Hshort; lia].
    cbn [result_transactions result_warnings].
    split; [|done]. split; [|done]. intros _. left. apply list_elem_of_here.
Qed.

End Tables.

(** *** The further properties at sample inputs *)

Lemma parseDate_ignores_outer_space_sample :
  js "5/6/2024" ≠ []
  ∧ parseDate (RT:=refRuntime) (js "  5/6/2024 " ++ nl) = js "2024-06-05".
Proof.
  split; [done|].
  change (js "  5/6/2024 " ++ nl) with (js "  " ++ js "5/6/2024" ++ js " " ++ nl).
  etrans; [apply (parseDate_ignores_outer_space (RT:=refRuntime)); done|].
  by vm_compute.
Defined.

Lemma numeric_dates_fit_schema_and_tally_sample :
  matchClasses isoPattern (parseDate (RT:=refRuntime) (js "99.99/2024")) = true
  ∧ formatTallyDate (parseDate (RT:=refRuntime) (js "99.99/2024")) = js "20249999".
Proof.
  destruct (numeric_dates_fit_schema_and_tally (RT:=refRuntime)
              (js "99") (js "99") (js "2024") 46%N 47%N)
    as (Hiso & _ & fullYear & _ & _ & _); [done|done|by left|].
  split; [exact Hiso|]. by vm_compute.
Defined.

Lemma getFileType_reads_last_extension_sample :
  getFileType (RT:=refRuntime) (js "Statement.2024.PDF") = FilePdf
  ∧ getFileType (RT:=refRuntime) (js "pdf") = FilePdf
  ∧ getFileType (RT:=refRuntime) (js "statement.pdf.") = FileUnknown.
Proof.
  split; [|split].
  - apply (getFileType_reads_last_extension (RT:=refRuntime)
             (js "Statement.2024.PDF") (js "statement.2024") (js "pdf")).
    + rewrite list_elem_of_In. vm_compute. intuition discriminate.
    + by left.
  - apply (getFileType_reads_last_extension (RT:=refRuntime)
             (js "pdf") [] (js "pdf")).
    + rewrite list_elem_of_In. vm_compute. intuition discriminate.
    + by right.
  - apply (getFileType_reads_last_extension (RT:=refRuntime)
             (js "statement.pdf.") (js "statement.pdf") []).
    + apply not_elem_of_nil.
    + by left.
Defined.

Lemma stream_ends_with_one_terminal_event_sample :
  MAX_RETRIES + 2 ≤ 4
  ∧ ∃ body terminal,
      start (RT:=refRuntime) (SV:=quotaExceeded) 4 (js "groq")
            (Corrupt (js "Failed to parse PDF document"))
      = Some (body ++ [Enqueue terminal; Close])
      ∧ forallb isBodyAction body = true
      ∧ terminal = EvError (js "Failed to parse PDF document").
Proof.
  split; [unfold MAX_RETRIES; lia|].
  apply (stream_ends_with_one_terminal_event (RT:=refRuntime) (SV:=quotaExceeded)
           4 (js "groq") (Corrupt (js "Failed to parse PDF document"))).
  unfold MAX_RETRIES. lia.
Defined.

Lemma streamed_transactions_are_well_formed_sample :
  ∃ actions data,
    start (RT:=replyRuntime) (SV:=scripted [Returned sampleReply])
          4 (js "gemini") (Loaded 1) = Some actions
    ∧ Enqueue (EvTransactions data) ∈ actions
    ∧ length data = 2
    ∧ ∀ tx, tx ∈ data → wellFormed tx.
Proof.
  destruct (start (RT:=replyRuntime) (SV:=scripted [Returned sampleReply])
              4 (js "gemini") (Loaded 1)) as [actions|] eqn:Hrun;
    [|by vm_compute in Hrun].
  assert (Hdata : ∃ data, actions !! 3 = Some (Enqueue (EvTransactions data))
                          ∧ length data = 2).
  { vm_compute in Hrun. injection Hrun as <-. eexists. split; reflexivity. }
  destruct Hdata as (data & Hat & Hlen).
  exists actions, data. split; [done|].
  assert (Hin : Enqueue (EvTransactions data) ∈ actions)
    by (by eapply list_elem_of_lookup_2).
  split; [done|]. split; [done|].
  exact (proj2 (streamed_transactions_are_well_formed (RT:=replyRuntime)
                  (SV:=scripted [Returned sampleReply])
                  4 (js "gemini") (Loaded 1) actions data Hrun Hin)).
Defined.

Lemma refRuntime_ids_differ m n :
  uuidv4 (Runtime:=replyRuntime) m = uuidv4 (Runtime:=replyRuntime) n → m = n.
Proof.
  cbn [uuidv4 replyRuntime]. intros Heq. apply app_inv_head in Heq.
  unfold natStr in Heq. apply (f_equal digitsValue) in Heq.
  destruct (decimal_value (N.of_nat m)) as [Hm _].
  destruct (decimal_value (N.of_nat n)) as [Hn _].
  rewrite Hm, Hn in Heq. lia.
Qed.

Lemma streamed_ids_are_distinct_sample :
  ∃ actions,
    start (RT:=replyRuntime)
          (SV:=scripted [Failed (js "503"); Returned sampleReply;
                         Returned sampleReply])
          4 (js "gemini") (Loaded 3) = Some actions
    ∧ length (emittedTransactions actions) = 4
    ∧ NoDup (tx_id <$> emittedTransactions actions).
Proof.
  destruct (start (RT:=replyRuntime)
              (SV:=scripted [Failed (js "503"); Returned sampleReply;
                             Returned sampleReply])
              4 (js "gemini") (Loaded 3)) as [actions|] eqn:Hrun;
    [|by vm_compute in Hrun].
  exists actions. split; [done|]. split.
  - vm_compute in Hrun. by injection Hrun as <-.
  - exact (streamed_ids_are_distinct (RT:=replyRuntime) _ _ _ _
             refRuntime_ids_differ Hrun).
Defined.

Lemma document_cost_is_bounded_sample :
  MAX_RETRIES + 2 ≤ 4
  ∧ ∃ st' new ws,
      processChunks (RT:=refRuntime) (SV:=quotaExceeded) 4 (js "gemini")
        [[0; 1]; [2]] 0 2 initialState = Some st'
      ∧ calls initialState ≤ calls st' ≤ calls initialState + (MAX_RETRIES + 1) * 2
      ∧ output st' = output initialState ++ new
      ∧ warnings st' = warnings initialState ++ ws
      ∧ countTransactionsEvents new + length ws ≤ 2.
Proof.
  split; [unfold MAX_RETRIES; lia|].
  apply (document_cost_is_bounded (RT:=refRuntime) (SV:=quotaExceeded)
           4 (js "gemini") [[0; 1]; [2]] 0 2 initialState).
  unfold MAX_RETRIES. lia.
Defined.

Lemma failing_chunk_is_skipped_with_warning_sample :
  ∃ st',
    retryLoop (RT:=refRuntime) (SV:=scripted []) 4 (js "gemini") [0] 0 1
      false 0 initialState = Some st'
    ∧ warnings st' = [js "Skipped chunk 1 due to errors: no answer"]
    ∧ output st' = [] ∧ calls st' = 3.
Proof.
  destruct (failing_chunk_is_skipped_with_warning (RT:=refRuntime)
              (SV:=scripted []) 4 [0] 0 1 initialState)
    as (st' & last & Hloop & Hlast & Hw & Ho & Hc & _).
  - unfold MAX_RETRIES. lia.
  - intros n _. by exists (js "no answer").
  - exists st'. split; [done|]. injection Hlast as <-.
    rewrite Hw, Ho, Hc. done.
Defined.

Lemma short_page_costs_no_call_sample :
  ∃ st',
    attempt (RT:=refRuntime) (SV:=quotaExceeded) (js "groq") [0] 0 2
      initialState = (Ok tt, st')
    ∧ output st'
      = [Enqueue (EvProgress (js "Waiting 5s for rate limit...") 1 2);
         Sleep 5000]
    ∧ calls st' = 0.
Proof.
  destruct (short_page_costs_no_call (RT:=refRuntime) (SV:=quotaExceeded)
              (js "groq") [0] 0 2 initialState) as [_ Hrun].
  - by vm_compute.
  - cbn. lia.
  - destruct Hrun as (st' & Hrun & Ho & _ & _ & _ & Hc); [by vm_compute|].
    exists st'. split; [done|]. by rewrite Ho, Hc.
Defined.

Lemma findDuplicates_ignores_order_sample :
  findDuplicates (RT:=refRuntime) (reverse sampleStatement)
  = findDuplicates (RT:=refRuntime) sampleStatement.
Proof.
  apply (findDuplicates_ignores_order (RT:=refRuntime)).
  apply reverse_Permutation.
Defined.

Lemma image_result_is_well_formed_sample :
  ∃ transactions warnings,
    ImageHandler.POST (RT:=replyRuntime) (VS:=sampleVision) 7 noKeys
      (sampleImageRequest "gemini")
    = ImageHandler.JsonResult transactions warnings (JString (js "SBI"))
    ∧ warnings = [js "Processed with: Gemini (model)"]
    ∧ tx_id <$> transactions = [js "id-7"; js "id-8"]
    ∧ ∀ tx, tx ∈ transactions →
        wellFormed tx ∧ tx_bankName tx = JString (js "SBI").
Proof.
  destruct (ImageHandler.POST (RT:=replyRuntime) (VS:=sampleVision) 7 noKeys
              (sampleImageRequest "gemini"))
    as [status error|transactions warnings bankName] eqn:Hpost;
    [by vm_compute in Hpost|].
  assert (Hvalues : warnings = [js "Processed with: Gemini (model)"]
                    ∧ bankName = JString (js "SBI")
                    ∧ tx_id <$> transactions = [js "id-7"; js "id-8"]).
  { vm_compute in Hpost. by injection Hpost as <- <- <-. }
  destruct Hvalues as (Hw & Hb & Hids).
  exists transactions, warnings. rewrite <- Hb. split; [done|].
  split; [done|]. split; [done|].
  exact (proj1 (image_result_is_well_formed (RT:=replyRuntime)
                  (VS:=sampleVision) 7 noKeys (sampleImageRequest "gemini")
                  transactions warnings bankName Hpost)).
Defined.

Lemma image_route_answers_failures_sample :
  ImageHandler.POST (RT:=replyRuntime) (VS:=sampleVision) 0 noKeys
    (sampleImageRequest "groq")
  = ImageHandler.JsonError 400 (js "Groq Vision failed: 429 Too Many Requests").
Proof.
  destruct (image_route_answers_failures (RT:=replyRuntime) (VS:=sampleVision)
              0 noKeys sampleImage (js "groq") (js "key") (js "model"))
    as [_ Hgroq]; [done..|].
  destruct Hgroq as [Hfailed _]; [by vm_compute|].
  by apply Hfailed.
Defined.
